(** * Hybrid retrieval and rank fusion of [backend/routes/memory_routes.py]

    A shallow embedding of the keyword relevance scorer
    ([_calculate_keyword_score]), the reciprocal-rank fusion engine
    ([_hybrid_rank_results] with its inner [_keyword_sorted] and [_add_rrf])
    and the two query orchestrators ([search_memories], [ask_from_memories]);
    then the timeline handler ([timeline_summary]), the related-memories
    handler ([get_similar_memories]) and the two searches the orchestrators
    call: the statement builder of
    [PostgreSQLConnector.advanced_search_memories]
    ([backend/db/postgresql_connector.py]) and
    [EmbeddingProcessor.search_similar_memories] with
    [find_related_memories] ([backend/utils/embeddings.py]).

    Modelling conventions.
    - Python [float] scores are exact rationals ([Q]); rounding, and with
      it the order in which floats are added, is not modelled, and
      equalities between scores are stated with [==].  Where the code calls
      [round(x, 4)] the rounding is a parameter.
    - Databases, the embedding store and the clock are outside the
      development: their answers are arguments of the functions that use
      them.
    - Python [str] is [string] over the code points 0..255; [lower] and
      [split] follow [str.lower] and [str.split()] on that range.
    - A memory is a Python [dict]; the keys the code reads are record fields
      of type [option _], [None] standing for an absent key.
    - The [fused] dict is an association list in insertion order, which is
      the order [fused.values()] yields.
    - Exceptions are values of [exn]; a computation that may raise returns
      [result]. *)

From Stdlib Require Import ZArith QArith Qminmax Qround List String Ascii Bool Lia Lqa.
From Stdlib Require Import Permutation Sorted DecimalString DecimalPos DecimalZ.
Import ListNotations.

Local Open Scope Z_scope.
Local Open Scope Q_scope.

(** ** Python strings *)

Module PyStr.

Local Open Scope nat_scope.

(** [str.isspace] on code points below 256. *)
Definition is_space (c : ascii) : bool :=
  let n := nat_of_ascii c in
  ((9 <=? n) && (n <=? 13)) || ((28 <=? n) && (n <=? 32))
  || (n =? 133) || (n =? 160).

(** [str.lower] on one code point below 256. *)
Definition lower_char (c : ascii) : ascii :=
  let n := nat_of_ascii c in
  if ((65 <=? n) && (n <=? 90)) || ((192 <=? n) && (n <=? 214))
     || ((216 <=? n) && (n <=? 222))
  then ascii_of_nat (n + 32) else c.

Fixpoint lower (s : string) : string :=
  match s with
  | EmptyString => EmptyString
  | String c s' => String (lower_char c) (lower s')
  end.

Definition is_empty (s : string) : bool :=
  match s with EmptyString => true | _ => false end.

Definition rev_string (s : list ascii) : string :=
  string_of_list_ascii (List.rev s).

(** [str.split()] with no argument: runs of whitespace separate the
    words, and no word is empty.  [cur] is the current word, reversed. *)
Fixpoint split_aux (cur : list ascii) (s : string) : list string :=
  match s with
  | EmptyString =>
      match cur with nil => nil | _ => [rev_string cur] end
  | String c s' =>
      if is_space c
      then match cur with
           | nil => split_aux nil s'
           | _ => rev_string cur :: split_aux nil s'
           end
      else split_aux (c :: cur) s'
  end.

Definition split (s : string) : list string := split_aux nil s.

(** [s.find(sub)]: index of the first occurrence, [None] where Python's
    [s.index(sub)] raises [ValueError]. *)
Fixpoint find (sub s : string) : option nat :=
  if prefix sub s then Some 0
  else match s with
       | EmptyString => None
       | String _ s' => option_map S (find sub s')
       end.

(** [sub in s]. *)
Definition contains (sub s : string) : bool :=
  match find sub s with Some _ => true | None => false end.

(** [s.count(sub)]: occurrences counted left to right without overlap;
    after a match the next [length sub - 1] positions are skipped.  The
    empty [sub] occurs [length s + 1] times. *)
Fixpoint count_skip (sub : string) (skip : nat) (s : string) : nat :=
  match s with
  | EmptyString => if is_empty sub then 1 else 0
  | String _ s' =>
      match skip with
      | S k => count_skip sub k s'
      | O => if prefix sub s
             then S (count_skip sub (length sub - 1) s')
             else count_skip sub 0 s'
      end
  end.

Definition count (sub s : string) : nat := count_skip sub 0 s.

Fixpoint lstrip (s : string) : string :=
  match s with
  | EmptyString => EmptyString
  | String c s' => if is_space c then lstrip s' else s
  end.

Fixpoint rstrip (s : string) : string :=
  match s with
  | EmptyString => EmptyString
  | String c s' =>
      match rstrip s' with
      | EmptyString => if is_space c then EmptyString else String c EmptyString
      | r => String c r
      end
  end.

(** [s.strip()]. *)
Definition strip (s : string) : string := rstrip (lstrip s).

(** [s.split(sep)] for a one-character [sep]: every [sep] separates, and
    empty pieces are kept. *)
Fixpoint split_on_aux (sep : ascii) (cur : list ascii) (s : string)
    : list string :=
  match s with
  | EmptyString => [rev_string cur]
  | String c s' =>
      if Ascii.eqb c sep then rev_string cur :: split_on_aux sep nil s'
      else split_on_aux sep (c :: cur) s'
  end.

Definition split_on (sep : ascii) (s : string) : list string :=
  split_on_aux sep nil s.

(** [x in l] for a list or set of strings. *)
Definition mem (x : string) (l : list string) : bool :=
  existsb (String.eqb x) l.

End PyStr.

(** ** Keyword relevance scorer *)

Definition Qnat (n : nat) : Q := inject_Z (Z.of_nat n).

(** The body of the [for term in query_terms] loop: the new value of
    [score]. *)
Definition score_term (text_lower : string) (words : list string)
    (score : Q) (term : string) : Q :=
  let exact_matches := PyStr.count term text_lower in
  let score := score + Qnat exact_matches * 2 in
  let partial_matches :=
    List.length
      (filter (fun word => PyStr.contains term word
                           && negb (String.eqb word term)) words) in
  let score := score + Qnat partial_matches * (1 # 2) in
  match PyStr.find term text_lower with
  | Some first_position =>
      let position_bonus :=
        Qmax 0 (1 - Qnat first_position / Qnat (String.length text_lower)) in
      score + position_bonus
  | None => score
  end.

Definition _calculate_keyword_score (text : string)
    (query_terms : list string) : Q :=
  if PyStr.is_empty text || match query_terms with nil => true | _ => false end
  then 0
  else
    let text_lower := PyStr.lower text in
    let words := PyStr.split text_lower in
    let total_words := List.length words in
    let score := fold_left (score_term text_lower words) query_terms 0 in
    Qmin (score / Qmax (Qnat total_words / 100) 1) 10.

(** ** Exceptions *)

Inductive exn : Type :=
| KeyError (key : string)
| HTTPException (status_code : Z) (detail : string)
| OtherError (message : string).

Inductive result (A : Type) : Type :=
| Ok (a : A)
| Raise (e : exn).

Arguments Ok {A} a.
Arguments Raise {A} e.

Definition bind {A B : Type} (c : result A) (k : A -> result B) : result B :=
  match c with
  | Ok a => k a
  | Raise e => Raise e
  end.

Notation "x <- c ;; k" := (bind c (fun x => k))
  (at level 61, c at next level, right associativity).

(** A [for] loop whose body may raise: the state is threaded through the
    iterations and the first exception leaves the loop. *)
Fixpoint for_each {A S : Type} (body : S -> A -> result S) (l : list A)
    (s : S) : result S :=
  match l with
  | [] => Ok s
  | x :: l' => s' <- body s x ;; for_each body l' s'
  end.

(** ** Memory records and fused results *)

Module Mem.

(** The keys of a memory dict that retrieval and fusion read or write.
    [None] is an absent key; for the two text keys, which the code reads
    with [or ''], it is also a key that holds Python's [None].
    [metadata_filename] is the [filename] entry of [metadata], decoded from
    JSON when [metadata] is a string. *)
Record t : Type := mk {
  id : option Z;
  user_id : option Z;
  type : option string;
  raw_text : option string;
  processed_text : option string;
  metadata_filename : option string;
  similarity_score : option Q;
  search_type : option string;
  image_path : option string;
  filename : option string;
  keyword_score : option Q
}.

Definition set_keyword_score (m : t) (v : Q) : t :=
  mk (id m) (user_id m) (type m) (raw_text m) (processed_text m)
     (metadata_filename m) (similarity_score m) (search_type m)
     (image_path m) (filename m) (Some v).

(** [memory["similarity_score"] = s; memory["search_type"] = tag]. *)
Definition set_similarity (m : t) (s : Q) (tag : string) : t :=
  mk (id m) (user_id m) (type m) (raw_text m) (processed_text m)
     (metadata_filename m) (Some s) (Some tag)
     (image_path m) (filename m) (keyword_score m).

(** The dict without its [keyword_score] key. *)
Definition drop_keyword_score (m : t) : t :=
  mk (id m) (user_id m) (type m) (raw_text m) (processed_text m)
     (metadata_filename m) (similarity_score m) (search_type m)
     (image_path m) (filename m) None.

(** [d["image_path"] = p; d["filename"] = f].  The two keys are read
    with [dict.get] and no default, where a key that holds Python's [None]
    and an absent key read alike. *)
Definition set_image_fields (m : t) (p f : option string) : t :=
  mk (id m) (user_id m) (type m) (raw_text m) (processed_text m)
     (metadata_filename m) (similarity_score m) (search_type m)
     p f (keyword_score m).

End Mem.

Definition Memory : Type := Mem.t.

Inductive Source : Type := keyword | semantic | image.

Inductive ScoreField : Type :=
| keyword_score_field | semantic_score_field | image_score_field.

(** A value of the [fused] dict: the keys copied from the memory
    ([**memory]) and the five keys that the dict display sets after them.
    The display replaces a [keyword_score] key of the memory, so [fields]
    holds the copy without it. *)
Record Fused : Type := mkFused {
  fields : Memory;
  match_types : list Source;
  keyword_score : Q;
  semantic_score : Q;
  image_score : Q;
  hybrid_score : Q;
  image_url : option string
}.

Record ExtraFields : Type := mkExtra {
  extra_image_path : option string;
  extra_filename : option string
}.

(** ** Python lists and dicts *)

Section PyList.

Context {A : Type}.

(** [enumerate(l, start)]. *)
Fixpoint enumerate (start : Z) (l : list A) : list (Z * A) :=
  match l with
  | [] => []
  | x :: l' => (start, x) :: enumerate (start + 1)%Z l'
  end.

(** [l[:limit]]: a negative [limit] counts from the end. *)
Definition slice_to (limit : Z) (l : list A) : list A :=
  if (0 <=? limit)%Z then firstn (Z.to_nat limit) l
  else firstn (Z.to_nat (Z.of_nat (List.length l) + limit)) l.

Variable key : A -> Q.

(** [sorted(l, key=key, reverse=True)] is a stable sort: of two elements
    with equal keys the one that came first in [l] stays first.  [x] is
    inserted before the elements that followed it, so it goes in front of
    the first one whose key is not greater. *)
Fixpoint insert_desc (x : A) (l : list A) : list A :=
  match l with
  | [] => [x]
  | y :: l' =>
      if Qle_bool (key y) (key x) then x :: y :: l'
      else y :: insert_desc x l'
  end.

Definition sorted_desc (l : list A) : list A := fold_right insert_desc [] l.

End PyList.

Section PyDict.

Context {V : Type}.

(** [k in d]. *)
Fixpoint has_key (k : Z) (d : list (Z * V)) : bool :=
  match d with
  | [] => false
  | (k', _) :: d' => (k =? k')%Z || has_key k d'
  end.

(** [d.get(k)]. *)
Fixpoint lookup (k : Z) (d : list (Z * V)) : option V :=
  match d with
  | [] => None
  | (k', v) :: d' => if (k =? k')%Z then Some v else lookup k d'
  end.

(** In-place update of the value stored under [k]. *)
Fixpoint alter (f : V -> V) (k : Z) (d : list (Z * V)) : list (Z * V) :=
  match d with
  | [] => []
  | (k', v) :: d' =>
      if (k =? k')%Z then (k', f v) :: d' else (k', v) :: alter f k d'
  end.

(** [d.values()], in insertion order. *)
Definition values (d : list (Z * V)) : list V := map snd d.

End PyDict.

Definition get_default {A : Type} (o : option A) (d : A) : A :=
  match o with Some a => a | None => d end.

(** ** Rank fusion *)

Definition rrf_k : Q := 60.

Definition new_fused (memory : Memory) : Fused :=
  mkFused (Mem.drop_keyword_score memory) [] 0 0 0 0 None.

(** The statements of [_add_rrf] after the entry for [memory_id] exists,
    as one update of that entry. *)
Definition rrf_update (memory : Memory) (rank : Z) (source : Source)
    (score_field : option ScoreField) (extra_fields : option ExtraFields)
    (f : Fused) : Fused :=
  let hybrid := hybrid_score f + 1 / (rrf_k + inject_Z rank) in
  let types := match_types f ++ [source] in
  let kw :=
    match score_field with
    | Some keyword_score_field =>
        Qmax (keyword_score f) (get_default (Mem.keyword_score memory) 0)
    | _ => keyword_score f
    end in
  let sem :=
    match score_field with
    | Some semantic_score_field =>
        Qmax (semantic_score f) (get_default (Mem.similarity_score memory) 0)
    | _ => semantic_score f
    end in
  let img :=
    match score_field with
    | Some image_score_field =>
        Qmax (image_score f) (get_default (Mem.similarity_score memory) 0)
    | _ => image_score f
    end in
  let flds :=
    match extra_fields with
    | Some e =>
        Mem.set_image_fields (fields f) (extra_image_path e) (extra_filename e)
    | None => fields f
    end in
  mkFused flds types kw sem img hybrid (image_url f).

Definition _add_rrf (fused : list (Z * Fused)) (memory : Memory) (rank : Z)
    (source : Source) (score_field : option ScoreField)
    (extra_fields : option ExtraFields) : result (list (Z * Fused)) :=
  match Mem.id memory with
  | None => Raise (KeyError "id")
  | Some memory_id =>
      let fused :=
        if has_key memory_id fused then fused
        else fused ++ [(memory_id, new_fused memory)] in
      Ok (alter (rrf_update memory rank source score_field extra_fields)
                memory_id fused)
  end.

(** [set(query.lower().split())]. *)
Definition query_terms_of (query : string) : list string :=
  nodup string_dec (PyStr.split (PyStr.lower query)).

Definition text_or_empty (o : option string) : string := get_default o ""%string.

Definition _keyword_sorted (query_terms : list string)
    (results : list Memory) : list (Q * Memory) :=
  let scored :=
    map (fun memory =>
           let processed_text := text_or_empty (Mem.processed_text memory) in
           let raw_text := text_or_empty (Mem.raw_text memory) in
           let text_content := (processed_text ++ " " ++ raw_text)%string in
           (_calculate_keyword_score text_content query_terms, memory))
        results in
  sorted_desc fst scored.

Definition similarity_key (m : Memory) : Q :=
  get_default (Mem.similarity_score m) 0.

Definition keyword_loop (fused : list (Z * Fused))
    (keyword_scored : list (Q * Memory)) : result (list (Z * Fused)) :=
  for_each
    (fun fused '(rank, (kw_score, memory)) =>
       let memory := Mem.set_keyword_score memory kw_score in
       _add_rrf fused memory rank keyword (Some keyword_score_field) None)
    (enumerate 1 keyword_scored) fused.

Definition semantic_loop (fused : list (Z * Fused))
    (semantic_sorted : list Memory) : result (list (Z * Fused)) :=
  for_each
    (fun fused '(rank, memory) =>
       _add_rrf fused memory rank semantic (Some semantic_score_field) None)
    (enumerate 1 semantic_sorted) fused.

Definition image_loop (fused : list (Z * Fused))
    (image_sorted : list Memory) : result (list (Z * Fused)) :=
  for_each
    (fun fused '(rank, memory) =>
       _add_rrf fused memory rank image (Some image_score_field)
         (Some (mkExtra (Mem.image_path memory) (Mem.filename memory))))
    (enumerate 1 image_sorted) fused.

Definition _hybrid_rank_results
    (keyword_results semantic_results image_results : list Memory)
    (query : string) (limit : Z) : result (list Fused) :=
  let query_terms := query_terms_of query in
  let keyword_scored := _keyword_sorted query_terms keyword_results in
  let semantic_sorted := sorted_desc similarity_key semantic_results in
  let image_sorted := sorted_desc similarity_key image_results in
  fused <- keyword_loop [] keyword_scored ;;
  fused <- semantic_loop fused semantic_sorted ;;
  fused <- image_loop fused image_sorted ;;
  let sorted_results := sorted_desc hybrid_score (values fused) in
  Ok (slice_to limit sorted_results).

(** ** Candidate sources

    The collaborators of one request: the relational store, the embedding
    store, the CLIP encoder and the answering model.  Each call has a fixed
    outcome for the request, a value or an exception. *)

Record SemanticMatch : Type := mkSemanticMatch {
  sm_memory_id : Z;
  sm_similarity : Q
}.

(** One row of [zip(ids, distances, metadatas, documents)]. *)
Record ImageMatch : Type := mkImageMatch {
  im_memory_id : Z;
  im_distance : Q;
  im_image_path : option string;
  im_filename : option string
}.

(** - [advanced_search_memories], [basic_search_memories]: the keyword
      searches [postgres_db.advanced_search_memories] and
      [postgres_db.search_memories];
    - [search_similar_memories]: [embedding_processor.search_similar_memories];
    - [get_memory_by_id]: [postgres_db.get_memory_by_id], a fresh dict per
      call, [None] when there is no such row;
    - [image_collection]: whether the embedding store has an image
      collection;
    - [encode_text]: the CLIP text encoder run through the executor;
    - [image_collection_query]: the rows of [image_collection.query];
    - [groq_answer]: [groq_client.answer] on the prompt built from the
      given context records. *)
Record World : Type := mkWorld {
  advanced_search_memories : result (list Memory);
  basic_search_memories : result (list Memory);
  search_similar_memories : result (list SemanticMatch);
  get_memory_by_id : Z -> result (option Memory);
  image_collection : bool;
  encode_text : result unit;
  image_collection_query : result (list ImageMatch);
  groq_answer : list Fused -> result string
}.

(** The calls to collaborators, in the order the handler makes them. *)
Inductive event : Type :=
| CallAdvancedSearch
| CallBasicSearch
| CallSemanticSearch
| CallGetMemory (memory_id : Z)
| CallEncodeText
| CallImageQuery
| CallGroq.

Definition is_retrieval (e : event) : bool :=
  match e with CallGroq => false | _ => true end.

Definition owned_by (user_id : Z) (memory : Memory) : bool :=
  match Mem.user_id memory with
  | Some u => (u =? user_id)%Z
  | None => false
  end.

Local Open Scope string_scope.
Local Open Scope list_scope.

Definition allowed_types : list string := ["text"; "image"; "voice"].

Definition type_selected (selected_types : list string) (m : Memory) : bool :=
  match Mem.type m with
  | Some t => PyStr.mem t selected_types
  | None => false
  end.

(** [[m for m in results if (m or {}).get("type") in selected_types]]
    when [selected_types is not None]. *)
Definition filter_types (selected_types : option (list string))
    (results : list Memory) : list Memory :=
  match selected_types with
  | Some sel => filter (type_selected sel) results
  | None => results
  end.

(** ** [search_memories] *)

Record Breakdown : Type := mkBreakdown {
  keyword_matches : nat;
  semantic_matches : nat;
  image_matches : nat
}.

Record SearchResponse : Type := mkSearchResponse {
  resp_query : string;
  resp_search_type : string;
  resp_memory_type : option string;
  resp_memory_types : option string;
  memories : list Fused;
  total_found : nat;
  breakdown : Breakdown
}.

Definition search_keyword_stage (w : World) (search_type : string)
    : list event * list Memory :=
  if PyStr.mem search_type ["hybrid"; "keyword"]
  then ([CallAdvancedSearch],
        match advanced_search_memories w with
        | Ok results => results
        | Raise _ => []
        end)
  else ([], []).

(** The loop over the semantic matches; an exception of one lookup is
    caught inside the loop, which continues with the next match. *)
Fixpoint search_semantic_loop (w : World) (user_id : Z)
    (semantic_matches : list SemanticMatch) : list event * list Memory :=
  match semantic_matches with
  | [] => ([], [])
  | m :: rest =>
      let here :=
        match get_memory_by_id w (sm_memory_id m) with
        | Ok (Some memory) =>
            if owned_by user_id memory && Qle_bool (1 # 2) (sm_similarity m)
            then [Mem.set_similarity memory (sm_similarity m) "semantic"]
            else []
        | _ => []
        end in
      let '(tr, results) := search_semantic_loop w user_id rest in
      (CallGetMemory (sm_memory_id m) :: tr, here ++ results)
  end.

Definition search_semantic_stage (w : World) (user_id : Z)
    (search_type : string) : list event * list Memory :=
  if PyStr.mem search_type ["hybrid"; "semantic"]
  then match search_similar_memories w with
       | Ok semantic_matches =>
           let '(tr, results) := search_semantic_loop w user_id semantic_matches in
           (CallSemanticSearch :: tr, results)
       | Raise _ => ([CallSemanticSearch], [])
       end
  else ([], []).

Definition image_memory (memory : Memory) (similarity : Q) (m : ImageMatch)
    : Memory :=
  Mem.set_image_fields (Mem.set_similarity memory similarity "image")
    (im_image_path m) (im_filename m).

Fixpoint search_image_loop (w : World) (user_id : Z)
    (image_matches : list ImageMatch) : list event * list Memory :=
  match image_matches with
  | [] => ([], [])
  | m :: rest =>
      let similarity := 1 - im_distance m in
      let '(tr, results) := search_image_loop w user_id rest in
      if Qle_bool (35 # 100) similarity
      then
        let here :=
          match get_memory_by_id w (im_memory_id m) with
          | Ok (Some memory) =>
              if owned_by user_id memory
              then [image_memory memory similarity m]
              else []
          | _ => []
          end in
        (CallGetMemory (im_memory_id m) :: tr, here ++ results)
      else (tr, results)
  end.

Definition search_image_stage (w : World) (user_id : Z)
    (search_type : string) : list event * list Memory :=
  if PyStr.mem search_type ["hybrid"; "image"]
  then
    if image_collection w
    then match encode_text w with
         | Raise _ => ([CallEncodeText], [])
         | Ok _ =>
             match image_collection_query w with
             | Raise _ => ([CallEncodeText; CallImageQuery], [])
             | Ok image_matches =>
                 let '(tr, results) := search_image_loop w user_id image_matches in
                 (CallEncodeText :: CallImageQuery :: tr, results)
             end
         end
    else ([], [])
  else ([], []).

(** Step 4 of [search_memories]: the normalised [memory_type] and the
    selected types, or the client error. *)
Definition search_select_types (memory_type memory_types : option string)
    : result (option string * option (list string)) :=
  match memory_type with
  | Some mt =>
      let mt := PyStr.lower (PyStr.strip mt) in
      if negb (PyStr.mem mt allowed_types)
      then Raise (HTTPException 400 "Invalid memory_type")
      else Ok (Some mt, Some [mt])
  | None =>
      match memory_types with
      | Some mts =>
          let parsed :=
            map (fun t => PyStr.lower (PyStr.strip t))
                (filter (fun t => negb (PyStr.is_empty (PyStr.strip t)))
                        (PyStr.split_on "," mts)) in
          match parsed with
          | [] => Raise (HTTPException 400 "Invalid memory_types")
          | _ =>
              if existsb (fun t => negb (PyStr.mem t allowed_types)) parsed
              then Raise (HTTPException 400 "Invalid memory_types")
              else Ok (None, Some (nodup string_dec parsed))
          end
      | None => Ok (None, None)
      end
  end.

(** Step 6: image results get the URL built from the stored file name. *)
Definition add_image_url (r : Fused) : Fused :=
  match Mem.type (fields r), Mem.metadata_filename (fields r) with
  | Some "image", Some fname =>
      if PyStr.is_empty fname then r
      else mkFused (fields r) (match_types r) (keyword_score r)
             (semantic_score r) (image_score r) (hybrid_score r)
             (Some ("/api/v1/images/" ++ fname)%string)
  | _, _ => r
  end.

Definition string_of_Z (z : Z) : string :=
  DecimalString.NilZero.string_of_int (Z.to_int z).

(** [str(e)]; for an [HTTPException] the status code, a colon and the
    detail. *)
Definition exn_str (e : exn) : string :=
  match e with
  | KeyError k => ("'" ++ k ++ "'")%string
  | HTTPException status detail => (string_of_Z status ++ ": " ++ detail)%string
  | OtherError msg => msg
  end.

(** The body of the handler's [try]: the calls made and the outcome. *)
Definition search_memories_body (w : World) (user_id : Z) (query : string)
    (limit : Z) (search_type : string) (memory_type memory_types : option string)
    : list event * result SearchResponse :=
  let '(tr1, keyword_results) := search_keyword_stage w search_type in
  let '(tr2, semantic_results) := search_semantic_stage w user_id search_type in
  let '(tr3, image_results) := search_image_stage w user_id search_type in
  (tr1 ++ tr2 ++ tr3,
   sel <- search_select_types memory_type memory_types ;;
   let '(memory_type, selected_types) := sel in
   let keyword_results := filter_types selected_types keyword_results in
   let semantic_results := filter_types selected_types semantic_results in
   let image_results := filter_types selected_types image_results in
   final_results <- _hybrid_rank_results keyword_results semantic_results
                      image_results query limit ;;
   let final_results := map add_image_url final_results in
   Ok (mkSearchResponse query search_type memory_type memory_types
         final_results (List.length final_results)
         (mkBreakdown (List.length keyword_results)
            (List.length semantic_results) (List.length image_results)))).

(** [except Exception as e] around the whole body: every exception,
    [HTTPException] included, becomes a 500. *)
Definition search_memories (w : World) (user_id : Z) (query : string)
    (limit : Z) (search_type : string) (memory_type memory_types : option string)
    : list event * result SearchResponse :=
  let '(tr, r) := search_memories_body w user_id query limit search_type
                    memory_type memory_types in
  (tr,
   match r with
   | Ok response => Ok response
   | Raise e => Raise (HTTPException 500 ("Hybrid search failed: " ++ exn_str e)%string)
   end).

(** ** [ask_from_memories] *)

(** The request body; the framework has checked [1 <= limit <= 30] before
    the handler runs. *)
Record AskRequest : Type := mkAskRequest {
  req_question : string;
  req_limit : Z;
  req_search_type : string;
  req_memory_type : option string;
  req_memory_types : option (list string)
}.

Record AskResponse : Type := mkAskResponse {
  ans_question : string;
  ans_answer : string;
  ans_memory_ids : list Z
}.

Definition ask_select_types (memory_type : option string)
    (memory_types : option (list string)) : result (option (list string)) :=
  match memory_type with
  | Some mt =>
      let mt := PyStr.lower (PyStr.strip mt) in
      if negb (PyStr.mem mt allowed_types)
      then Raise (HTTPException 400 "Invalid memory_type")
      else Ok (Some [mt])
  | None =>
      match memory_types with
      | Some mts =>
          let parsed :=
            map (fun t => PyStr.lower (PyStr.strip t))
                (filter (fun t => negb (PyStr.is_empty (PyStr.strip t))) mts) in
          match parsed with
          | [] => Raise (HTTPException 400 "Invalid memory_types")
          | _ =>
              if existsb (fun t => negb (PyStr.mem t allowed_types)) parsed
              then Raise (HTTPException 400 "Invalid memory_types")
              else Ok (Some (nodup string_dec parsed))
          end
      | None => Ok None
      end
  end.

Definition ask_keyword_stage (w : World) (search_type : string)
    : list event * list Memory :=
  if PyStr.mem search_type ["hybrid"; "keyword"]
  then match advanced_search_memories w with
       | Raise _ => ([CallAdvancedSearch], [])
       | Ok [] =>
           ([CallAdvancedSearch; CallBasicSearch],
            match basic_search_memories w with
            | Ok results => results
            | Raise _ => []
            end)
       | Ok results => ([CallAdvancedSearch], results)
       end
  else ([], []).

(** The loops of [ask_from_memories] have no [try] of their own: the first
    failing lookup ends the loop with its exception. *)
Fixpoint ask_semantic_loop (w : World) (user_id : Z)
    (semantic_matches : list SemanticMatch)
    : list event * result (list Memory) :=
  match semantic_matches with
  | [] => ([], Ok [])
  | m :: rest =>
      match get_memory_by_id w (sm_memory_id m) with
      | Raise e => ([CallGetMemory (sm_memory_id m)], Raise e)
      | Ok found =>
          let here :=
            match found with
            | Some mem =>
                if owned_by user_id mem
                then [Mem.set_similarity mem (sm_similarity m) "semantic"]
                else []
            | None => []
            end in
          let '(tr, r) := ask_semantic_loop w user_id rest in
          (CallGetMemory (sm_memory_id m) :: tr,
           results <- r ;; Ok (here ++ results))
      end
  end.

Definition or_empty (r : result (list Memory)) : list Memory :=
  match r with Ok l => l | Raise _ => [] end.

Definition ask_semantic_stage (w : World) (user_id : Z)
    (search_type : string) : list event * list Memory :=
  if PyStr.mem search_type ["hybrid"; "semantic"]
  then match search_similar_memories w with
       | Ok semantic_matches =>
           let '(tr, r) := ask_semantic_loop w user_id semantic_matches in
           (CallSemanticSearch :: tr, or_empty r)
       | Raise _ => ([CallSemanticSearch], [])
       end
  else ([], []).

Fixpoint ask_image_loop (w : World) (user_id : Z)
    (image_matches : list ImageMatch) : list event * result (list Memory) :=
  match image_matches with
  | [] => ([], Ok [])
  | m :: rest =>
      let similarity := 1 - im_distance m in
      match get_memory_by_id w (im_memory_id m) with
      | Raise e => ([CallGetMemory (im_memory_id m)], Raise e)
      | Ok found =>
          let here :=
            match found with
            | Some mem =>
                if owned_by user_id mem
                then [image_memory mem similarity m]
                else []
            | None => []
            end in
          let '(tr, r) := ask_image_loop w user_id rest in
          (CallGetMemory (im_memory_id m) :: tr,
           results <- r ;; Ok (here ++ results))
      end
  end.

Definition ask_image_stage (w : World) (user_id : Z)
    (search_type : string) : list event * list Memory :=
  if PyStr.mem search_type ["hybrid"; "image"]
  then
    if image_collection w
    then match encode_text w with
         | Raise _ => ([CallEncodeText], [])
         | Ok _ =>
             match image_collection_query w with
             | Raise _ => ([CallEncodeText; CallImageQuery], [])
             | Ok image_matches =>
                 let '(tr, r) := ask_image_loop w user_id image_matches in
                 (CallEncodeText :: CallImageQuery :: tr, or_empty r)
             end
         end
    else ([], [])
  else ([], []).

(** [[m.get("id") for m in fused if m.get("id") is not None]]. *)
Fixpoint ids_of (fused : list Fused) : list Z :=
  match fused with
  | [] => []
  | m :: rest =>
      match Mem.id (fields m) with
      | Some i => i :: ids_of rest
      | None => ids_of rest
      end
  end.

(** The handler has no [try] around validation and fusion: their
    exceptions leave it unchanged.  Only the failure of the answering model
    is turned into a 500. *)
Definition ask_from_memories (w : World) (user_id : Z) (request : AskRequest)
    : list event * result AskResponse :=
  let question := PyStr.strip (req_question request) in
  if PyStr.is_empty question
  then ([], Raise (HTTPException 400 "question is required"))
  else
    match ask_select_types (req_memory_type request) (req_memory_types request) with
    | Raise e => ([], Raise e)
    | Ok selected_types =>
        let '(tr1, keyword_results) := ask_keyword_stage w (req_search_type request) in
        let '(tr2, semantic_results) :=
          ask_semantic_stage w user_id (req_search_type request) in
        let '(tr3, image_results) :=
          ask_image_stage w user_id (req_search_type request) in
        let keyword_results := filter_types selected_types keyword_results in
        let semantic_results := filter_types selected_types semantic_results in
        let image_results := filter_types selected_types image_results in
        match _hybrid_rank_results keyword_results semantic_results
                image_results question (req_limit request) with
        | Raise e => (tr1 ++ tr2 ++ tr3, Raise e)
        | Ok fused =>
            let memory_ids := ids_of fused in
            (tr1 ++ tr2 ++ tr3 ++ [CallGroq],
             match groq_answer w (slice_to (req_limit request) fused) with
             | Ok answer => Ok (mkAskResponse question answer memory_ids)
             | Raise e =>
                 Raise (HTTPException 500
                          ("Groq request failed: " ++ exn_str e)%string)
             end)
        end
    end.

(** ** [timeline_summary]

    The handler groups the stored rows of a user by ISO week or by month.
    The date arithmetic of Python's [datetime] is outside this development:
    a [Calendar] gives, for a timeframe and a timestamp, the period key
    ([f"{iso.year}-W{iso.week:02d}"] or [f"{ts.year}-{ts.month:02d}"]), the
    ISO dates of the first and last day of the period, and the ISO form of
    the timestamp.  Rows carry the timestamp as the database driver returns
    it, a [datetime], on which [parse_ts] is the identity. *)

Record Calendar : Type := mkCalendar {
  datetime : Type;
  period_key : string -> datetime -> string;
  period_start : string -> datetime -> string;
  period_end : string -> datetime -> string;
  isoformat : datetime -> string
}.

(** A row of the query; an element of [sentiments] is [Some score] when
    [float(s.get("score", 0.0))] succeeds on it and [None] when it raises. *)
Record TimelineRow (cal : Calendar) : Type := mkTimelineRow {
  tl_memory : Memory;
  tl_timestamp : datetime cal;
  tl_sentiments : list (option Q)
}.

Arguments tl_memory {cal} _.
Arguments tl_timestamp {cal} _.
Arguments tl_sentiments {cal} _.

Fixpoint valid_scores (sentiments : list (option Q)) : list Q :=
  match sentiments with
  | [] => []
  | Some s :: rest => s :: valid_scores rest
  | None :: rest => valid_scores rest
  end.

(** The inner [sentiment_score]: the first score that converts, 0.0 when
    there is none. *)
Definition sentiment_score (sentiments : list (option Q)) : Q :=
  match valid_scores sentiments with
  | s :: _ => s
  | [] => 0
  end.

Record TimelineEntry : Type := mkTimelineEntry {
  te_id : option Z;
  te_raw_text : option string;
  te_processed_text : option string;
  te_type : option string;
  te_timestamp : string;
  te_metadata_filename : option string;
  te_sentiments : list (option Q);
  te_sentiment_score : Q;
  te_image_url : option string
}.

Definition timeline_image_url (ty fname : option string) : option string :=
  match ty, fname with
  | Some "image", Some f =>
      if PyStr.is_empty f then None else Some ("/api/v1/images/" ++ f)%string
  | _, _ => None
  end.

Definition mem_entry {cal : Calendar} (row : TimelineRow cal) : TimelineEntry :=
  let mem := tl_memory row in
  mkTimelineEntry (Mem.id mem) (Mem.raw_text mem) (Mem.processed_text mem)
    (Mem.type mem) (isoformat cal (tl_timestamp row))
    (Mem.metadata_filename mem) (tl_sentiments row)
    (sentiment_score (tl_sentiments row))
    (timeline_image_url (Mem.type mem) (Mem.metadata_filename mem)).

Record TimelineGroup : Type := mkTimelineGroup {
  tg_period : string;
  tg_start : string;
  tg_end : string;
  tg_memories : list TimelineEntry
}.

(** The [groups] dict, keyed by period, in insertion order. *)
Fixpoint group_known (key : string) (groups : list (string * TimelineGroup))
    : bool :=
  match groups with
  | [] => false
  | (k, _) :: rest => String.eqb key k || group_known key rest
  end.

Fixpoint group_append (key : string) (entry : TimelineEntry)
    (groups : list (string * TimelineGroup)) : list (string * TimelineGroup) :=
  match groups with
  | [] => []
  | (k, g) :: rest =>
      if String.eqb key k
      then (k, mkTimelineGroup (tg_period g) (tg_start g) (tg_end g)
                 (tg_memories g ++ [entry])) :: rest
      else (k, g) :: group_append key entry rest
  end.

(** The body of [for row in rows]. *)
Definition group_row {cal : Calendar} (timeframe : string)
    (groups : list (string * TimelineGroup)) (row : TimelineRow cal)
    : list (string * TimelineGroup) :=
  let ts := tl_timestamp row in
  let key := period_key cal timeframe ts in
  let groups :=
    if group_known key groups then groups
    else groups ++ [(key, mkTimelineGroup key (period_start cal timeframe ts)
                            (period_end cal timeframe ts) [])] in
  group_append key (mem_entry row) groups.

(** [max(mems, key=...)] and [min(mems, key=...)] on a non-empty list: the
    first element with the largest, or the smallest, key. *)
Fixpoint max_by {A : Type} (key : A -> Q) (best : A) (l : list A) : A :=
  match l with
  | [] => best
  | x :: l' =>
      if Qle_bool (key x) (key best) then max_by key best l'
      else max_by key x l'
  end.

Fixpoint min_by {A : Type} (key : A -> Q) (best : A) (l : list A) : A :=
  match l with
  | [] => best
  | x :: l' =>
      if Qle_bool (key best) (key x) then min_by key best l'
      else min_by key x l'
  end.

Record TimelineSummary : Type := mkTimelineSummary {
  ts_period : string;
  ts_start : string;
  ts_end : string;
  ts_count : nat;
  ts_top_positive : TimelineEntry;
  ts_top_negative : TimelineEntry;
  ts_memories : list TimelineEntry
}.

(** One round of [for key, data in groups.items()]: nothing for a group
    without memories. *)
Definition summarise (g : TimelineGroup) : list TimelineSummary :=
  match tg_memories g with
  | [] => []
  | m :: rest =>
      [mkTimelineSummary (tg_period g) (tg_start g) (tg_end g)
         (List.length (tg_memories g))
         (max_by te_sentiment_score m rest)
         (min_by te_sentiment_score m rest)
         (tg_memories g)]
  end.

(** [l.sort(key=..., reverse=True)] on string keys, stable. *)
Fixpoint insert_desc_str {A : Type} (key : A -> string) (x : A) (l : list A)
    : list A :=
  match l with
  | [] => [x]
  | y :: l' =>
      if String.leb (key y) (key x) then x :: y :: l'
      else y :: insert_desc_str key x l'
  end.

Definition sorted_desc_str {A : Type} (key : A -> string) (l : list A)
    : list A :=
  fold_right (insert_desc_str key) [] l.

Record TimelineResponse : Type := mkTimelineResponse {
  tr_timeframe : string;
  tr_total_memories : nat;
  tr_groups : list TimelineSummary
}.

Definition timeline_groups {cal : Calendar} (timeframe : string)
    (rows : list (TimelineRow cal)) : list (string * TimelineGroup) :=
  fold_left (group_row timeframe) rows [].

(** [fetched] is the outcome of the query for the rows of the user; the
    second component tells whether the query was made. *)
Definition timeline_summary {cal : Calendar} (timeframe : string)
    (fetched : result (list (TimelineRow cal)))
    : bool * result TimelineResponse :=
  if negb (PyStr.mem timeframe ["weekly"; "monthly"])
  then (false,
        Raise (HTTPException 400 "Invalid timeframe. Use 'weekly' or 'monthly'."))
  else
    (true,
     match fetched with
     | Raise e =>
         Raise (HTTPException 500
                  ("Failed to build timeline summary: " ++ exn_str e)%string)
     | Ok rows =>
         let groups := timeline_groups timeframe rows in
         let summary_groups := flat_map (fun kg => summarise (snd kg)) groups in
         Ok (mkTimelineResponse timeframe (List.length rows)
               (sorted_desc_str ts_start summary_groups))
     end).

(** ** [PostgreSQLConnector.advanced_search_memories]

    The keyword search of [backend/db/postgresql_connector.py], which both
    handlers call first.  It builds a parametrised statement and passes it
    with its parameters to [conn.fetch].  The database is outside this
    development: [fetch] is an argument, and the rows it returns are the
    result. *)

Inductive SqlParam : Type :=
| PInt (n : Z)
| PText (s : string).

Definition newline : string := String (ascii_of_nat 10) EmptyString.

Definition is_nil {A : Type} (l : list A) : bool :=
  match l with [] => true | _ => false end.

Module PostgreSQLConnector.

(** [f"${param_count}"]. *)
Definition placeholder (param_count : Z) : string :=
  ("$" ++ string_of_Z param_count)%string.

(** The f-string appended to [search_conditions] for one term. *)
Definition search_condition (param_count : Z) : string :=
  String.concat newline
    ["";
     ("                (m.processed_text ILIKE " ++ placeholder param_count
      ++ " OR ")%string;
     ("                 m.raw_text ILIKE " ++ placeholder param_count
      ++ " OR")%string;
     ("                 e.entity ILIKE " ++ placeholder param_count
      ++ ")")%string;
     "            "]%string.

(** The variables the loop over the terms updates. *)
Record Builder : Type := mkBuilder {
  b_params : list SqlParam;
  b_param_count : Z;
  b_search_conditions : list string
}.

(** The body of [for term in query_terms]. *)
Definition add_term (b : Builder) (term : string) : Builder :=
  let term_pattern := ("%" ++ term ++ "%")%string in
  mkBuilder (b_params b ++ [PText term_pattern])
    (b_param_count b + 1)%Z
    (b_search_conditions b ++ [search_condition (b_param_count b)]).

Definition where_clause_of (user_filter : string)
    (search_conditions : list string) : string :=
  if negb (PyStr.is_empty user_filter) && negb (is_nil search_conditions)
  then ("WHERE " ++ user_filter ++ " AND ("
        ++ String.concat " OR " search_conditions ++ ")")%string
  else if negb (PyStr.is_empty user_filter)
  then ("WHERE " ++ user_filter)%string
  else if negb (is_nil search_conditions)
  then ("WHERE (" ++ String.concat " OR " search_conditions ++ ")")%string
  else ""%string.

(** The text of [search_query] before the where clause. *)
Definition sql_head : string :=
  String.concat newline
    ["";
     "        SELECT m.id, m.raw_text, m.processed_text, m.type, m.timestamp, m.metadata, m.embedding_id, m.created_at, m.updated_at, m.user_id,";
     "               COALESCE(";
     "                   (SELECT json_agg(jsonb_build_object(";
     "                       'entity', e2.entity, ";
     "                       'type', e2.entity_type, ";
     "                       'confidence', e2.confidence";
     "                   ))";
     "                   FROM entities e2";
     "                   WHERE e2.memory_id = m.id), '[]'::json";
     "               ) as entities,";
     "               COALESCE(";
     "                   (SELECT json_agg(jsonb_build_object(";
     "                       'score', s2.sentiment_score,";
     "                       'label', s2.sentiment_label,";
     "                       'confidence', s2.confidence";
     "                   ))";
     "                   FROM sentiments s2";
     "                   WHERE s2.memory_id = m.id), '[]'::json";
     "               ) as sentiments";
     "        FROM memories m";
     "        LEFT JOIN entities e ON m.id = e.memory_id";
     "        LEFT JOIN sentiments s ON m.id = s.memory_id";
     "        "].

(** The text between the where clause and the limit placeholder. *)
Definition sql_middle : string :=
  String.concat newline
    ["";
     "        GROUP BY m.id, m.raw_text, m.processed_text, m.type, m.timestamp, m.metadata, m.embedding_id, m.created_at, m.updated_at, m.user_id";
     "        ORDER BY m.timestamp DESC";
     "        LIMIT "].

(** The text after the limit placeholder. *)
Definition sql_tail : string :=
  String.concat newline
    ["";
     "        "].

(** The function up to the [fetch]: [search_query] and [params]. *)
Definition search_statement (query : string) (limit : Z) (user_id : option Z)
    : string * list SqlParam :=
  let query_terms := PyStr.split (PyStr.lower query) in
  let params := [] in
  let param_count := 1%Z in
  let user_filter := ""%string in
  let '(user_filter, params, param_count) :=
    match user_id with
    | Some uid =>
        (("m.user_id = " ++ placeholder param_count)%string,
         params ++ [PInt uid], (param_count + 1)%Z)
    | None => (user_filter, params, param_count)
    end in
  let b := fold_left add_term query_terms (mkBuilder params param_count []) in
  let where_clause := where_clause_of user_filter (b_search_conditions b) in
  let params := b_params b ++ [PInt limit] in
  let limit_param := placeholder (b_param_count b) in
  let search_query :=
    (sql_head ++ where_clause ++ sql_middle ++ limit_param ++ sql_tail)%string in
  (search_query, params).

Definition advanced_search_memories
    (fetch : string -> list SqlParam -> result (list Memory))
    (query : string) (limit : Z) (user_id : option Z) : result (list Memory) :=
  let '(search_query, params) := search_statement query limit user_id in
  fetch search_query params.

End PostgreSQLConnector.

(** ** [EmbeddingProcessor]

    The semantic search of [backend/utils/embeddings.py] and the format of
    the ids under which [store_memory_embedding] files an embedding. *)

(** The whitespace [int] skips at both ends of its argument: tab to
    carriage return, the space, and the two Latin-1 spaces U+0085 and
    U+00A0.  Unlike [str.strip], it does not skip U+001C to U+001F. *)
Definition int_space (c : ascii) : bool :=
  let n := nat_of_ascii c in
  (((9 <=? n) && (n <=? 13)) || (n =? 32) || (n =? 133) || (n =? 160))%nat.

Fixpoint int_lstrip (s : string) : string :=
  match s with
  | EmptyString => EmptyString
  | String c s' => if int_space c then int_lstrip s' else s
  end.

Fixpoint int_rstrip (s : string) : string :=
  match s with
  | EmptyString => EmptyString
  | String c s' =>
      match int_rstrip s' with
      | EmptyString => if int_space c then EmptyString else String c EmptyString
      | r => String c r
      end
  end.

(** [int(s)] for a string without underscores: optional whitespace
    around an optional sign and at least one decimal digit.  [None] where
    Python raises [ValueError]; the limit on the number of digits is not
    modelled. *)
Definition py_int (s : string) : option Z :=
  match int_rstrip (int_lstrip s) with
  | String "+"%char rest =>
      option_map (fun d => Z.of_int (Decimal.Pos d))
        (DecimalString.NilZero.uint_of_string rest)
  | stripped =>
      option_map Z.of_int (DecimalString.NilZero.int_of_string stripped)
  end.

Module EmbeddingProcessor.

(** [f"memory_{memory_id}_{uuid.uuid4().hex[:8]}"] of
    [store_memory_embedding]; [suffix] is the part drawn from the UUID. *)
Definition embedding_id_of (memory_id : Z) (suffix : string) : string :=
  ("memory_" ++ string_of_Z memory_id ++ "_" ++ suffix)%string.

(** The metadata dict of a stored embedding; the search reads only its
    ["memory_id"]. *)
Record Metadata : Type := mkMetadata {
  md_memory_id : option Z
}.

(** One row of [zip(ids, distances, metadatas, documents)]. *)
Record Hit : Type := mkHit {
  hit_embedding_id : string;
  hit_distance : Q;
  hit_metadata : Metadata;
  hit_document : option string
}.

Record SimilarMemory : Type := mkSimilarMemory {
  memory_id : option Z;
  embedding_id : string;
  similarity : Q;
  distance : Q;
  document_preview : option string;
  metadata : Metadata
}.

(** Truth value of [metadata.get("memory_id")]. *)
Definition truthy (memory_id : option Z) : bool :=
  match memory_id with
  | Some n => negb (n =? 0)%Z
  | None => false
  end.

(** The memory id of a hit: that of its metadata, or else the second
    field of its embedding id.  [None] where the loop takes [continue]
    (no second field, or one that is not a number). *)
Definition resolve_memory_id (metadata : Metadata) (embedding_id : string)
    : option (option Z) :=
  let memory_id := md_memory_id metadata in
  if negb (truthy memory_id) && negb (PyStr.is_empty embedding_id)
  then match nth_error (PyStr.split_on "_" embedding_id) 1 with
       | Some field =>
           match py_int field with
           | Some n => Some (Some n)
           | None => None
           end
       | None => None
       end
  else Some memory_id.

(** [document[:100] + "..." if document and len(document) > 100 else
    document]. *)
Definition preview (document : option string) : option string :=
  match document with
  | Some d =>
      if (100 <? String.length d)%nat
      then Some (substring 0 100 d ++ "...")%string
      else Some d
  | None => None
  end.

Section Search.

(** [round(x, 4)]; the rounding of floats is left open. *)
Variable round4 : Q -> Q.

(** One round of the loop over the hits: the records appended. *)
Definition collect_hit (threshold : Q) (hit : Hit) : list SimilarMemory :=
  let similarity := 1 - hit_distance hit in
  if Qle_bool threshold similarity
  then match resolve_memory_id (hit_metadata hit) (hit_embedding_id hit) with
       | Some memory_id =>
           [mkSimilarMemory memory_id (hit_embedding_id hit)
              (round4 similarity) (round4 (hit_distance hit))
              (preview (hit_document hit)) (hit_metadata hit)]
       | None => []
       end
  else [].

(** - [initialize]: the outcome of making the collection available, which
      happens before the [try];
    - [create_embedding]: the embedding of the query, empty when the model
      fails;
    - [collection_query]: the rows of [collection.query] for an embedding
      and [n_results].
    Whatever raises inside the [try] yields the empty list. *)
Definition search_similar_memories (initialize : result unit)
    (create_embedding : string -> result (list Q))
    (collection_query : list Q -> Z -> result (list Hit))
    (query : string) (limit : Z) (threshold : Q)
    : result (list SimilarMemory) :=
  _ <- initialize ;;
  Ok match create_embedding query with
     | Raise _ => []
     | Ok query_embedding =>
         if is_nil query_embedding then []
         else
           let search_limit := Z.min (limit * 3) 100 in
           match collection_query query_embedding search_limit with
           | Raise _ => []
           | Ok hits =>
               let similar_memories := flat_map (collect_hit threshold) hits in
               slice_to limit (sorted_desc similarity similar_memories)
           end
     end.



End Search.

End EmbeddingProcessor.

(** ** [get_similar_memories] *)



(** * Specification-side definitions *)

(** Best first: every element's key is at least the key of each later one. *)
Definition desc_by {A : Type} (key : A -> Q) : list A -> Prop :=
  StronglySorted (fun a b => key b <= key a).

(** ** The keyword score as the specification words it *)

(** Words that contain the term without being the term. *)
Definition partial_words (term : string) (words : list string) : nat :=
  List.length
    (filter (fun word => PyStr.contains term word && negb (String.eqb word term))
            words).

(** [max(0, 1 - first_occurrence_index / blob_length)] when the term
    occurs, zero when it does not. *)
Definition position_bonus (term blob : string) : Q :=
  match PyStr.find term blob with
  | Some first_occurrence_index =>
      Qmax 0 (1 - Qnat first_occurrence_index / Qnat (String.length blob))
  | None => 0
  end.

Definition term_contribution (blob : string) (term : string) : Q :=
  2 * Qnat (PyStr.count term blob)
  + (1 # 2) * Qnat (partial_words term (PyStr.split blob))
  + position_bonus term blob.

(** [S]: the sum of the contributions of all terms. *)
Definition contribution_sum (blob : string) (terms : list string) : Q :=
  fold_right (fun term acc => term_contribution blob term + acc) 0 terms.

Definition keyword_score_formula (text : string) (terms : list string) : Q :=
  let blob := PyStr.lower text in
  let total_words := List.length (PyStr.split blob) in
  Qmin (contribution_sum blob terms / Qmax (Qnat total_words / 100) 1) 10.

(** ** Ranks and the reciprocal-rank sum *)

Definition has_id (mid : Z) (m : Memory) : bool :=
  match Mem.id m with
  | Some i => (i =? mid)%Z
  | None => false
  end.

(** The ranks, counted from [start], at which the memory [mid] occurs in a
    list that is read best first. *)
Fixpoint ranks_from (start : Z) (mid : Z) (l : list Memory) : list Z :=
  match l with
  | [] => []
  | m :: l' =>
      if has_id mid m then start :: ranks_from (start + 1)%Z mid l'
      else ranks_from (start + 1)%Z mid l'
  end.

Definition occurrence_ranks (mid : Z) (l : list Memory) : list Z :=
  ranks_from 1 mid l.

(** The sum of [1 / (60 + r)] over the ranks [r]. *)
Definition rrf_sum (ranks : list Z) : Q :=
  fold_right (fun r acc => 1 / (60 + inject_Z r) + acc) 0 ranks.

(** The source lists sorted best first. *)
Definition text_content (memory : Memory) : string :=
  (text_or_empty (Mem.processed_text memory) ++ " "
   ++ text_or_empty (Mem.raw_text memory))%string.

Definition keyword_key (query : string) (memory : Memory) : Q :=
  _calculate_keyword_score (text_content memory) (query_terms_of query).

Definition keyword_ranked (query : string) (keyword_results : list Memory)
    : list Memory :=
  sorted_desc (keyword_key query) keyword_results.

Definition similarity_ranked (results : list Memory) : list Memory :=
  sorted_desc similarity_key results.

(** The sum over every (source, occurrence) pair of the memory [mid]. *)
Definition rrf_total (mid : Z) (query : string)
    (keyword_results semantic_results image_results : list Memory) : Q :=
  rrf_sum (occurrence_ranks mid (keyword_ranked query keyword_results))
  + rrf_sum (occurrence_ranks mid (similarity_ranked semantic_results))
  + rrf_sum (occurrence_ranks mid (similarity_ranked image_results)).

(** The ids of the records that carry one. *)
Fixpoint memory_ids (l : list Memory) : list Z :=
  match l with
  | [] => []
  | m :: l' =>
      match Mem.id m with
      | Some i => i :: memory_ids l'
      | None => memory_ids l'
      end
  end.

Definition distinct_ids
    (keyword_results semantic_results image_results : list Memory) : list Z :=
  nodup Z.eq_dec
    (memory_ids (keyword_results ++ semantic_results ++ image_results)).

Definition has_identifier (m : Memory) : Prop := Mem.id m <> None.

(** ** The calls to [_add_rrf], in program order *)

Record Call : Type := mkCall {
  call_memory : Memory;
  call_rank : Z;
  call_source : Source;
  call_field : option ScoreField;
  call_extra : option ExtraFields
}.

Definition add_call (fused : list (Z * Fused)) (c : Call)
    : result (list (Z * Fused)) :=
  _add_rrf fused (call_memory c) (call_rank c) (call_source c) (call_field c)
    (call_extra c).

Definition keyword_call (entry : Z * (Q * Memory)) : Call :=
  let '(rank, (kw_score, memory)) := entry in
  mkCall (Mem.set_keyword_score memory kw_score) rank keyword
    (Some keyword_score_field) None.

Definition semantic_call (entry : Z * Memory) : Call :=
  let '(rank, memory) := entry in
  mkCall memory rank semantic (Some semantic_score_field) None.

Definition image_call (entry : Z * Memory) : Call :=
  let '(rank, memory) := entry in
  mkCall memory rank image (Some image_score_field)
    (Some (mkExtra (Mem.image_path memory) (Mem.filename memory))).

Definition call_update (c : Call) : Fused -> Fused :=
  rrf_update (call_memory c) (call_rank c) (call_source c) (call_field c)
    (call_extra c).

(** What the calls do to the accumulator of one memory id. *)
Definition acc_step (mid : Z) (acc : option Fused) (c : Call) : option Fused :=
  if has_id mid (call_memory c)
  then Some (call_update c (get_default acc (new_fused (call_memory c))))
  else acc.

Definition keys {V : Type} (d : list (Z * V)) : list Z := map fst d.

(** The dict after one call for the memory id [k]. *)
Definition step_dict (d : list (Z * Fused)) (c : Call) (k : Z)
    : list (Z * Fused) :=
  alter (call_update c) k
    (if has_key k d then d else d ++ [(k, new_fused (call_memory c))]).

Definition all_calls (keyword_scored : list (Q * Memory))
    (semantic_sorted image_sorted : list Memory) : list Call :=
  map keyword_call (enumerate 1 keyword_scored)
  ++ map semantic_call (enumerate 1 semantic_sorted)
  ++ map image_call (enumerate 1 image_sorted).

Definition calls_have_ids (calls : list Call) : Prop :=
  Forall (fun c => has_identifier (call_memory c)) calls.

(** The calls made for the memory id [mid]. *)
Definition calls_of (mid : Z) (calls : list Call) : list Call :=
  filter (fun c => has_id mid (call_memory c)) calls.

(** Readings of an accumulator that may not exist yet. *)
Definition acc_hybrid (acc : option Fused) : Q :=
  match acc with Some f => hybrid_score f | None => 0 end.

Definition acc_types (acc : option Fused) : list Source :=
  match acc with Some f => match_types f | None => [] end.

Definition acc_score (field : ScoreField) (acc : option Fused) : Q :=
  match acc with
  | Some f =>
      match field with
      | keyword_score_field => keyword_score f
      | semantic_score_field => semantic_score f
      | image_score_field => image_score f
      end
  | None => 0
  end.

(** The score a call offers to the field [field]: the source-local score of
    the occurrence when the call updates that field. *)
Definition call_score (field : ScoreField) (c : Call) : option Q :=
  match call_field c, field with
  | Some keyword_score_field, keyword_score_field =>
      Some (get_default (Mem.keyword_score (call_memory c)) 0)
  | Some semantic_score_field, semantic_score_field =>
      Some (get_default (Mem.similarity_score (call_memory c)) 0)
  | Some image_score_field, image_score_field =>
      Some (get_default (Mem.similarity_score (call_memory c)) 0)
  | _, _ => None
  end.

(** The largest of [floor] and the scores in [scores]. *)
Definition max_from (floor : Q) (scores : list Q) : Q :=
  fold_left Qmax scores floor.

Fixpoint offered_scores (field : ScoreField) (calls : list Call) : list Q :=
  match calls with
  | [] => []
  | c :: cs =>
      match call_score field c with
      | Some s => s :: offered_scores field cs
      | None => offered_scores field cs
      end
  end.

(** The calls of one run of [_hybrid_rank_results]. *)
Definition fusion_calls (query : string) (kw sem img : list Memory) : list Call :=
  all_calls (_keyword_sorted (query_terms_of query) kw)
    (sorted_desc similarity_key sem) (sorted_desc similarity_key img).

(** The accumulator of the memory [mid] after all calls. *)
Definition accumulator (mid : Z) (query : string) (kw sem img : list Memory)
    : option Fused :=
  fold_left (acc_step mid) (fusion_calls query kw sem img) None.

(** ** Example data *)

(** A stored memory of user 7 with the given id, type tag and text. *)
Definition stored (i : Z) (ty text : string) : Memory :=
  Mem.mk (Some i) (Some 7%Z) (Some ty) (Some text) (Some text) None
    None None None None None.

(** The same record as a semantic or image candidate. *)
Definition candidate (i : Z) (ty text : string) (similarity : Q) : Memory :=
  Mem.mk (Some i) (Some 7%Z) (Some ty) (Some text) (Some text) None
    (Some similarity) None None None None.

(** A record that lacks the [id] key. *)
Definition anonymous (ty text : string) : Memory :=
  Mem.mk None (Some 7%Z) (Some ty) (Some text) (Some text) None
    None None None None None.

Definition M1 : Memory := stored 1 "text" "apple pie recipe".
Definition M2 : Memory := stored 2 "text" "apple orchard".
Definition M2_semantic : Memory := candidate 2 "text" "apple orchard" (9 # 10).
Definition M3_semantic : Memory := candidate 3 "voice" "cider press" (8 # 10).

(** All ranks of the memory [mid], source after source. *)
Definition all_ranks (mid : Z) (query : string)
    (kw sem img : list Memory) : list Z :=
  occurrence_ranks mid (keyword_ranked query kw)
  ++ occurrence_ranks mid (similarity_ranked sem)
  ++ occurrence_ranks mid (similarity_ranked img).

Definition M3_image : Memory := candidate 3 "voice" "cider press" (7 # 10).

(** The occurrences of the memory [mid] in a candidate list. *)
Definition occurrences (mid : Z) (l : list Memory) : list Memory :=
  filter (has_id mid) l.

(** [x] is the largest of zero and the scores in [scores]. *)
Definition max_with_zero (x : Q) (scores : list Q) : Prop :=
  0 <= x
  /\ (forall s, In s scores -> s <= x)
  /\ (x == 0 \/ exists s, In s scores /\ x == s).

(** [x] is the largest of the scores in [scores]. *)
Definition max_of (x : Q) (scores : list Q) : Prop :=
  (forall s, In s scores -> s <= x) /\ exists s, In s scores /\ x == s.

(** Two semantic candidates for memory 2 with negative similarity. *)
Definition far_first : Memory := candidate 2 "text" "apple orchard" (- (1 # 4)).
Definition far_second : Memory := candidate 2 "text" "apple orchard" (- (1 # 2)).

Definition M2_again : Memory := candidate 2 "text" "apple orchard" (6 # 10).

(** ** The candidate lists of one request *)

Definition search_keyword_results (w : World) (search_type : string)
    : list Memory :=
  snd (search_keyword_stage w search_type).

Definition search_semantic_results (w : World) (user_id : Z)
    (search_type : string) : list Memory :=
  snd (search_semantic_stage w user_id search_type).

Definition search_image_results (w : World) (user_id : Z)
    (search_type : string) : list Memory :=
  snd (search_image_stage w user_id search_type).

Definition ask_keyword_results (w : World) (search_type : string)
    : list Memory :=
  snd (ask_keyword_stage w search_type).

Definition ask_semantic_results (w : World) (user_id : Z)
    (search_type : string) : list Memory :=
  snd (ask_semantic_stage w user_id search_type).

Definition ask_image_results (w : World) (user_id : Z)
    (search_type : string) : list Memory :=
  snd (ask_image_stage w user_id search_type).

(** The retrieval calls of a trace. *)
Definition retrievals (tr : list event) : list event := filter is_retrieval tr.

Definition known_search_type (search_type : string) : bool :=
  PyStr.mem search_type ["hybrid"; "keyword"; "semantic"; "image"].

(** A type name as the handlers compare it. *)
Definition normalise (t : string) : string := PyStr.lower (PyStr.strip t).

Definition known_type (t : string) : bool :=
  PyStr.mem (normalise t) allowed_types.

(** The type filter of an [/ask] request names a type outside
    [text], [image], [voice]: [memory_type] when it is given, otherwise a
    non-blank element of [memory_types]. *)
Definition ask_filter_invalid (memory_type : option string)
    (memory_types : option (list string)) : Prop :=
  match memory_type with
  | Some t => known_type t = false
  | None =>
      match memory_types with
      | Some ts =>
          exists t, In t ts /\ PyStr.is_empty (PyStr.strip t) = false
                    /\ known_type t = false
      | None => False
      end
  end.

(** A world in which only the keyword source finds something. *)
Definition keyword_world (found : list Memory) : World :=
  mkWorld (Ok found) (Ok []) (Ok []) (fun _ => Ok None) false (Ok tt) (Ok [])
    (fun _ => Ok "I don't know.").

Definition X_image : Memory := stored 4 "image" "apple logo".

Definition no_identifier (m : Memory) : Prop := Mem.id m = None.

Definition anonymous_apple : Memory := anonymous "text" "apple tart".

Definition ask_apple : AskRequest :=
  mkAskRequest "apple" 8 "keyword" None None.

(** The type tag of a result is one of the selected types. *)
Definition type_allowed (sel : option (list string)) (f : Fused) : Prop :=
  forall types, sel = Some types ->
  exists t, Mem.type (fields f) = Some t /\ PyStr.mem t types = true.

Definition ask_video : AskRequest :=
  mkAskRequest "apple" 8 "hybrid" (Some "video") None.

(** ** Order of first encounter *)

(** The distinct ids of a list, each at the place of its first occurrence. *)
Fixpoint encounter_order (ids : list Z) : list Z :=
  match ids with
  | [] => []
  | i :: rest => i :: filter (fun j => negb (j =? i)%Z) (encounter_order rest)
  end.

(** [x] stands before [y] in [l]. *)
Definition precedes {A : Type} (x y : A) (l : list A) : Prop :=
  exists l1 l2 l3, l = l1 ++ x :: l2 ++ y :: l3.

(** The candidate ids in the order in which the three loops meet them:
    the keyword list, then the semantic list, then the image list, each
    sorted best first. *)
Definition fusion_ids (query : string) (kw sem img : list Memory) : list Z :=
  memory_ids (keyword_ranked query kw ++ similarity_ranked sem
              ++ similarity_ranked img).

(** What one call does to the copied keys of its accumulator. *)
Definition apply_extra (flds : Memory) (c : Call) : Memory :=
  match call_extra c with
  | Some e => Mem.set_image_fields flds (extra_image_path e) (extra_filename e)
  | None => flds
  end.

(** The three candidate lists in the order the loops read them. *)
Definition ranked_candidates (query : string) (kw sem img : list Memory)
    : list Memory :=
  keyword_ranked query kw ++ similarity_ranked sem ++ similarity_ranked img.

(** An image candidate for memory 1 that carries a stored file. *)
Definition M1_image : Memory :=
  Mem.mk (Some 1%Z) (Some 7%Z) (Some "image") (Some "apple pie photo")
    (Some "apple pie photo") (Some "pie.jpg") (Some (7 # 10)) (Some "image")
    (Some "./stored_images/pie.jpg") (Some "pie.jpg") None.

(** A string of whitespace only, the empty string included. *)
Fixpoint blank (s : string) : Prop :=
  match s with
  | EmptyString => True
  | String c s' => PyStr.is_space c = true /\ blank s'
  end.

Definition owner_is (user_id : Z) (m : Memory) : Prop :=
  Mem.user_id m = Some user_id.

(** A world with one semantic match and one image match for stored rows of
    two users. *)
Definition row_of (i : Z) : result (option Memory) :=
  if (i =? 1)%Z then Ok (Some M1)
  else if (i =? 5)%Z
       then Ok (Some (Mem.mk (Some 5%Z) (Some 8%Z) (Some "text")
                        (Some "apple strudel") (Some "apple strudel") None
                        None None None None None))
       else if (i =? 6)%Z then Raise (OtherError "connection lost")
            else Ok None.

Definition mixed_world : World :=
  mkWorld (Ok [M2])
    (Ok [])
    (Ok [mkSemanticMatch 6 (9 # 10); mkSemanticMatch 5 (9 # 10);
         mkSemanticMatch 1 (8 # 10)])
    row_of true (Ok tt)
    (Ok [mkImageMatch 1 (2 # 10) (Some "./stored_images/pie.jpg")
           (Some "pie.jpg")])
    (fun _ => Ok "I don't know.").

(** A world in which every source fails. *)
Definition broken_world : World :=
  mkWorld (Raise (OtherError "postgres down")) (Raise (OtherError "postgres down"))
    (Raise (OtherError "chroma down")) (fun _ => Raise (OtherError "postgres down"))
    true (Raise (OtherError "clip down")) (Ok [])
    (fun _ => Ok "I don't know.").

(** The image stage cannot produce a row list: there is no collection, or
    the encoder or the query raises. *)
Definition image_source_fails (w : World) : Prop :=
  image_collection w = false
  \/ (exists e, encode_text w = Raise e)
  \/ (exists e, image_collection_query w = Raise e).

(** The URL that step 6 gives to a result, read off its copied keys. *)
Definition expected_image_url (m : Memory) : option string :=
  match Mem.type m, Mem.metadata_filename m with
  | Some t, Some fname =>
      if String.eqb t "image" && negb (PyStr.is_empty fname)
      then Some ("/api/v1/images/" ++ fname)%string
      else None
  | _, _ => None
  end.

Definition no_image_url (acc : option Fused) : Prop :=
  match acc with
  | Some f => image_url f = None
  | None => True
  end.

(** A stored image memory with a file name in its metadata. *)
Definition stored_photo : Memory :=
  Mem.mk (Some 9%Z) (Some 7%Z) (Some "image") (Some "apple tree photo")
    (Some "apple tree photo") (Some "tree.jpg") None None None None None.

Definition semantic_event (e : event) : bool :=
  match e with
  | CallSemanticSearch | CallGetMemory _ => true
  | _ => false
  end.

Definition image_event (e : event) : bool :=
  match e with
  | CallEncodeText | CallImageQuery | CallGetMemory _ => true
  | _ => false
  end.

Definition search_event (e : event) : bool :=
  match e with
  | CallBasicSearch | CallGroq => false
  | _ => true
  end.

Definition ask_blank : AskRequest :=
  mkAskRequest "   " 8 "hybrid" (Some "video") None.

(** ** The timeline, specification side *)

Definition group_lookup (key : string) (groups : list (string * TimelineGroup))
    : option TimelineGroup :=
  match find (fun kg => String.eqb key (fst kg)) groups with
  | Some kg => Some (snd kg)
  | None => None
  end.

(** The rows of one period, in the order of the query. *)
Definition rows_of_period {cal : Calendar} (timeframe key : string)
    (rows : list (TimelineRow cal)) : list (TimelineRow cal) :=
  filter (fun row => String.eqb (period_key cal timeframe (tl_timestamp row)) key)
    rows.

Definition total_count (groups : list TimelineSummary) : nat :=
  fold_right (fun g n => (ts_count g + n)%nat) 0%nat groups.

(** Newest period first. *)
Definition newest_first (groups : list TimelineSummary) : Prop :=
  StronglySorted (fun a b => String.leb (ts_start b) (ts_start a) = true) groups.

(** A calendar for the examples: a timestamp is an ISO date, a period
    its year and month, and every month is given thirty days. *)
Definition month_calendar : Calendar :=
  mkCalendar string
    (fun _ ts => substring 0 7 ts)
    (fun _ ts => (substring 0 7 ts ++ "-01")%string)
    (fun _ ts => (substring 0 7 ts ++ "-30")%string)
    (fun ts => ts).

Definition diary_rows : list (TimelineRow month_calendar) :=
  [mkTimelineRow month_calendar M1 "2024-03-15" [Some (3 # 10)];
   mkTimelineRow month_calendar M2 "2024-04-02" [None; Some (- (1 # 2))];
   mkTimelineRow month_calendar stored_photo "2024-03-01" [Some (9 # 10)]].

(** Every group of the response holds exactly the entries of the rows of
    its period. *)
Definition holds_period_rows {cal : Calendar} (timeframe : string)
    (rows : list (TimelineRow cal)) (g : TimelineSummary) : Prop :=
  ts_memories g = map mem_entry (rows_of_period timeframe (ts_period g) rows)
  /\ ts_count g = List.length (ts_memories g)
  /\ ts_memories g <> [].

(** The highlights of a group: members with the largest and the smallest
    sentiment score. *)
Definition highlights_extremal (g : TimelineSummary) : Prop :=
  In (ts_top_positive g) (ts_memories g)
  /\ In (ts_top_negative g) (ts_memories g)
  /\ forall e, In e (ts_memories g) ->
       te_sentiment_score (ts_top_negative g) <= te_sentiment_score e
       /\ te_sentiment_score e <= te_sentiment_score (ts_top_positive g).

(** The groups of the response before the sort. *)
Definition summary_groups {cal : Calendar} (timeframe : string)
    (rows : list (TimelineRow cal)) : list TimelineSummary :=
  flat_map (fun kg => summarise (snd kg)) (timeline_groups timeframe rows).

(** The first day of a group is the first day of the period of one of
    its rows. *)
Definition starts_with_row {cal : Calendar} (timeframe : string)
    (rows : list (TimelineRow cal)) (g : TimelineSummary) : Prop :=
  exists row, In row rows
    /\ period_key cal timeframe (tl_timestamp row) = ts_period g
    /\ ts_start g = period_start cal timeframe (tl_timestamp row).

(** ** The keyword statement, specification side *)

(** The terms of a query, as [advanced_search_memories] takes them. *)
Definition search_terms (query : string) : list string :=
  PyStr.split (PyStr.lower query).

Definition term_pattern (term : string) : SqlParam :=
  PText ("%" ++ term ++ "%")%string.

Definition user_params (user_id : option Z) : list SqlParam :=
  match user_id with
  | Some uid => [PInt uid]
  | None => []
  end.

Definition given {A : Type} (o : option A) : bool :=
  match o with Some _ => true | None => false end.

(** The conditions for [n] terms, the first bound to parameter [first]. *)
Definition numbered_conditions (first n : nat) : list string :=
  map (fun i => PostgreSQLConnector.search_condition (Z.of_nat i)) (seq first n).

Definition expected_where (scoped : bool) (conditions : list string) : string :=
  match scoped, conditions with
  | true, [] => "WHERE m.user_id = $1"
  | true, _ =>
      "WHERE m.user_id = $1 AND (" ++ String.concat " OR " conditions ++ ")"
  | false, [] => ""
  | false, _ => "WHERE (" ++ String.concat " OR " conditions ++ ")"
  end%string.

(** The statement for [terms] terms, with or without the user filter. *)
Definition statement_text (scoped : bool) (terms : nat) : string :=
  let offset := if scoped then 1%nat else 0%nat in
  (PostgreSQLConnector.sql_head
   ++ expected_where scoped (numbered_conditions (offset + 1) terms)
   ++ PostgreSQLConnector.sql_middle
   ++ PostgreSQLConnector.placeholder (Z.of_nat (offset + terms + 1))
   ++ PostgreSQLConnector.sql_tail)%string.

Definition statement_params (query : string) (limit : Z) (user_id : option Z)
    : list SqlParam :=
  user_params user_id ++ map term_pattern (search_terms query) ++ [PInt limit].

(** ** The semantic search, specification side *)

Fixpoint all_chars (P : ascii -> bool) (s : string) : bool :=
  match s with
  | EmptyString => true
  | String c s' => P c && all_chars P s'
  end.

(** A decimal digit or the minus sign. *)
Definition numeric (c : ascii) : bool :=
  let n := nat_of_ascii c in
  ((48 <=? n) && (n <=? 57))%nat || (n =? 45)%nat.

(** A hit passes the threshold. *)
Definition qualifies (threshold : Q) (hit : EmbeddingProcessor.Hit) : Prop :=
  threshold <= 1 - EmbeddingProcessor.hit_distance hit.

(** The record returned for a hit. *)
Definition item_of_hit (round4 : Q -> Q) (hit : EmbeddingProcessor.Hit)
    (item : EmbeddingProcessor.SimilarMemory) : Prop :=
  EmbeddingProcessor.resolve_memory_id (EmbeddingProcessor.hit_metadata hit)
    (EmbeddingProcessor.hit_embedding_id hit)
  = Some (EmbeddingProcessor.memory_id item)
  /\ EmbeddingProcessor.embedding_id item = EmbeddingProcessor.hit_embedding_id hit
  /\ EmbeddingProcessor.similarity item
     = round4 (1 - EmbeddingProcessor.hit_distance hit)
  /\ EmbeddingProcessor.distance item
     = round4 (EmbeddingProcessor.hit_distance hit)
  /\ EmbeddingProcessor.metadata item = EmbeddingProcessor.hit_metadata hit.

(** A rounding to four decimals for the examples. *)
Definition round4_half_up (q : Q) : Q :=
  Qred (Qfloor (q * 10000 + (1 # 2)) # 10000).

(** Three hits: one filed without its memory id, one too far away, and one
    whose id names no memory. *)
Definition example_hits : list EmbeddingProcessor.Hit :=
  [EmbeddingProcessor.mkHit (EmbeddingProcessor.embedding_id_of 12 "9f3a_7c21")
     (2 # 5) (EmbeddingProcessor.mkMetadata None) (Some "apple pie"%string);
   EmbeddingProcessor.mkHit (EmbeddingProcessor.embedding_id_of 13 "00000000")
     (9 # 10) (EmbeddingProcessor.mkMetadata (Some 13%Z)) None;
   EmbeddingProcessor.mkHit "legacy"%string
     (1 # 10) (EmbeddingProcessor.mkMetadata (Some 0%Z)) None;
   EmbeddingProcessor.mkHit (EmbeddingProcessor.embedding_id_of 14 "abcdef01")
     (1 # 4) (EmbeddingProcessor.mkMetadata (Some 14%Z)) None].

Definition example_search (limit : Z)
    : result (list EmbeddingProcessor.SimilarMemory) :=
  EmbeddingProcessor.search_similar_memories round4_half_up (Ok tt)
    (fun _ => Ok [1; 0]) (fun _ _ => Ok example_hits) "apple"%string limit
    (45 # 100).

(** * Properties *)

(** ** Sorting and slicing *)

Lemma firstn_incl {A : Type} (n : nat) (l : list A) (x : A) :
  In x (firstn n l) -> In x l.
Proof.
  revert n. induction l as [|y l IH]; intros [|n]; simpl; try tauto.
  intros [H|H]; [now left|right; eauto].
Qed.

Section SortedFacts.

Context {A : Type} (key : A -> Q).

Lemma insert_desc_perm (x : A) (l : list A) :
  Permutation (insert_desc key x l) (x :: l).
Proof.
  induction l as [|y l IH]; simpl; [reflexivity|].
  destruct (Qle_bool (key y) (key x)); [reflexivity|].
  rewrite IH. apply perm_swap.
Qed.

Lemma sorted_desc_perm (l : list A) : Permutation (sorted_desc key l) l.
Proof.
  induction l as [|x l IH]; simpl; [constructor|].
  rewrite insert_desc_perm. now constructor.
Qed.

Lemma sorted_desc_length (l : list A) :
  List.length (sorted_desc key l) = List.length l.
Proof. apply Permutation_length, sorted_desc_perm. Qed.

Lemma sorted_desc_in (l : list A) (x : A) :
  In x (sorted_desc key l) <-> In x l.
Proof.
  split; apply Permutation_in; [|symmetry]; apply sorted_desc_perm.
Qed.

Lemma insert_desc_sorted (x : A) (l : list A) :
  desc_by key l -> desc_by key (insert_desc key x l).
Proof.
  unfold desc_by. induction 1 as [|y l Hl IH Hy]; simpl.
  - repeat constructor.
  - destruct (Qle_bool (key y) (key x)) eqn:E.
    + apply Qle_bool_iff in E. constructor.
      * now constructor.
      * constructor; [exact E|].
        rewrite Forall_forall in *. intros z Hz.
        apply Qle_trans with (key y); auto.
    + constructor; [exact IH|].
      assert (Hxy : key x <= key y).
      { destruct (Qlt_le_dec (key x) (key y)) as [H|H].
        - now apply Qlt_le_weak.
        - apply Qle_bool_iff in H. congruence. }
      rewrite Forall_forall in *. intros z Hz.
      apply (Permutation_in _ (insert_desc_perm x l)) in Hz.
      destruct Hz as [<-|Hz]; auto.
Qed.

Lemma sorted_desc_sorted (l : list A) : desc_by key (sorted_desc key l).
Proof.
  induction l as [|x l IH]; simpl.
  - constructor.
  - now apply insert_desc_sorted.
Qed.

(** Stability: the elements of any one key keep their relative order. *)
Lemma insert_desc_stable (q : Q) (x : A) (l : list A) :
  filter (fun a => Qeq_bool (key a) q) (insert_desc key x l)
  = filter (fun a => Qeq_bool (key a) q) (x :: l).
Proof.
  induction l as [|y l IH]; [reflexivity|].
  simpl insert_desc. destruct (Qle_bool (key y) (key x)) eqn:E; [reflexivity|].
  change (filter ?f (y :: ?t)) with (if f y then y :: filter f t else filter f t).
  rewrite IH. simpl.
  destruct (Qeq_bool (key x) q) eqn:Ex, (Qeq_bool (key y) q) eqn:Ey;
    try reflexivity.
  apply Qeq_bool_iff in Ex, Ey.
  assert (H : key y <= key x) by (rewrite Ex, Ey; apply Qle_refl).
  apply Qle_bool_iff in H. congruence.
Qed.

Lemma sorted_desc_stable (q : Q) (l : list A) :
  filter (fun a => Qeq_bool (key a) q) (sorted_desc key l)
  = filter (fun a => Qeq_bool (key a) q) l.
Proof.
  induction l as [|x l IH]; [reflexivity|].
  simpl sorted_desc. rewrite insert_desc_stable. simpl. now rewrite IH.
Qed.

Lemma desc_by_firstn (n : nat) (l : list A) : desc_by key l -> desc_by key (firstn n l).
Proof.
  unfold desc_by. intros H. revert n.
  induction H as [|x l Hl IH Hx]; intros [|n]; simpl; try constructor.
  - apply IH.
  - rewrite Forall_forall in *. intros y Hy. apply Hx.
    eapply firstn_incl. exact Hy.
Qed.

Lemma desc_by_split (l1 l2 : list A) :
  desc_by key (l1 ++ l2) ->
  forall a b, In a l1 -> In b l2 -> key b <= key a.
Proof.
  unfold desc_by. induction l1 as [|x l1 IH]; simpl; intros H a b Ha Hb.
  - contradiction.
  - inversion H as [|? ? Hs Hx]; subst. destruct Ha as [<-|Ha].
    + rewrite Forall_forall in Hx. apply Hx, in_or_app. now right.
    + now apply IH.
Qed.

End SortedFacts.

(** ** Keyword scorer *)

Lemma Qnat_nonneg (n : nat) : 0 <= Qnat n.
Proof.
  unfold Qnat. change 0 with (inject_Z 0). rewrite <- Zle_Qle. lia.
Qed.

Lemma position_bonus_nonneg (term blob : string) : 0 <= position_bonus term blob.
Proof.
  unfold position_bonus. destruct (PyStr.find term blob).
  - apply Q.le_max_l.
  - apply Qle_refl.
Qed.

Lemma term_contribution_nonneg (blob term : string) :
  0 <= term_contribution blob term.
Proof.
  unfold term_contribution.
  pose proof (Qnat_nonneg (PyStr.count term blob)).
  pose proof (Qnat_nonneg (partial_words term (PyStr.split blob))).
  pose proof (position_bonus_nonneg term blob).
  lra.
Qed.

Lemma contribution_sum_nonneg (blob : string) (terms : list string) :
  0 <= contribution_sum blob terms.
Proof.
  induction terms as [|t ts IH]; simpl.
  - apply Qle_refl.
  - pose proof (term_contribution_nonneg blob t). lra.
Qed.

(** One iteration of the loop adds the term's contribution. *)
Lemma score_term_contribution (blob : string) (score : Q) (term : string) :
  score_term blob (PyStr.split blob) score term
  == score + term_contribution blob term.
Proof.
  unfold score_term, term_contribution, position_bonus, partial_words.
  destruct (PyStr.find term blob); simpl; ring.
Qed.

Lemma score_loop_sum (blob : string) (terms : list string) (score : Q) :
  fold_left (score_term blob (PyStr.split blob)) terms score
  == score + contribution_sum blob terms.
Proof.
  revert score. induction terms as [|t ts IH]; intros score; simpl.
  - ring.
  - rewrite IH, score_term_contribution. ring.
Qed.

Lemma normaliser_pos (n : nat) : 0 < Qmax (Qnat n / 100) 1.
Proof.
  apply Qlt_le_trans with 1; [reflexivity | apply Q.le_max_r].
Qed.

Lemma keyword_score_nonempty (text : string) (terms : list string) :
  text <> EmptyString -> terms <> [] ->
  _calculate_keyword_score text terms == keyword_score_formula text terms.
Proof.
  intros Ht Hq. unfold _calculate_keyword_score, keyword_score_formula.
  destruct text; [congruence|]. destruct terms; [congruence|].
  cbv beta iota zeta delta [PyStr.is_empty orb].
  rewrite score_loop_sum.
  apply Q.min_compat; [|reflexivity].
  apply Qdiv_comp; [ring | reflexivity].
Qed.

Lemma keyword_score_range (text : string) (terms : list string) :
  0 <= _calculate_keyword_score text terms <= 10.
Proof.
  unfold _calculate_keyword_score.
  destruct (PyStr.is_empty text || _)%bool.
  - split; [apply Qle_refl | discriminate].
  - cbv zeta. split; [|apply Q.le_min_r].
    apply Q.min_glb; [|discriminate].
    rewrite score_loop_sum.
    apply Qle_shift_div_l; [apply normaliser_pos|].
    pose proof (contribution_sum_nonneg (PyStr.lower text) terms). lra.
Qed.

(** C3. [_calculate_keyword_score] returns
    [min(S / max(total_words / 100, 1), 10)] for a non-empty blob and a
    non-empty term set, where [S] sums over the terms twice the [str.count]
    occurrences (counted left to right without overlap), half the number of
    words that contain the term without being it, and the position bonus;
    it returns 0 for an empty blob or an empty term set; the result always
    lies between 0 and 10. *)
Theorem calculate_keyword_score_spec (text : string) (terms : list string) :
  (text <> EmptyString -> terms <> [] ->
   _calculate_keyword_score text terms
   == Qmin (contribution_sum (PyStr.lower text) terms
            / Qmax (Qnat (List.length (PyStr.split (PyStr.lower text))) / 100) 1)
           10)
  /\ (text = EmptyString \/ terms = [] ->
      _calculate_keyword_score text terms = 0)
  /\ 0 <= _calculate_keyword_score text terms <= 10.
Proof.
  split; [|split].
  - apply keyword_score_nonempty.
  - intros [-> | ->]; [reflexivity|].
    unfold _calculate_keyword_score. now rewrite orb_true_r.
  - apply keyword_score_range.
Qed.

(** The scorer at ["Hello world wide"] with the terms [wor] and [ld]:
    both branches of the statement at concrete inputs. *)
Lemma calculate_keyword_score_spec_witness :
  _calculate_keyword_score "Hello world wide" ["wor"; "ld"] == 97 # 16
  /\ _calculate_keyword_score "" ["x"] = 0.
Proof.
  destruct (calculate_keyword_score_spec "Hello world wide" ["wor"; "ld"])
    as [Hformula _].
  destruct (calculate_keyword_score_spec "" ["x"]) as [_ [Hempty _]].
  split.
  - rewrite Hformula by discriminate. vm_compute. reflexivity.
  - apply Hempty. now left.
Defined.

(** ** Dict operations *)

Section DictFacts.

Context {V : Type}.
Implicit Types (d : list (Z * V)) (k : Z).

Lemma has_key_in k d : has_key k d = true <-> In k (keys d).
Proof.
  induction d as [|[k' v] d IH]; simpl.
  - split; [discriminate | contradiction].
  - rewrite orb_true_iff, IH, Z.eqb_eq. intuition.
Qed.

Lemma lookup_none k d : lookup k d = None <-> ~ In k (keys d).
Proof.
  induction d as [|[k' v] d IH]; simpl.
  - tauto.
  - destruct (Z.eqb_spec k k') as [->|Hne].
    + split; [discriminate | intros H; exfalso; apply H; now left].
    + rewrite IH. intuition.
Qed.

Lemma lookup_app k d d' :
  lookup k (d ++ d') =
  match lookup k d with Some v => Some v | None => lookup k d' end.
Proof.
  induction d as [|[k' v] d IH]; simpl; [reflexivity|].
  now destruct (k =? k')%Z.
Qed.

Lemma keys_alter f k d : keys (alter f k d) = keys d.
Proof.
  induction d as [|[k' v] d IH]; simpl; [reflexivity|].
  destruct (k =? k')%Z; simpl; [reflexivity | now rewrite IH].
Qed.

Lemma lookup_alter f k k' d :
  lookup k' (alter f k d) =
  if (k' =? k)%Z then option_map f (lookup k d) else lookup k' d.
Proof.
  induction d as [|[k0 v] d IH]; simpl.
  - now destruct (k' =? k)%Z.
  - destruct (Z.eqb_spec k k0) as [->|Hne]; simpl.
    + destruct (Z.eqb_spec k' k0); reflexivity.
    + rewrite IH. destruct (Z.eqb_spec k' k) as [->|Hne'].
      * destruct (Z.eqb_spec k k0); [contradiction | reflexivity].
      * reflexivity.
Qed.

Lemma lookup_in k v d : NoDup (keys d) -> In (k, v) d -> lookup k d = Some v.
Proof.
  induction d as [|[k' v'] d IH]; simpl; [contradiction|].
  intros Hnd [Heq|Hin].
  - inversion Heq; subst. now rewrite Z.eqb_refl.
  - inversion Hnd as [|? ? Hnotin Hnd']; subst.
    destruct (Z.eqb_spec k k') as [->|Hne]; [|auto].
    exfalso. apply Hnotin. change k' with (fst (k', v)).
    now apply in_map.
Qed.

Lemma in_lookup k v d : lookup k d = Some v -> In (k, v) d.
Proof.
  induction d as [|[k' v'] d IH]; simpl; [discriminate|].
  destruct (Z.eqb_spec k k') as [->|Hne].
  - intros [= ->]. now left.
  - auto.
Qed.

End DictFacts.

(** ** The accumulator loop *)

Lemma for_each_app {A S : Type} (body : S -> A -> result S) (l1 l2 : list A)
    (s : S) :
  for_each body (l1 ++ l2) s = (s' <- for_each body l1 s ;; for_each body l2 s').
Proof.
  revert s. induction l1 as [|x l1 IH]; intros s; simpl; [reflexivity|].
  destruct (body s x); simpl; [apply IH | reflexivity].
Qed.

Lemma for_each_map {A B S : Type} (f : A -> B) (body : S -> B -> result S)
    (l : list A) (s : S) :
  for_each body (map f l) s = for_each (fun s a => body s (f a)) l s.
Proof.
  revert s. induction l as [|x l IH]; intros s; simpl; [reflexivity|].
  destruct (body s (f x)); simpl; [apply IH | reflexivity].
Qed.

Lemma for_each_ext {A S : Type} (body body' : S -> A -> result S)
    (l : list A) (s : S) :
  (forall s a, body s a = body' s a) ->
  for_each body l s = for_each body' l s.
Proof.
  intros H. revert s. induction l as [|x l IH]; intros s; simpl; [reflexivity|].
  rewrite H. destruct (body' s x); simpl; [apply IH | reflexivity].
Qed.

Lemma add_call_eq (d : list (Z * Fused)) (c : Call) :
  add_call d c =
  match Mem.id (call_memory c) with
  | Some k => Ok (step_dict d c k)
  | None => Raise (KeyError "id")
  end.
Proof. reflexivity. Qed.

Lemma keyword_loop_calls (d : list (Z * Fused)) (scored : list (Q * Memory)) :
  keyword_loop d scored
  = for_each add_call (map keyword_call (enumerate 1 scored)) d.
Proof.
  unfold keyword_loop. rewrite for_each_map. apply for_each_ext.
  intros s [rank [kw m]]. reflexivity.
Qed.

Lemma semantic_loop_calls (d : list (Z * Fused)) (l : list Memory) :
  semantic_loop d l = for_each add_call (map semantic_call (enumerate 1 l)) d.
Proof.
  unfold semantic_loop. rewrite for_each_map. apply for_each_ext.
  intros s [rank m]. reflexivity.
Qed.

Lemma image_loop_calls (d : list (Z * Fused)) (l : list Memory) :
  image_loop d l = for_each add_call (map image_call (enumerate 1 l)) d.
Proof.
  unfold image_loop. rewrite for_each_map. apply for_each_ext.
  intros s [rank m]. reflexivity.
Qed.

(** The three loops are one pass over all calls. *)
Lemma hybrid_rank_results_calls (kw sem img : list Memory) (query : string)
    (limit : Z) :
  _hybrid_rank_results kw sem img query limit =
  (fused <- for_each add_call
              (all_calls (_keyword_sorted (query_terms_of query) kw)
                 (sorted_desc similarity_key sem)
                 (sorted_desc similarity_key img)) [] ;;
   Ok (slice_to limit (sorted_desc hybrid_score (values fused)))).
Proof.
  unfold _hybrid_rank_results, all_calls.
  rewrite keyword_loop_calls, for_each_app.
  destruct (for_each add_call _ []) as [d1|e]; simpl; [|reflexivity].
  rewrite semantic_loop_calls, for_each_app.
  destruct (for_each add_call _ d1) as [d2|e]; simpl; [|reflexivity].
  now rewrite image_loop_calls.
Qed.

Lemma step_dict_lookup (d : list (Z * Fused)) (c : Call) (k k' : Z) :
  lookup k' (step_dict d c k) =
  if (k' =? k)%Z
  then Some (call_update c (get_default (lookup k d) (new_fused (call_memory c))))
  else lookup k' d.
Proof.
  unfold step_dict. rewrite lookup_alter.
  destruct (has_key k d) eqn:Hk.
  - destruct (k' =? k)%Z; [|reflexivity].
    destruct (lookup k d) eqn:Hl; [reflexivity|].
    apply lookup_none in Hl. apply has_key_in in Hk. contradiction.
  - assert (Hl : lookup k d = None).
    { apply lookup_none. intros Hin. apply has_key_in in Hin. congruence. }
    rewrite !lookup_app, Hl. simpl. rewrite Z.eqb_refl.
    destruct (Z.eqb_spec k' k) as [->|Hne]; [reflexivity|].
    destruct (lookup k' d); [reflexivity|].
    destruct (Z.eqb_spec k' k); [contradiction | reflexivity].
Qed.

Lemma step_dict_keys (d : list (Z * Fused)) (c : Call) (k : Z) :
  keys (step_dict d c k) = if has_key k d then keys d else keys d ++ [k].
Proof.
  unfold step_dict. rewrite keys_alter.
  destruct (has_key k d); [reflexivity|].
  unfold keys. now rewrite map_app.
Qed.

Lemma acc_step_id (c : Call) (k k' : Z) (acc : option Fused) :
  Mem.id (call_memory c) = Some k ->
  acc_step k' acc c =
  if (k' =? k)%Z
  then Some (call_update c (get_default acc (new_fused (call_memory c))))
  else acc.
Proof.
  intros Hid. unfold acc_step, has_id. rewrite Hid, Z.eqb_sym. reflexivity.
Qed.

(** When every call carries an id the pass returns a dict: per key it is
    the fold of the calls for that key, and the keys are the old ones
    followed by the new ids. *)
Lemma run_calls_ok (calls : list Call) (d : list (Z * Fused)) :
  calls_have_ids calls ->
  exists d',
    for_each add_call calls d = Ok d'
    /\ (forall k, lookup k d' = fold_left (acc_step k) calls (lookup k d))
    /\ (NoDup (keys d) -> NoDup (keys d'))
    /\ (forall k, In k (keys d') <->
                  In k (keys d) \/ In k (memory_ids (map call_memory calls))).
Proof.
  intros H. revert d. induction H as [|c calls Hc Hcs IH]; intros d.
  - exists d. simpl. repeat split; auto. tauto.
  - unfold has_identifier in Hc.
    destruct (Mem.id (call_memory c)) as [k|] eqn:Hid; [|congruence].
    destruct (IH (step_dict d c k)) as (d' & Hrun & Hlook & Hnd & Hkeys).
    exists d'. simpl. rewrite add_call_eq, Hid. simpl.
    split; [exact Hrun|]. split; [|split].
    + intros k'. rewrite Hlook, step_dict_lookup, (acc_step_id c k k' _ Hid).
      destruct (Z.eqb_spec k' k) as [->|]; reflexivity.
    + intros Hd. apply Hnd. rewrite step_dict_keys.
      destruct (has_key k d) eqn:Hk; [exact Hd|].
      apply NoDup_app; [exact Hd | repeat constructor; simpl; tauto |].
      intros x Hx [<-|[]]. apply has_key_in in Hx. congruence.
    + intros k'. rewrite Hkeys, step_dict_keys. simpl.
      destruct (has_key k d) eqn:Hk.
      * apply has_key_in in Hk. intuition (subst; auto).
      * rewrite in_app_iff. simpl. intuition (subst; auto).
Qed.

(** A call without id makes the pass raise [KeyError]. *)
Lemma run_calls_raise (calls : list Call) (d : list (Z * Fused)) :
  Exists (fun c => Mem.id (call_memory c) = None) calls ->
  for_each add_call calls d = Raise (KeyError "id").
Proof.
  intros H. revert d. induction H as [c calls Hc|c calls Hcs IH]; intros d.
  - simpl. now rewrite add_call_eq, Hc.
  - simpl. rewrite add_call_eq.
    destruct (Mem.id (call_memory c)); simpl; [apply IH | reflexivity].
Qed.

(** ** What one accumulator holds *)

Lemma acc_fold_cons (k : Z) (c : Call) (calls : list Call) (acc : option Fused) :
  fold_left (acc_step k) (c :: calls) acc
  = fold_left (acc_step k) calls (acc_step k acc c).
Proof. reflexivity. Qed.

Lemma acc_step_hybrid (k : Z) (acc : option Fused) (c : Call) :
  acc_hybrid (acc_step k acc c)
  == acc_hybrid acc
     + (if has_id k (call_memory c) then 1 / (60 + inject_Z (call_rank c)) else 0).
Proof.
  unfold acc_step. destruct (has_id k (call_memory c)).
  - destruct acc; simpl; unfold rrf_k; ring.
  - ring.
Qed.

Lemma acc_fold_hybrid (k : Z) (calls : list Call) (acc : option Fused) :
  acc_hybrid (fold_left (acc_step k) calls acc)
  == acc_hybrid acc + rrf_sum (map call_rank (calls_of k calls)).
Proof.
  revert acc. induction calls as [|c calls IH]; intros acc.
  - simpl. ring.
  - rewrite acc_fold_cons, IH, acc_step_hybrid. simpl.
    destruct (has_id k (call_memory c)); simpl; ring.
Qed.

Lemma acc_fold_types (k : Z) (calls : list Call) (acc : option Fused) :
  acc_types (fold_left (acc_step k) calls acc)
  = acc_types acc ++ map call_source (calls_of k calls).
Proof.
  revert acc. induction calls as [|c calls IH]; intros acc.
  - simpl. now rewrite app_nil_r.
  - rewrite acc_fold_cons, IH. unfold acc_step. simpl.
    destruct (has_id k (call_memory c)); [|reflexivity].
    destruct acc; simpl; now rewrite <- ?app_assoc.
Qed.

Lemma acc_step_score (field : ScoreField) (k : Z) (acc : option Fused) (c : Call) :
  acc_score field (acc_step k acc c) =
  if has_id k (call_memory c)
  then match call_score field c with
       | Some s => Qmax (acc_score field acc) s
       | None => acc_score field acc
       end
  else acc_score field acc.
Proof.
  unfold acc_step, call_score, call_update, rrf_update.
  destruct c as [m r src fld ex]. simpl.
  destruct (has_id k m); [|reflexivity].
  destruct acc as [f|], field, fld as [[]|]; reflexivity.
Qed.

Lemma acc_fold_score (field : ScoreField) (k : Z) (calls : list Call)
    (acc : option Fused) :
  acc_score field (fold_left (acc_step k) calls acc)
  = max_from (acc_score field acc) (offered_scores field (calls_of k calls)).
Proof.
  revert acc. induction calls as [|c calls IH]; intros acc; [reflexivity|].
  rewrite acc_fold_cons, IH, acc_step_score. simpl.
  destruct (has_id k (call_memory c)); [|reflexivity].
  simpl. destruct (call_score field c); reflexivity.
Qed.

(** An accumulator exists exactly when a call was made for its id. *)
Lemma acc_fold_some (k : Z) (calls : list Call) :
  (exists f, fold_left (acc_step k) calls None = Some f)
  <-> calls_of k calls <> [].
Proof.
  assert (Hsome : forall cs f, exists f',
             fold_left (acc_step k) cs (Some f) = Some f').
  { induction cs as [|c cs IH]; intros f; simpl; [eauto|].
    unfold acc_step at 2. destruct (has_id k (call_memory c)); apply IH. }
  induction calls as [|c calls IH]; simpl.
  - split; [intros [f Hf]; discriminate | congruence].
  - unfold acc_step at 2. destruct (has_id k (call_memory c)).
    + split; [discriminate | intros _; apply Hsome].
    + exact IH.
Qed.

(** The copied keys: the identity and the type tag of a result are those
    of an occurrence of its id. *)
Lemma rrf_update_identity (c : Call) (f : Fused) :
  Mem.id (fields (call_update c f)) = Mem.id (fields f)
  /\ Mem.type (fields (call_update c f)) = Mem.type (fields f).
Proof.
  unfold call_update, rrf_update. simpl. destruct (call_extra c); auto.
Qed.

Lemma acc_fold_identity (k : Z) (calls : list Call) (acc : option Fused)
    (f : Fused) :
  fold_left (acc_step k) calls acc = Some f ->
  (exists f0, acc = Some f0
              /\ Mem.id (fields f) = Mem.id (fields f0)
              /\ Mem.type (fields f) = Mem.type (fields f0))
  \/ (acc = None
      /\ exists c, In c calls /\ has_id k (call_memory c) = true
                   /\ Mem.id (fields f) = Mem.id (call_memory c)
                   /\ Mem.type (fields f) = Mem.type (call_memory c)).
Proof.
  revert acc. induction calls as [|c calls IH]; intros acc Hf.
  - simpl in Hf. subst. left. eauto.
  - rewrite acc_fold_cons in Hf. apply IH in Hf.
    unfold acc_step in Hf. destruct (has_id k (call_memory c)) eqn:Hk.
    + destruct Hf as [(f0 & [= <-] & Hi & Ht)|[Hn _]]; [|discriminate].
      destruct (rrf_update_identity c (get_default acc (new_fused (call_memory c))))
        as [Hi' Ht'].
      rewrite Hi' in Hi. rewrite Ht' in Ht.
      destruct acc as [f1|]; simpl in *.
      * left. eauto.
      * right. split; [reflexivity|]. exists c. simpl. auto.
    + destruct Hf as [Hf|[Hn (c' & Hin & Hc')]]; [now left|].
      right. split; [exact Hn|]. exists c'. simpl. auto.
Qed.

(** ** From calls to ranks *)

Lemma sorted_desc_decorated {A : Type} (f : A -> Q) (l : list A) :
  sorted_desc fst (map (fun a => (f a, a)) l)
  = map (fun a => (f a, a)) (sorted_desc f l).
Proof.
  induction l as [|x l IH]; [reflexivity|].
  simpl. rewrite IH. generalize (sorted_desc f l) as s.
  induction s as [|y s IHs]; [reflexivity|].
  simpl. destruct (Qle_bool (f y) (f x)); [reflexivity|].
  simpl. now rewrite IHs.
Qed.

Lemma keyword_sorted_ranked (query : string) (kw : list Memory) :
  _keyword_sorted (query_terms_of query) kw
  = map (fun m => (keyword_key query m, m)) (keyword_ranked query kw).
Proof.
  unfold _keyword_sorted, keyword_ranked.
  exact (sorted_desc_decorated (keyword_key query) kw).
Qed.

Lemma calls_of_app (k : Z) (l1 l2 : list Call) :
  calls_of k (l1 ++ l2) = calls_of k l1 ++ calls_of k l2.
Proof. apply filter_app. Qed.

Lemma rrf_sum_app (r1 r2 : list Z) :
  rrf_sum (r1 ++ r2) == rrf_sum r1 + rrf_sum r2.
Proof.
  unfold rrf_sum. induction r1 as [|r r1 IH]; simpl.
  - ring.
  - rewrite IH. ring.
Qed.

Lemma keyword_call_ranks (query : string) (k : Z) (start : Z) (l : list Memory) :
  map call_rank
    (calls_of k (map keyword_call
                   (enumerate start (map (fun m => (keyword_key query m, m)) l))))
  = ranks_from start k l.
Proof.
  revert start. induction l as [|m l IH]; intros start; [reflexivity|].
  simpl. change (has_id k (Mem.set_keyword_score m (keyword_key query m)))
    with (has_id k m).
  destruct (has_id k m); simpl; now rewrite IH.
Qed.

Lemma semantic_call_ranks (k : Z) (start : Z) (l : list Memory) :
  map call_rank (calls_of k (map semantic_call (enumerate start l)))
  = ranks_from start k l.
Proof.
  revert start. induction l as [|m l IH]; intros start; [reflexivity|].
  simpl. destruct (has_id k m); simpl; now rewrite IH.
Qed.

Lemma image_call_ranks (k : Z) (start : Z) (l : list Memory) :
  map call_rank (calls_of k (map image_call (enumerate start l)))
  = ranks_from start k l.
Proof.
  revert start. induction l as [|m l IH]; intros start; [reflexivity|].
  simpl. destruct (has_id k m); simpl; now rewrite IH.
Qed.

(** The reciprocal-rank terms of all calls for [k] add up to [rrf_total]. *)
Lemma all_calls_rrf (k : Z) (query : string) (kw sem img : list Memory) :
  rrf_sum (map call_rank
             (calls_of k (all_calls (_keyword_sorted (query_terms_of query) kw)
                            (sorted_desc similarity_key sem)
                            (sorted_desc similarity_key img))))
  == rrf_total k query kw sem img.
Proof.
  unfold all_calls, rrf_total, occurrence_ranks, similarity_ranked.
  rewrite keyword_sorted_ranked, !calls_of_app, !map_app, !rrf_sum_app.
  rewrite keyword_call_ranks, semantic_call_ranks, image_call_ranks. ring.
Qed.

(** The ids carried by the calls are the ids carried by the inputs. *)
Lemma memory_ids_in (k : Z) (l : list Memory) :
  In k (memory_ids l) <-> exists m, In m l /\ Mem.id m = Some k.
Proof.
  induction l as [|m l IH]; simpl.
  - split; [contradiction | intros (m & [] & _)].
  - destruct (Mem.id m) as [i|] eqn:Hi; simpl; rewrite IH; split.
    + intros [<-|(m' & Hm' & Hk)]; eauto.
    + intros (m' & [<-|Hm'] & Hk); [left; congruence | eauto].
    + intros (m' & Hm' & Hk); eauto.
    + intros (m' & [<-|Hm'] & Hk); [congruence | eauto].
Qed.

Lemma in_enumerate {A : Type} (l : list A) (start : Z) (x : A) :
  In x l <-> exists r, In (r, x) (enumerate start l).
Proof.
  revert start. induction l as [|y l IH]; intros start; simpl.
  - split; [contradiction | intros (r & [])].
  - split.
    + intros [<-|Hx]; [eauto|]. apply (IH (start + 1)%Z) in Hx.
      destruct Hx as [r Hr]. eauto.
    + intros (r & [[= _ <-]|Hr]); [now left|]. right.
      apply (IH (start + 1)%Z). eauto.
Qed.

(** Every call carries a memory of the inputs, keyword score apart, and
    every input memory is carried by a call. *)
Lemma all_calls_memories (query : string) (kw sem img : list Memory)
    (P : option Z -> option string -> Prop) :
  (exists c, In c (all_calls (_keyword_sorted (query_terms_of query) kw)
                     (sorted_desc similarity_key sem)
                     (sorted_desc similarity_key img))
             /\ P (Mem.id (call_memory c)) (Mem.type (call_memory c)))
  <-> (exists m, In m (kw ++ sem ++ img) /\ P (Mem.id m) (Mem.type m)).
Proof.
  unfold all_calls. rewrite keyword_sorted_ranked. split.
  - intros (c & Hc & HP). rewrite !in_app_iff, !in_map_iff in Hc.
    destruct Hc as [([r [s m]] & <- & Hin)|[([r m] & <- & Hin)|([r m] & <- & Hin)]];
      simpl in HP; exists m; (split; [|exact HP]); rewrite !in_app_iff.
    + left. assert (H : In (s, m) (map (fun m => (keyword_key query m, m))
                                      (keyword_ranked query kw))).
      { eapply in_enumerate. eauto. }
      apply in_map_iff in H. destruct H as (m' & [= _ ->] & H).
      now apply sorted_desc_in in H.
    + right; left. eapply sorted_desc_in, in_enumerate. eauto.
    + right; right. eapply sorted_desc_in, in_enumerate. eauto.
  - intros (m & Hm & HP). rewrite !in_app_iff in Hm.
    destruct Hm as [Hm|[Hm|Hm]].
    + apply (sorted_desc_in (keyword_key query)) in Hm.
      apply (in_map (fun m => (keyword_key query m, m))) in Hm.
      apply (in_enumerate _ 1%Z) in Hm. destruct Hm as [r Hr].
      exists (keyword_call (r, (keyword_key query m, m))). split; [|exact HP].
      rewrite in_app_iff. left. now apply in_map.
    + apply (sorted_desc_in similarity_key) in Hm.
      apply (in_enumerate _ 1%Z) in Hm. destruct Hm as [r Hr].
      exists (semantic_call (r, m)). split; [|exact HP].
      rewrite !in_app_iff. right; left. now apply in_map.
    + apply (sorted_desc_in similarity_key) in Hm.
      apply (in_enumerate _ 1%Z) in Hm. destruct Hm as [r Hr].
      exists (image_call (r, m)). split; [|exact HP].
      rewrite !in_app_iff. right; right. now apply in_map.
Qed.

(** ** The fused dict of one run *)

Lemma slice_to_incl {A : Type} (limit : Z) (l : list A) (x : A) :
  In x (slice_to limit l) -> In x l.
Proof.
  unfold slice_to. destruct (0 <=? limit)%Z; apply firstn_incl.
Qed.

Lemma fusion_calls_have_ids (query : string) (kw sem img : list Memory) :
  Forall has_identifier (kw ++ sem ++ img) ->
  calls_have_ids (fusion_calls query kw sem img).
Proof.
  intros H. apply Forall_forall. intros c Hc Hnone.
  destruct (proj1 (all_calls_memories query kw sem img (fun i _ => i = None)))
    as (m & Hm & Hid); [eauto|].
  rewrite Forall_forall in H. now apply (H m Hm).
Qed.

(** With an id on every record the run returns, for every limit, the
    slice of the sorted values of one dict. *)
Lemma fusion_dict (query : string) (kw sem img : list Memory) :
  Forall has_identifier (kw ++ sem ++ img) ->
  exists d,
    (forall limit,
        _hybrid_rank_results kw sem img query limit
        = Ok (slice_to limit (sorted_desc hybrid_score (values d))))
    /\ NoDup (keys d)
    /\ (forall k, lookup k d = accumulator k query kw sem img)
    /\ (forall k, In k (keys d) <-> In k (memory_ids (kw ++ sem ++ img))).
Proof.
  intros H.
  destruct (run_calls_ok (fusion_calls query kw sem img) []
              (fusion_calls_have_ids query kw sem img H))
    as (d & Hrun & Hlook & Hnd & Hkeys).
  exists d. split; [|split; [|split]].
  - intros limit. rewrite hybrid_rank_results_calls.
    fold (fusion_calls query kw sem img). now rewrite Hrun.
  - apply Hnd. constructor.
  - exact Hlook.
  - intros k. rewrite Hkeys, !memory_ids_in.
    split.
    + intros [[]|(m & Hm & Hk)]. apply in_map_iff in Hm.
      destruct Hm as (c & <- & Hc).
      apply (proj1 (all_calls_memories query kw sem img (fun i _ => i = Some k))).
      eauto.
    + intros Hm. right.
      apply (all_calls_memories query kw sem img (fun i _ => i = Some k)) in Hm.
      destruct Hm as (c & Hc & Hk). exists (call_memory c).
      split; [now apply in_map | exact Hk].
Qed.

(** A record without id anywhere in the inputs makes the run raise. *)
Lemma fusion_raises (query : string) (kw sem img : list Memory) (limit : Z) :
  Exists (fun m => Mem.id m = None) (kw ++ sem ++ img) ->
  _hybrid_rank_results kw sem img query limit = Raise (KeyError "id").
Proof.
  intros H. apply Exists_exists in H.
  apply (all_calls_memories query kw sem img (fun i _ => i = None)) in H.
  rewrite hybrid_rank_results_calls.
  rewrite run_calls_raise; [reflexivity|].
  apply Exists_exists. destruct H as (c & Hc & Hid). eauto.
Qed.

Lemma ids_or_missing (l : list Memory) :
  Forall has_identifier l \/ Exists (fun m => Mem.id m = None) l.
Proof.
  induction l as [|m l [IH|IH]].
  - left. constructor.
  - destruct (Mem.id m) eqn:Hid.
    + left. constructor; [unfold has_identifier; congruence | exact IH].
    + right. now constructor.
  - right. now constructor 2.
Qed.

Lemma fusion_ok_ids (query : string) (kw sem img : list Memory) (limit : Z)
    (out : list Fused) :
  _hybrid_rank_results kw sem img query limit = Ok out ->
  Forall has_identifier (kw ++ sem ++ img).
Proof.
  intros Hok. destruct (ids_or_missing (kw ++ sem ++ img)) as [H|H]; [exact H|].
  pose proof (fusion_raises query kw sem img limit H) as Hr.
  congruence.
Qed.

(** Every returned record is the accumulator of its own id. *)
Lemma fusion_entry (query : string) (kw sem img : list Memory) (limit : Z)
    (out : list Fused) (f : Fused) :
  _hybrid_rank_results kw sem img query limit = Ok out ->
  In f out ->
  exists k, Mem.id (fields f) = Some k
            /\ accumulator k query kw sem img = Some f.
Proof.
  intros Hok Hin.
  destruct (fusion_dict query kw sem img (fusion_ok_ids _ _ _ _ _ _ Hok))
    as (d & Hres & Hnd & Hlook & _).
  rewrite Hres in Hok. injection Hok as <-.
  apply slice_to_incl, sorted_desc_in, in_map_iff in Hin.
  destruct Hin as ([k f'] & Heq & Hin). simpl in Heq. subst f'.
  apply (lookup_in _ _ _ Hnd) in Hin. rewrite Hlook in Hin.
  exists k. split; [|exact Hin].
  destruct (acc_fold_identity _ _ _ _ Hin)
    as [(f0 & [=] & _)|[_ (c & _ & Hk & Hid & _)]].
  rewrite Hid. unfold has_id in Hk.
  destruct (Mem.id (call_memory c)); [|discriminate].
  apply Z.eqb_eq in Hk. now subst.
Qed.

(** ** Reciprocal-rank sums (C1) *)

Lemma accumulator_hybrid (k : Z) (query : string) (kw sem img : list Memory)
    (f : Fused) :
  accumulator k query kw sem img = Some f ->
  hybrid_score f == rrf_total k query kw sem img.
Proof.
  intros Hacc.
  pose proof (acc_fold_hybrid k (fusion_calls query kw sem img) None) as H.
  fold (accumulator k query kw sem img) in H. rewrite Hacc in H.
  simpl acc_hybrid in H. rewrite H. unfold fusion_calls.
  rewrite all_calls_rrf. ring.
Qed.

Lemma hybrid_score_rrf_total (kw sem img : list Memory) (query : string)
    (limit : Z) (out : list Fused) (f : Fused) (mid : Z) :
  _hybrid_rank_results kw sem img query limit = Ok out ->
  In f out -> Mem.id (fields f) = Some mid ->
  hybrid_score f == rrf_total mid query kw sem img.
Proof.
  intros Hok Hin Hid.
  destruct (fusion_entry _ _ _ _ _ _ _ Hok Hin) as (k & Hid' & Hacc).
  assert (k = mid) by congruence. subst k.
  now apply accumulator_hybrid.
Qed.

(** C1. Every record returned by [_hybrid_rank_results] carries as
    [hybrid_score] the sum of [1 / (60 + r)] over all occurrences of its id,
    [r] being the 1-based rank of the occurrence in its source list sorted
    best first: the keyword list by keyword score, the semantic and image
    lists by [similarity_score]. *)
Theorem hybrid_score_is_rrf_sum (kw sem img : list Memory) (query : string)
    (limit : Z) (out : list Fused) (f : Fused) :
  _hybrid_rank_results kw sem img query limit = Ok out ->
  In f out ->
  exists mid,
    Mem.id (fields f) = Some mid
    /\ hybrid_score f
       == rrf_sum (occurrence_ranks mid (keyword_ranked query kw))
          + rrf_sum (occurrence_ranks mid (similarity_ranked sem))
          + rrf_sum (occurrence_ranks mid (similarity_ranked img)).
Proof.
  intros Hok Hin.
  destruct (fusion_entry _ _ _ _ _ _ _ Hok Hin) as (k & Hid & Hacc).
  exists k. split; [exact Hid|].
  now apply accumulator_hybrid.
Qed.

(** The scenario of the specification: keyword [M1; M2], semantic
    [M2; M3], no image match. *)
Lemma hybrid_score_is_rrf_sum_witness :
  exists out,
    _hybrid_rank_results [M1; M2] [M2_semantic; M3_semantic] [] "apple" 10
    = Ok out
    /\ List.length out = 3%nat
    /\ forall f, In f out ->
       exists mid,
         Mem.id (fields f) = Some mid
         /\ hybrid_score f
            == rrf_sum (occurrence_ranks mid (keyword_ranked "apple" [M1; M2]))
               + rrf_sum (occurrence_ranks mid
                            (similarity_ranked [M2_semantic; M3_semantic]))
               + rrf_sum (occurrence_ranks mid (similarity_ranked [])).
Proof.
  eexists. split; [vm_compute; reflexivity|]. split; [reflexivity|].
  intros f Hf.
  eapply (hybrid_score_is_rrf_sum [M1; M2] [M2_semantic; M3_semantic] []
            "apple" 10); [vm_compute; reflexivity | exact Hf].
Defined.

(** ** Order and truncation (C4) *)

Lemma slice_to_nonneg {A : Type} (limit : Z) (l : list A) :
  (0 <= limit)%Z -> slice_to limit l = firstn (Z.to_nat limit) l.
Proof.
  intros H. unfold slice_to. apply Z.leb_le in H. now rewrite H.
Qed.

Lemma slice_to_sorted {A : Type} (key : A -> Q) (limit : Z) (l : list A) :
  desc_by key l -> desc_by key (slice_to limit l).
Proof.
  unfold slice_to. destruct (0 <=? limit)%Z; apply desc_by_firstn.
Qed.

Lemma slice_to_split {A : Type} (limit : Z) (l : list A) :
  exists rest, l = slice_to limit l ++ rest.
Proof.
  unfold slice_to. destruct (0 <=? limit)%Z;
    eexists; symmetry; apply firstn_skipn.
Qed.

Lemma accumulator_id (k : Z) (query : string) (kw sem img : list Memory)
    (f : Fused) :
  accumulator k query kw sem img = Some f -> Mem.id (fields f) = Some k.
Proof.
  intros Hacc.
  destruct (acc_fold_identity _ _ _ _ Hacc)
    as [(f0 & [=] & _)|[_ (c & _ & Hk & Hid & _)]].
  rewrite Hid. unfold has_id in Hk.
  destruct (Mem.id (call_memory c)); [|discriminate].
  apply Z.eqb_eq in Hk. now subst.
Qed.

(** The dict has one accumulator per distinct id. *)
Lemma fused_dict_size (kw sem img : list Memory) (d : list (Z * Fused)) :
  NoDup (keys d) ->
  (forall k, In k (keys d) <-> In k (memory_ids (kw ++ sem ++ img))) ->
  List.length (sorted_desc hybrid_score (values d))
  = List.length (distinct_ids kw sem img).
Proof.
  intros Hnd Hkeys. rewrite sorted_desc_length. unfold values, distinct_ids.
  rewrite length_map, <- (length_map fst). apply Permutation_length.
  apply NoDup_Permutation; [exact Hnd | apply NoDup_nodup|].
  intros k. rewrite nodup_In. apply Hkeys.
Qed.

(** C4 (amended). The returned list is sorted by [hybrid_score],
    best first, whatever the limit, and it is a prefix of the untruncated
    ranking: the records left out score no higher than any record
    returned.  For a limit that is not negative its length is the smaller
    of the limit and the number of distinct ids; for a negative limit it is
    the number of distinct ids plus the limit, or 0 when that is
    negative. *)
Theorem hybrid_rank_results_sorted_top (kw sem img : list Memory)
    (query : string) (limit : Z) (out : list Fused) :
  _hybrid_rank_results kw sem img query limit = Ok out ->
  desc_by hybrid_score out
  /\ (exists rest,
        (forall limit',
            (Z.of_nat (List.length (distinct_ids kw sem img)) <= limit')%Z ->
            _hybrid_rank_results kw sem img query limit' = Ok (out ++ rest))
        /\ forall a b, In a out -> In b rest -> hybrid_score b <= hybrid_score a)
  /\ ((0 <= limit)%Z ->
      List.length out
      = Nat.min (Z.to_nat limit) (List.length (distinct_ids kw sem img)))
  /\ ((limit < 0)%Z ->
      List.length out
      = Z.to_nat (Z.of_nat (List.length (distinct_ids kw sem img)) + limit)).
Proof.
  intros Hok.
  destruct (fusion_dict query kw sem img (fusion_ok_ids _ _ _ _ _ _ Hok))
    as (d & Hres & Hnd & _ & Hkeys).
  pose proof (fused_dict_size kw sem img d Hnd Hkeys) as Hsize.
  pose proof (sorted_desc_sorted hybrid_score (values d)) as Hsorted.
  rewrite Hres in Hok. injection Hok as <-.
  set (ranking := sorted_desc hybrid_score (values d)) in *.
  split; [|split; [|split]].
  - now apply slice_to_sorted.
  - destruct (slice_to_split limit ranking) as [rest Hsplit].
    exists rest. split.
    + intros limit' Hbig. rewrite Hres. fold ranking.
      rewrite slice_to_nonneg by lia.
      rewrite firstn_all2 by lia. now f_equal.
    + apply desc_by_split. now rewrite <- Hsplit.
  - intros Hlimit.
    rewrite slice_to_nonneg, length_firstn, Hsize by exact Hlimit. reflexivity.
  - intros Hlimit. unfold slice_to.
    destruct (0 <=? limit)%Z eqn:Hle; [apply Z.leb_le in Hle; lia|].
    rewrite length_firstn, Hsize. lia.
Qed.

Lemma hybrid_rank_results_sorted_top_witness :
  (exists out,
      _hybrid_rank_results [M1; M2] [M2_semantic; M3_semantic] [] "apple" 2
      = Ok out
      /\ desc_by hybrid_score out
      /\ List.length out = 2%nat)
  /\ (exists out,
        _hybrid_rank_results [M1; M2] [M2_semantic; M3_semantic] [] "apple" (-2)
        = Ok out
        /\ desc_by hybrid_score out
        /\ List.length out = 1%nat).
Proof.
  split.
  - eexists. split; [vm_compute; reflexivity|].
    edestruct (hybrid_rank_results_sorted_top [M1; M2]
                 [M2_semantic; M3_semantic] [] "apple" 2)
      as (Hsorted & _ & Hlen & _); [vm_compute; reflexivity |].
    split; [exact Hsorted | exact (Hlen ltac:(lia))].
  - eexists. split; [vm_compute; reflexivity|].
    edestruct (hybrid_rank_results_sorted_top [M1; M2]
                 [M2_semantic; M3_semantic] [] "apple" (-2))
      as (Hsorted & _ & _ & Hlen); [vm_compute; reflexivity |].
    split; [exact Hsorted | exact (Hlen ltac:(lia))].
Defined.

(** The claim as first stated fails for a negative limit: [l[:-1]] drops
    the last record only. *)
Lemma negative_limit_counterexample :
  exists out,
    _hybrid_rank_results [M1; M2] [M2_semantic; M3_semantic] [] "apple" (-1)
    = Ok out
    /\ List.length out = 2%nat
    /\ List.length (distinct_ids [M1; M2] [M2_semantic; M3_semantic] []) = 3%nat
    /\ Z.of_nat (List.length out) <> Z.min (-1) 3.
Proof.
  eexists. split; [vm_compute; reflexivity|].
  repeat split; [lia].
Qed.

(** ** Monotonicity of the fused score (C5) *)

Lemma inject_Z_nonneg (z : Z) : (0 <= z)%Z -> 0 <= inject_Z z.
Proof. intros H. change 0 with (inject_Z 0). now rewrite <- Zle_Qle. Qed.

Lemma rrf_term_pos (r : Z) : (0 <= r)%Z -> 0 < 1 / (60 + inject_Z r).
Proof.
  intros H. apply inject_Z_nonneg in H.
  apply Qlt_shift_div_l; lra.
Qed.

(** A better rank gives a larger term. *)
Lemma rrf_term_antitone (r r' : Z) :
  (0 <= r)%Z -> (r <= r')%Z ->
  1 / (60 + inject_Z r') <= 1 / (60 + inject_Z r).
Proof.
  intros H0 Hle. apply inject_Z_nonneg in H0. rewrite Zle_Qle in Hle.
  apply Qle_shift_div_r; [lra|].
  setoid_replace (1 / (60 + inject_Z r) * (60 + inject_Z r'))
    with ((60 + inject_Z r') / (60 + inject_Z r))
    by (field; intros E; lra).
  apply Qle_shift_div_l; lra.
Qed.

Lemma ranks_from_lower (start mid : Z) (l : list Memory) :
  Forall (fun r => (start <= r)%Z) (ranks_from start mid l).
Proof.
  revert start. induction l as [|m l IH]; intros start; simpl; [constructor|].
  assert (H : Forall (fun r => (start <= r)%Z) (ranks_from (start + 1) mid l)).
  { eapply Forall_impl; [|apply IH]. simpl. intros; lia. }
  destruct (has_id mid m); [constructor; [lia | exact H] | exact H].
Qed.

Lemma occurrence_ranks_pos (mid : Z) (l : list Memory) :
  Forall (fun r => (0 <= r)%Z) (occurrence_ranks mid l).
Proof.
  eapply Forall_impl; [|apply ranks_from_lower]. simpl. intros; lia.
Qed.

Lemma rrf_sum_monotone (ra rb : list Z) :
  Forall (fun r => (0 <= r)%Z) ra ->
  Forall2 Z.le ra rb ->
  rrf_sum rb <= rrf_sum ra.
Proof.
  intros Hpos H. unfold rrf_sum.
  induction H as [|a b ra rb Hab H IH]; simpl.
  - apply Qle_refl.
  - inversion Hpos; subst.
    pose proof (rrf_term_antitone a b ltac:(assumption) Hab).
    specialize (IH ltac:(assumption)). lra.
Qed.

Lemma rrf_total_all_ranks (mid : Z) (query : string) (kw sem img : list Memory) :
  rrf_total mid query kw sem img == rrf_sum (all_ranks mid query kw sem img).
Proof.
  unfold rrf_total, all_ranks. rewrite !rrf_sum_app. ring.
Qed.

(** C5. Of two returned records with the same match pattern (as many
    occurrences in each source), the one whose ranks are nowhere worse has a
    [hybrid_score] at least as large; and a record at rank 1 in two sources
    scores 2/61, strictly above the 1/61 of a record at rank 1 in one
    source only. *)
Theorem hybrid_score_monotone (kw sem img : list Memory) (query : string)
    (limit : Z) (out : list Fused) (a b : Fused) (ia ib : Z) :
  _hybrid_rank_results kw sem img query limit = Ok out ->
  In a out -> In b out ->
  Mem.id (fields a) = Some ia -> Mem.id (fields b) = Some ib ->
  (Forall2 Z.le (occurrence_ranks ia (keyword_ranked query kw))
                (occurrence_ranks ib (keyword_ranked query kw)) ->
   Forall2 Z.le (occurrence_ranks ia (similarity_ranked sem))
                (occurrence_ranks ib (similarity_ranked sem)) ->
   Forall2 Z.le (occurrence_ranks ia (similarity_ranked img))
                (occurrence_ranks ib (similarity_ranked img)) ->
   hybrid_score b <= hybrid_score a)
  /\ (all_ranks ia query kw sem img = [1; 1]%Z ->
      all_ranks ib query kw sem img = [1]%Z ->
      hybrid_score a == 2 # 61 /\ hybrid_score b == 1 # 61
      /\ hybrid_score b < hybrid_score a).
Proof.
  intros Hok Ha Hb Hia Hib.
  pose proof (hybrid_score_rrf_total _ _ _ _ _ _ _ _ Hok Ha Hia) as Hsa.
  pose proof (hybrid_score_rrf_total _ _ _ _ _ _ _ _ Hok Hb Hib) as Hsb.
  split.
  - intros Hk Hs Hi. rewrite Hsa, Hsb. unfold rrf_total.
    pose proof (rrf_sum_monotone _ _ (occurrence_ranks_pos _ _) Hk).
    pose proof (rrf_sum_monotone _ _ (occurrence_ranks_pos _ _) Hs).
    pose proof (rrf_sum_monotone _ _ (occurrence_ranks_pos _ _) Hi).
    lra.
  - intros Hra Hrb.
    rewrite rrf_total_all_ranks in Hsa, Hsb. rewrite Hra in Hsa. rewrite Hrb in Hsb.
    assert (Ea : hybrid_score a == 2 # 61) by (rewrite Hsa; reflexivity).
    assert (Eb : hybrid_score b == 1 # 61) by (rewrite Hsb; reflexivity).
    repeat split; [exact Ea | exact Eb |].
    rewrite Ea, Eb. reflexivity.
Qed.

(** Keyword [M1; M2], and memory 3 first in both the semantic and the
    image list. *)
Lemma hybrid_score_monotone_witness :
  exists f3 f1 f2,
    _hybrid_rank_results [M1; M2] [M3_semantic] [M3_image] "apple" 10
    = Ok [f3; f1; f2]
    /\ hybrid_score f2 <= hybrid_score f1
    /\ hybrid_score f1 < hybrid_score f3.
Proof.
  do 3 eexists. split; [vm_compute; reflexivity|].
  lazymatch goal with
  | |- hybrid_score ?f2 <= hybrid_score ?f1 /\ _ < hybrid_score ?f3 =>
      assert (Hok : _hybrid_rank_results [M1; M2] [M3_semantic] [M3_image]
                      "apple" 10 = Ok [f3; f1; f2])
        by (vm_compute; reflexivity);
      destruct (hybrid_score_monotone _ _ _ _ _ _ f1 f2 1%Z 2%Z Hok
                  ltac:(simpl; tauto) ltac:(simpl; tauto) eq_refl eq_refl)
        as [Hranks _];
      destruct (hybrid_score_monotone _ _ _ _ _ _ f3 f1 3%Z 1%Z Hok
                  ltac:(simpl; tauto) ltac:(simpl; tauto) eq_refl eq_refl)
        as [_ Hboost]
  end.
  split.
  - apply Hranks; vm_compute; repeat constructor; discriminate.
  - apply Hboost; vm_compute; reflexivity.
Defined.

(** ** Occurrences, match types and per-source scores *)

Lemma fusion_calls_ranks (k : Z) (query : string) (kw sem img : list Memory) :
  map call_rank (calls_of k (fusion_calls query kw sem img))
  = all_ranks k query kw sem img.
Proof.
  unfold fusion_calls, all_calls, all_ranks, occurrence_ranks, similarity_ranked.
  rewrite keyword_sorted_ranked, !calls_of_app, !map_app.
  now rewrite keyword_call_ranks, semantic_call_ranks, image_call_ranks.
Qed.

Lemma filter_perm {A : Type} (p : A -> bool) (l l' : list A) :
  Permutation l l' -> Permutation (filter p l) (filter p l').
Proof.
  induction 1; simpl.
  - constructor.
  - destruct (p x); [now constructor | assumption].
  - destruct (p x), (p y); try reflexivity. apply perm_swap.
  - etransitivity; eassumption.
Qed.

Lemma occurrences_sorted_length (key : Memory -> Q) (k : Z) (l : list Memory) :
  List.length (occurrences k (sorted_desc key l)) = List.length (occurrences k l).
Proof. apply Permutation_length, filter_perm, sorted_desc_perm. Qed.

Lemma occurrences_sorted_in (key : Memory -> Q) (k : Z) (l : list Memory)
    (m : Memory) :
  In m (occurrences k (sorted_desc key l)) <-> In m (occurrences k l).
Proof.
  unfold occurrences. now rewrite !filter_In, sorted_desc_in.
Qed.

Section CallsOfOneSource.

Variables (query : string) (k : Z).

Let decorate (m : Memory) : Q * Memory := (keyword_key query m, m).

Lemma keyword_calls_sources (start : Z) (l : list Memory) :
  map call_source
    (calls_of k (map keyword_call (enumerate start (map decorate l))))
  = repeat keyword (List.length (occurrences k l)).
Proof.
  revert start. induction l as [|m l IH]; intros start; [reflexivity|].
  simpl. change (has_id k (Mem.set_keyword_score m (keyword_key query m)))
    with (has_id k m).
  destruct (has_id k m); simpl; now rewrite IH.
Qed.

Lemma semantic_calls_sources (start : Z) (l : list Memory) :
  map call_source (calls_of k (map semantic_call (enumerate start l)))
  = repeat semantic (List.length (occurrences k l)).
Proof.
  revert start. induction l as [|m l IH]; intros start; [reflexivity|].
  simpl. destruct (has_id k m); simpl; now rewrite IH.
Qed.

Lemma image_calls_sources (start : Z) (l : list Memory) :
  map call_source (calls_of k (map image_call (enumerate start l)))
  = repeat image (List.length (occurrences k l)).
Proof.
  revert start. induction l as [|m l IH]; intros start; [reflexivity|].
  simpl. destruct (has_id k m); simpl; now rewrite IH.
Qed.

(** The scores that the calls of one source offer to each field. *)
Lemma keyword_calls_scores (field : ScoreField) (start : Z) (l : list Memory) :
  offered_scores field
    (calls_of k (map keyword_call (enumerate start (map decorate l))))
  = match field with
    | keyword_score_field => map (keyword_key query) (occurrences k l)
    | _ => []
    end.
Proof.
  revert start. induction l as [|m l IH]; intros start.
  - now destruct field.
  - simpl. change (has_id k (Mem.set_keyword_score m (keyword_key query m)))
      with (has_id k m).
    destruct (has_id k m); simpl; rewrite IH; now destruct field.
Qed.

Lemma semantic_calls_scores (field : ScoreField) (start : Z) (l : list Memory) :
  offered_scores field (calls_of k (map semantic_call (enumerate start l)))
  = match field with
    | semantic_score_field => map similarity_key (occurrences k l)
    | _ => []
    end.
Proof.
  revert start. induction l as [|m l IH]; intros start.
  - now destruct field.
  - simpl. destruct (has_id k m); simpl; rewrite IH; now destruct field.
Qed.

Lemma image_calls_scores (field : ScoreField) (start : Z) (l : list Memory) :
  offered_scores field (calls_of k (map image_call (enumerate start l)))
  = match field with
    | image_score_field => map similarity_key (occurrences k l)
    | _ => []
    end.
Proof.
  revert start. induction l as [|m l IH]; intros start.
  - now destruct field.
  - simpl. destruct (has_id k m); simpl; rewrite IH; now destruct field.
Qed.

End CallsOfOneSource.

Lemma offered_scores_app (field : ScoreField) (l1 l2 : list Call) :
  offered_scores field (l1 ++ l2)
  = offered_scores field l1 ++ offered_scores field l2.
Proof.
  induction l1 as [|c l1 IH]; simpl; [reflexivity|].
  destruct (call_score field c); simpl; now rewrite IH.
Qed.

Lemma fusion_calls_sources (k : Z) (query : string) (kw sem img : list Memory) :
  map call_source (calls_of k (fusion_calls query kw sem img))
  = repeat keyword (List.length (occurrences k kw))
    ++ repeat semantic (List.length (occurrences k sem))
    ++ repeat image (List.length (occurrences k img)).
Proof.
  unfold fusion_calls, all_calls.
  rewrite keyword_sorted_ranked, !calls_of_app, !map_app.
  rewrite keyword_calls_sources, semantic_calls_sources, image_calls_sources.
  unfold keyword_ranked. now rewrite !occurrences_sorted_length.
Qed.

Lemma fusion_calls_scores (field : ScoreField) (k : Z) (query : string)
    (kw sem img : list Memory) :
  offered_scores field (calls_of k (fusion_calls query kw sem img))
  = match field with
    | keyword_score_field =>
        map (keyword_key query) (occurrences k (keyword_ranked query kw))
    | semantic_score_field =>
        map similarity_key (occurrences k (similarity_ranked sem))
    | image_score_field =>
        map similarity_key (occurrences k (similarity_ranked img))
    end.
Proof.
  unfold fusion_calls, all_calls.
  rewrite keyword_sorted_ranked, !calls_of_app, !offered_scores_app.
  rewrite keyword_calls_scores, semantic_calls_scores, image_calls_scores.
  destruct field; simpl; now rewrite ?app_nil_r.
Qed.

Lemma max_from_spec (floor : Q) (scores : list Q) :
  floor <= max_from floor scores
  /\ (forall s, In s scores -> s <= max_from floor scores)
  /\ (max_from floor scores == floor
      \/ exists s, In s scores /\ max_from floor scores == s).
Proof.
  unfold max_from. revert floor.
  induction scores as [|x scores IH]; intros floor; simpl.
  - split; [apply Qle_refl|]. split; [contradiction | now left].
  - destruct (IH (Qmax floor x)) as (Hfloor & Hall & Hwhich).
    pose proof (Q.le_max_l floor x). pose proof (Q.le_max_r floor x).
    split; [lra|]. split.
    + intros s [<-|Hs]; [lra | now apply Hall].
    + destruct Hwhich as [Heq|(s & Hs & Heq)].
      * destruct (Q.max_dec floor x) as [Hm|Hm].
        -- left. now rewrite Heq.
        -- right. exists x. split; [now left | now rewrite Heq].
      * right. exists s. auto.
Qed.

Lemma max_with_zero_map {A : Type} (key : A -> Q) (l l' : list A) (x : Q) :
  (forall a, In a l <-> In a l') ->
  max_with_zero x (map key l) -> max_with_zero x (map key l').
Proof.
  intros Hsame (H0 & Hall & Hwhich). split; [exact H0|]. split.
  - intros s Hs. apply Hall. apply in_map_iff in Hs.
    destruct Hs as (a & <- & Ha). apply in_map, Hsame, Ha.
  - destruct Hwhich as [Hz|(s & Hs & Heq)]; [now left|]. right.
    exists s. split; [|exact Heq]. apply in_map_iff in Hs.
    destruct Hs as (a & <- & Ha). apply in_map, Hsame, Ha.
Qed.

Lemma accumulator_types (k : Z) (query : string) (kw sem img : list Memory)
    (f : Fused) :
  accumulator k query kw sem img = Some f ->
  match_types f
  = repeat keyword (List.length (occurrences k kw))
    ++ repeat semantic (List.length (occurrences k sem))
    ++ repeat image (List.length (occurrences k img)).
Proof.
  intros Hacc.
  pose proof (acc_fold_types k (fusion_calls query kw sem img) None) as H.
  fold (accumulator k query kw sem img) in H. rewrite Hacc in H.
  simpl in H. now rewrite H, fusion_calls_sources.
Qed.

Lemma accumulator_score (field : ScoreField) (k : Z) (query : string)
    (kw sem img : list Memory) (f : Fused) :
  accumulator k query kw sem img = Some f ->
  max_with_zero (acc_score field (Some f))
    match field with
    | keyword_score_field => map (keyword_key query) (occurrences k kw)
    | semantic_score_field => map similarity_key (occurrences k sem)
    | image_score_field => map similarity_key (occurrences k img)
    end.
Proof.
  intros Hacc.
  pose proof (acc_fold_score field k (fusion_calls query kw sem img) None) as H.
  fold (accumulator k query kw sem img) in H. rewrite Hacc in H.
  rewrite fusion_calls_scores in H. rewrite H.
  assert (Hsorted : max_with_zero
            (max_from 0 match field with
              | keyword_score_field =>
                  map (keyword_key query) (occurrences k (keyword_ranked query kw))
              | semantic_score_field =>
                  map similarity_key (occurrences k (similarity_ranked sem))
              | image_score_field =>
                  map similarity_key (occurrences k (similarity_ranked img))
              end)
            match field with
              | keyword_score_field =>
                  map (keyword_key query) (occurrences k (keyword_ranked query kw))
              | semantic_score_field =>
                  map similarity_key (occurrences k (similarity_ranked sem))
              | image_score_field =>
                  map similarity_key (occurrences k (similarity_ranked img))
              end).
  { apply max_from_spec. }
  simpl acc_score at 1.
  destruct field; refine (max_with_zero_map _ _ _ _ _ Hsorted);
    intros m; apply occurrences_sorted_in.
Qed.

Lemma max_with_zero_max_of (x : Q) (scores : list Q) :
  max_with_zero x scores ->
  (exists s, In s scores /\ 0 <= s) ->
  max_of x scores.
Proof.
  intros (H0 & Hall & Hwhich) (s & Hs & Hpos). split; [exact Hall|].
  destruct Hwhich as [Hz|Hex]; [|exact Hex].
  exists s. split; [exact Hs|]. specialize (Hall s Hs). lra.
Qed.

(** C10 (amended). For a returned record, every occurrence of its id adds
    its own [1 / (60 + r)] to [hybrid_score] and its source name to
    [match_types], so a source is named once per occurrence; each
    per-source score field holds the largest of 0 and the scores of the
    occurrences in that source, which for the keyword source, whose scores
    are never negative, is the largest score of the occurrences. *)
Theorem repeated_occurrences (kw sem img : list Memory) (query : string)
    (limit : Z) (out : list Fused) (f : Fused) (mid : Z) :
  _hybrid_rank_results kw sem img query limit = Ok out ->
  In f out ->
  Mem.id (fields f) = Some mid ->
  hybrid_score f == rrf_sum (all_ranks mid query kw sem img)
  /\ List.length (all_ranks mid query kw sem img)
     = (List.length (occurrences mid kw) + List.length (occurrences mid sem)
        + List.length (occurrences mid img))%nat
  /\ match_types f
     = repeat keyword (List.length (occurrences mid kw))
       ++ repeat semantic (List.length (occurrences mid sem))
       ++ repeat image (List.length (occurrences mid img))
  /\ max_with_zero (keyword_score f)
       (map (keyword_key query) (occurrences mid kw))
  /\ max_with_zero (semantic_score f) (map similarity_key (occurrences mid sem))
  /\ max_with_zero (image_score f) (map similarity_key (occurrences mid img))
  /\ (occurrences mid kw <> [] ->
      max_of (keyword_score f) (map (keyword_key query) (occurrences mid kw))).
Proof.
  intros Hok Hin Hid.
  destruct (fusion_entry _ _ _ _ _ _ _ Hok Hin) as (k & Hid' & Hacc).
  assert (k = mid) by congruence. subst k.
  pose proof (accumulator_score keyword_score_field _ _ _ _ _ _ Hacc) as Hkw.
  split; [|split; [|split; [|split; [|split; [|split]]]]].
  - rewrite <- rrf_total_all_ranks. now apply accumulator_hybrid.
  - rewrite <- fusion_calls_ranks, length_map, <- (length_map call_source).
    rewrite fusion_calls_sources, !length_app, !repeat_length. lia.
  - exact (accumulator_types _ _ _ _ _ _ Hacc).
  - exact Hkw.
  - exact (accumulator_score semantic_score_field _ _ _ _ _ _ Hacc).
  - exact (accumulator_score image_score_field _ _ _ _ _ _ Hacc).
  - intros Hocc. apply max_with_zero_max_of; [exact Hkw|].
    destruct (occurrences mid kw) as [|m l]; [congruence|].
    exists (keyword_key query m). split; [now left|].
    apply keyword_score_range.
Qed.

(** Memory 2 once in the keyword list and twice in the semantic list. *)
Lemma repeated_occurrences_witness :
  exists f,
    _hybrid_rank_results [M2] [M2_semantic; M2_again] [] "apple" 10 = Ok [f]
    /\ match_types f = [keyword; semantic; semantic]
    /\ hybrid_score f == (1 # 61) + (1 # 61) + (1 # 62)
    /\ max_with_zero (semantic_score f) [9 # 10; 6 # 10].
Proof.
  eexists. split; [vm_compute; reflexivity|].
  lazymatch goal with
  | |- match_types ?f = _ /\ _ =>
      destruct (repeated_occurrences [M2] [M2_semantic; M2_again] [] "apple" 10
                  [f] f 2%Z ltac:(vm_compute; reflexivity)
                  ltac:(simpl; tauto) eq_refl)
        as (Hsum & _ & Htypes & _ & Hsem & _)
  end.
  split; [exact Htypes|]. split; [|exact Hsem].
  rewrite Hsum. vm_compute. reflexivity.
Defined.

(** The claim as first stated fails when every occurrence has a negative
    similarity: the field stays at its initial 0, which is the score of no
    occurrence. *)
Lemma negative_similarity_counterexample :
  exists f,
    _hybrid_rank_results [] [far_first; far_second] [] "apple" 10 = Ok [f]
    /\ match_types f = [semantic; semantic]
    /\ semantic_score f == 0
    /\ ~ max_of (semantic_score f)
           (map similarity_key (occurrences 2 [far_first; far_second])).
Proof.
  eexists. split; [vm_compute; reflexivity|].
  split; [reflexivity|]. split; [reflexivity|].
  intros [_ (s & Hs & Heq)]. simpl in Hs.
  destruct Hs as [<-|[<-|[]]]; vm_compute in Heq; discriminate.
Qed.

(** ** Empty sources (C9) *)

Lemma rrf_sum_pos (ranks : list Z) :
  Forall (fun r => (0 <= r)%Z) ranks -> ranks <> [] -> 0 < rrf_sum ranks.
Proof.
  unfold rrf_sum. intros Hpos Hne. destruct Hpos as [|r ranks Hr Hrest].
  - congruence.
  - simpl. pose proof (rrf_term_pos r Hr) as Hterm.
    assert (Hsum : 0 <= fold_right (fun r acc => 1 / (60 + inject_Z r) + acc) 0 ranks).
    { clear -Hrest. induction Hrest as [|r' ranks Hr' _ IH]; simpl.
      - apply Qle_refl.
      - pose proof (rrf_term_pos r' Hr'). lra. }
    lra.
Qed.

Lemma all_ranks_pos (mid : Z) (query : string) (kw sem img : list Memory) :
  Forall (fun r => (0 <= r)%Z) (all_ranks mid query kw sem img).
Proof.
  unfold all_ranks. rewrite !Forall_app.
  repeat split; apply occurrence_ranks_pos.
Qed.

(** The id of a returned record occurs in some source. *)
Lemma accumulator_ranks (k : Z) (query : string) (kw sem img : list Memory)
    (f : Fused) :
  accumulator k query kw sem img = Some f ->
  all_ranks k query kw sem img <> [].
Proof.
  intros Hacc Hnil.
  assert (Hsome : exists f, fold_left (acc_step k)
                              (fusion_calls query kw sem img) None = Some f)
    by (exists f; exact Hacc).
  apply acc_fold_some in Hsome. apply Hsome.
  rewrite <- fusion_calls_ranks in Hnil.
  now apply map_eq_nil in Hnil.
Qed.

Lemma fusion_of_nothing (query : string) (limit : Z) :
  _hybrid_rank_results [] [] [] query limit = Ok [].
Proof.
  rewrite hybrid_rank_results_calls.
  unfold _keyword_sorted, all_calls, slice_to. simpl.
  destruct (0 <=? limit)%Z; now rewrite firstn_nil.
Qed.

(** Every candidate with an id has its record in the untruncated ranking,
    scored by the ranks of its occurrences. *)
Lemma fusion_candidate_ranked (query : string) (kw sem img : list Memory)
    (d : list (Z * Fused)) (m : Memory) (mid : Z) :
  NoDup (keys d) ->
  (forall k, lookup k d = accumulator k query kw sem img) ->
  (forall k, In k (keys d) <-> In k (memory_ids (kw ++ sem ++ img))) ->
  In m (kw ++ sem ++ img) -> Mem.id m = Some mid ->
  exists f,
    In f (sorted_desc hybrid_score (values d))
    /\ Mem.id (fields f) = Some mid
    /\ 0 < hybrid_score f
    /\ hybrid_score f == rrf_sum (all_ranks mid query kw sem img).
Proof.
  intros Hnd Hlookup Hkeys Hm Hid.
  assert (Hkey : In mid (keys d)).
  { apply Hkeys, memory_ids_in. now exists m. }
  destruct (lookup mid d) as [f|] eqn:Hl;
    [|apply lookup_none in Hl; contradiction].
  pose proof Hl as Hacc. rewrite Hlookup in Hacc.
  exists f. split; [|split; [|split]].
  - apply sorted_desc_in. apply in_lookup in Hl.
    unfold values. change f with (snd (mid, f)). now apply in_map.
  - now apply (accumulator_id mid query kw sem img).
  - rewrite (accumulator_hybrid _ _ _ _ _ _ Hacc), rrf_total_all_ranks.
    apply rrf_sum_pos; [apply all_ranks_pos|].
    now apply (accumulator_ranks _ _ _ _ _ f).
  - now rewrite (accumulator_hybrid _ _ _ _ _ _ Hacc), rrf_total_all_ranks.
Qed.

(** C9. [_hybrid_rank_results] raises nothing because a source list is
    empty: with three empty lists it returns the empty list, and whenever
    the records it is given carry an id, whichever lists are empty, it
    returns a list.  Every candidate of every list, also one that occurs in
    one source only, gets a record with a positive [hybrid_score], the sum
    of [1 / (60 + r)] over the ranks of its occurrences; that record is
    returned whenever the limit does not truncate, and otherwise it is
    returned or scores no higher than any returned record.  Every returned
    record has a positive [hybrid_score], [1 / (60 + r)] for a memory that
    occurs once, at rank [r] of one source. *)
Theorem fusion_with_empty_sources :
  (forall query limit, _hybrid_rank_results [] [] [] query limit = Ok [])
  /\ (forall (kw sem img : list Memory) (query : string) (limit : Z),
         Forall has_identifier (kw ++ sem ++ img) ->
         exists out,
           _hybrid_rank_results kw sem img query limit = Ok out
           /\ (forall f mid,
                 In f out -> Mem.id (fields f) = Some mid ->
                 0 < hybrid_score f
                 /\ forall r, all_ranks mid query kw sem img = [r] ->
                              hybrid_score f == 1 / (60 + inject_Z r))
           /\ (forall m mid,
                 In m (kw ++ sem ++ img) -> Mem.id m = Some mid ->
                 exists f,
                   Mem.id (fields f) = Some mid
                   /\ 0 < hybrid_score f
                   /\ hybrid_score f
                      == rrf_sum (all_ranks mid query kw sem img)
                   /\ (forall limit',
                         (Z.of_nat (List.length (distinct_ids kw sem img))
                          <= limit')%Z ->
                         exists out',
                           _hybrid_rank_results kw sem img query limit'
                           = Ok out'
                           /\ In f out')
                   /\ (In f out
                       \/ forall g, In g out ->
                                    hybrid_score f <= hybrid_score g))).
Proof.
  split; [exact fusion_of_nothing|].
  intros kw sem img query limit Hids.
  destruct (fusion_dict query kw sem img Hids)
    as (d & Hres & Hnd & Hlookup & Hkeys).
  eexists. split; [apply Hres|]. split.
  - intros f mid Hin Hid.
    destruct (fusion_entry _ _ _ _ _ _ _ (Hres limit) Hin) as (k & Hid' & Hacc).
    assert (k = mid) by congruence. subst k.
    pose proof (accumulator_hybrid _ _ _ _ _ _ Hacc) as Hsum.
    rewrite rrf_total_all_ranks in Hsum. split.
    + rewrite Hsum. apply rrf_sum_pos; [apply all_ranks_pos|].
      now apply (accumulator_ranks _ _ _ _ _ f).
    + intros r Hr. rewrite Hsum, Hr. unfold rrf_sum. simpl. ring.
  - intros m mid Hm Hid.
    destruct (fusion_candidate_ranked query kw sem img d m mid
                Hnd Hlookup Hkeys Hm Hid) as (f & Hin & Hfid & Hpos & Hscore).
    pose proof (fused_dict_size kw sem img d Hnd Hkeys) as Hsize.
    pose proof (sorted_desc_sorted hybrid_score (values d)) as Hsorted.
    set (ranking := sorted_desc hybrid_score (values d)) in *.
    exists f. split; [exact Hfid|]. split; [exact Hpos|].
    split; [exact Hscore|]. split.
    + intros limit' Hbig. eexists. split; [apply Hres|]. fold ranking.
      rewrite slice_to_nonneg by lia. now rewrite firstn_all2 by lia.
    + destruct (slice_to_split limit ranking) as [rest Hsplit].
      rewrite Hsplit in Hin, Hsorted.
      apply in_app_or in Hin. destruct Hin as [Hin|Hin]; [now left|].
      right. intros g Hg.
      exact (desc_by_split _ _ _ Hsorted g f Hg Hin).
Qed.

(** Only the image source answers, with one candidate: it is returned,
    scored [1 / 61]. *)
Lemma fusion_with_empty_sources_witness :
  exists f,
    _hybrid_rank_results [] [] [M3_image] "apple" 10 = Ok [f]
    /\ Mem.id (fields f) = Some 3%Z
    /\ hybrid_score f == 1 # 61.
Proof.
  destruct fusion_with_empty_sources as [_ Hsome].
  destruct (Hsome [] [] [M3_image] "apple" 10%Z)
    as (out & Hout & _ & Hall).
  - repeat constructor; discriminate.
  - destruct (Hall M3_image 3%Z ltac:(simpl; tauto) eq_refl)
      as (f & Hid & _ & Hscore & Hfull & _).
    destruct (Hfull 10%Z ltac:(vm_compute; discriminate))
      as (out' & Hout' & Hin).
    assert (Hone : exists g, out' = [g]).
    { vm_compute in Hout'. injection Hout' as <-. now eexists. }
    destruct Hone as [g ->].
    destruct Hin as [->|[]].
    exists f. split; [exact Hout'|]. split; [exact Hid|].
    rewrite Hscore. vm_compute. reflexivity.
Defined.

(** ** The handlers, opened *)

Lemma search_memories_trace (w : World) (user_id : Z) (query : string)
    (limit : Z) (search_type : string) (memory_type memory_types : option string) :
  fst (search_memories w user_id query limit search_type memory_type memory_types)
  = fst (search_keyword_stage w search_type)
    ++ fst (search_semantic_stage w user_id search_type)
    ++ fst (search_image_stage w user_id search_type).
Proof.
  unfold search_memories, search_memories_body.
  destruct (search_keyword_stage w search_type) as [tr1 kw].
  destruct (search_semantic_stage w user_id search_type) as [tr2 sem].
  destruct (search_image_stage w user_id search_type) as [tr3 img].
  reflexivity.
Qed.

Lemma search_memories_outcome (w : World) (user_id : Z) (query : string)
    (limit : Z) (search_type : string) (memory_type memory_types : option string) :
  snd (search_memories w user_id query limit search_type memory_type memory_types)
  = match search_select_types memory_type memory_types with
    | Raise e =>
        Raise (HTTPException 500 ("Hybrid search failed: " ++ exn_str e)%string)
    | Ok (memory_type', selected_types) =>
        let kw := filter_types selected_types
                    (search_keyword_results w search_type) in
        let sem := filter_types selected_types
                     (search_semantic_results w user_id search_type) in
        let img := filter_types selected_types
                     (search_image_results w user_id search_type) in
        match _hybrid_rank_results kw sem img query limit with
        | Raise e =>
            Raise (HTTPException 500 ("Hybrid search failed: " ++ exn_str e)%string)
        | Ok fused =>
            Ok (mkSearchResponse query search_type memory_type' memory_types
                  (map add_image_url fused)
                  (List.length (map add_image_url fused))
                  (mkBreakdown (List.length kw) (List.length sem)
                     (List.length img)))
        end
    end.
Proof.
  unfold search_memories, search_memories_body, search_keyword_results,
    search_semantic_results, search_image_results.
  destruct (search_keyword_stage w search_type) as [tr1 kw].
  destruct (search_semantic_stage w user_id search_type) as [tr2 sem].
  destruct (search_image_stage w user_id search_type) as [tr3 img].
  cbn [fst snd].
  destruct (search_select_types memory_type memory_types) as [[mt sel]|e];
    cbn [bind]; [|reflexivity].
  destruct (_hybrid_rank_results _ _ _ query limit); reflexivity.
Qed.

Lemma ask_from_memories_outcome (w : World) (user_id : Z) (request : AskRequest) :
  ask_from_memories w user_id request
  = let question := PyStr.strip (req_question request) in
    if PyStr.is_empty question
    then ([], Raise (HTTPException 400 "question is required"))
    else
      match ask_select_types (req_memory_type request)
              (req_memory_types request) with
      | Raise e => ([], Raise e)
      | Ok selected_types =>
          let st := req_search_type request in
          let tr := fst (ask_keyword_stage w st)
                    ++ fst (ask_semantic_stage w user_id st)
                    ++ fst (ask_image_stage w user_id st) in
          let kw := filter_types selected_types (ask_keyword_results w st) in
          let sem := filter_types selected_types
                       (ask_semantic_results w user_id st) in
          let img := filter_types selected_types
                       (ask_image_results w user_id st) in
          match _hybrid_rank_results kw sem img question (req_limit request) with
          | Raise e => (tr, Raise e)
          | Ok fused =>
              (tr ++ [CallGroq],
               match groq_answer w (slice_to (req_limit request) fused) with
               | Ok answer => Ok (mkAskResponse question answer (ids_of fused))
               | Raise e =>
                   Raise (HTTPException 500
                            ("Groq request failed: " ++ exn_str e)%string)
               end)
          end
      end.
Proof.
  unfold ask_from_memories, ask_keyword_results, ask_semantic_results,
    ask_image_results.
  cbv zeta.
  destruct (PyStr.is_empty (PyStr.strip (req_question request))); [reflexivity|].
  destruct (ask_select_types _ _) as [sel|e]; [|reflexivity].
  destruct (ask_keyword_stage w (req_search_type request)) as [tr1 kw].
  destruct (ask_semantic_stage w user_id (req_search_type request)) as [tr2 sem].
  destruct (ask_image_stage w user_id (req_search_type request)) as [tr3 img].
  cbn [fst snd].
  destruct (_hybrid_rank_results _ _ _ _ _); [|reflexivity].
  now rewrite <- !app_assoc.
Qed.

(** ** Records without identifier (C7) *)

(** C7 (amended). A candidate record that lacks the identifier is not
    skipped: [_hybrid_rank_results] raises [KeyError] and the query is
    aborted without results; [search_memories] answers with status 500 and
    [ask_from_memories] lets the [KeyError] escape. *)
Theorem missing_identifier_aborts :
  (forall (kw sem img : list Memory) (query : string) (limit : Z),
      Exists no_identifier (kw ++ sem ++ img) ->
      _hybrid_rank_results kw sem img query limit = Raise (KeyError "id"))
  /\ (forall (w : World) (user_id : Z) (query : string) (limit : Z)
             (search_type : string) (memory_type memory_types : option string)
             (mt : option string) (sel : option (list string)),
         search_select_types memory_type memory_types = Ok (mt, sel) ->
         Exists no_identifier
           (filter_types sel (search_keyword_results w search_type)
            ++ filter_types sel (search_semantic_results w user_id search_type)
            ++ filter_types sel (search_image_results w user_id search_type)) ->
         snd (search_memories w user_id query limit search_type memory_type
                memory_types)
         = Raise (HTTPException 500 "Hybrid search failed: 'id'"))
  /\ (forall (w : World) (user_id : Z) (request : AskRequest)
             (sel : option (list string)),
         PyStr.is_empty (PyStr.strip (req_question request)) = false ->
         ask_select_types (req_memory_type request) (req_memory_types request)
         = Ok sel ->
         Exists no_identifier
           (filter_types sel (ask_keyword_results w (req_search_type request))
            ++ filter_types sel
                 (ask_semantic_results w user_id (req_search_type request))
            ++ filter_types sel
                 (ask_image_results w user_id (req_search_type request))) ->
         snd (ask_from_memories w user_id request) = Raise (KeyError "id")).
Proof.
  split; [|split].
  - intros. now apply fusion_raises.
  - intros w user_id query limit st memory_type memory_types mt sel Hsel Hex.
    rewrite search_memories_outcome, Hsel. cbv zeta.
    now rewrite (fusion_raises _ _ _ _ _ Hex).
  - intros w user_id request sel Hq Hsel Hex.
    rewrite ask_from_memories_outcome. cbv zeta. rewrite Hq, Hsel.
    now rewrite (fusion_raises _ _ _ _ _ Hex).
Qed.

(** The keyword source returns a record without id in front of [M1]. *)
Lemma missing_identifier_aborts_witness :
  snd (search_memories (keyword_world [anonymous_apple; M1]) 7 "apple" 10
         "keyword" None None)
  = Raise (HTTPException 500 "Hybrid search failed: 'id'")
  /\ snd (ask_from_memories (keyword_world [anonymous_apple; M1]) 7 ask_apple)
     = Raise (KeyError "id").
Proof.
  destruct missing_identifier_aborts as (_ & Hsearch & Hask). split.
  - apply (Hsearch _ _ _ _ _ _ _ None None); [reflexivity|].
    vm_compute. left. reflexivity.
  - apply (Hask _ _ _ None); [reflexivity | reflexivity |].
    vm_compute. left. reflexivity.
Defined.

(** The claim as first stated fails: the record without id is not skipped,
    and the well-formed [M1] behind it is not returned. *)
Lemma missing_identifier_counterexample :
  snd (search_memories (keyword_world [anonymous_apple; M1]) 7 "apple" 10
         "keyword" None None)
  = Raise (HTTPException 500 "Hybrid search failed: 'id'")
  /\ forall response,
       snd (search_memories (keyword_world [anonymous_apple; M1]) 7 "apple" 10
              "keyword" None None)
       <> Ok response.
Proof.
  assert (H : snd (search_memories (keyword_world [anonymous_apple; M1]) 7
                     "apple" 10 "keyword" None None)
              = Raise (HTTPException 500 "Hybrid search failed: 'id'"))
    by (vm_compute; reflexivity).
  split; [exact H|]. intros response. rewrite H. discriminate.
Qed.

(** ** The breakdown (C8) *)

(** C8 (amended). The breakdown reports, for each source, the length of
    that source's candidate list as it is passed to fusion, that is after
    the type filter when one is selected; without a type filter the keyword
    count is the number of records the keyword source returned. *)
Theorem breakdown_counts_fusion_inputs (w : World) (user_id : Z)
    (query : string) (limit : Z) (search_type : string)
    (memory_type memory_types : option string) (response : SearchResponse) :
  snd (search_memories w user_id query limit search_type memory_type memory_types)
  = Ok response ->
  exists sel,
    search_select_types memory_type memory_types
    = Ok (resp_memory_type response, sel)
    /\ keyword_matches (breakdown response)
       = List.length (filter_types sel (search_keyword_results w search_type))
    /\ semantic_matches (breakdown response)
       = List.length
           (filter_types sel (search_semantic_results w user_id search_type))
    /\ image_matches (breakdown response)
       = List.length
           (filter_types sel (search_image_results w user_id search_type))
    /\ (memory_type = None -> memory_types = None ->
        forall found,
          PyStr.mem search_type ["hybrid"; "keyword"] = true ->
          advanced_search_memories w = Ok found ->
          keyword_matches (breakdown response) = List.length found).
Proof.
  rewrite search_memories_outcome.
  destruct (search_select_types memory_type memory_types) as [[mt sel]|e] eqn:Hsel;
    [|discriminate].
  cbv zeta. destruct (_hybrid_rank_results _ _ _ query limit); [|discriminate].
  intros [= <-]. exists sel.
  cbn [breakdown keyword_matches semantic_matches image_matches resp_memory_type].
  repeat split.
  intros -> -> found Hst Hfound. injection Hsel as _ <-.
  unfold filter_types, search_keyword_results, search_keyword_stage.
  now rewrite Hst, Hfound.
Qed.

Lemma breakdown_counts_fusion_inputs_witness :
  exists response,
    snd (search_memories (keyword_world [X_image; M1]) 7 "apple" 10 "keyword"
           None None)
    = Ok response
    /\ keyword_matches (breakdown response) = 2%nat.
Proof.
  eexists. split; [vm_compute; reflexivity|].
  lazymatch goal with
  | |- keyword_matches (breakdown ?r) = _ =>
      destruct (breakdown_counts_fusion_inputs (keyword_world [X_image; M1]) 7
                  "apple" 10 "keyword" None None r
                  ltac:(vm_compute; reflexivity))
        as (sel & _ & _ & _ & _ & Hraw)
  end.
  apply (Hraw eq_refl eq_refl [X_image; M1]); reflexivity.
Defined.

(** The claim as first stated fails under a type filter: the keyword
    source returns two records and the breakdown counts one. *)
Lemma breakdown_counterexample :
  exists response,
    snd (search_memories (keyword_world [X_image; M1]) 7 "apple" 10 "keyword"
           (Some "text") None)
    = Ok response
    /\ advanced_search_memories (keyword_world [X_image; M1]) = Ok [X_image; M1]
    /\ keyword_matches (breakdown response) = 1%nat
    /\ keyword_matches (breakdown response) <> List.length [X_image; M1].
Proof.
  eexists. split; [vm_compute; reflexivity|].
  split; [reflexivity|]. split; [reflexivity|]. discriminate.
Qed.

(** ** Filtering before fusion (C6) *)

(** A returned record copies the id and the type tag of a candidate. *)
Lemma fusion_entry_origin (query : string) (kw sem img : list Memory)
    (limit : Z) (out : list Fused) (f : Fused) :
  _hybrid_rank_results kw sem img query limit = Ok out ->
  In f out ->
  exists m, In m (kw ++ sem ++ img)
            /\ Mem.id m = Mem.id (fields f)
            /\ Mem.type m = Mem.type (fields f).
Proof.
  intros Hok Hin.
  destruct (fusion_entry _ _ _ _ _ _ _ Hok Hin) as (k & _ & Hacc).
  destruct (acc_fold_identity _ _ _ _ Hacc)
    as [(f0 & [=] & _)|[_ (c & Hc & _ & Hid & Hty)]].
  apply (all_calls_memories query kw sem img
           (fun i t => i = Mem.id (fields f) /\ t = Mem.type (fields f))).
  exists c. auto.
Qed.

Lemma filter_types_selected (sel : option (list string)) (l : list Memory)
    (m : Memory) (types : list string) :
  In m (filter_types sel l) -> sel = Some types ->
  exists t, Mem.type m = Some t /\ PyStr.mem t types = true.
Proof.
  intros Hin ->. simpl in Hin. apply filter_In in Hin.
  destruct Hin as [_ Hsel]. unfold type_selected in Hsel.
  destruct (Mem.type m) as [t|]; [eauto | discriminate].
Qed.

Lemma fused_types_allowed (sel : option (list string)) (query : string)
    (kw sem img : list Memory) (limit : Z) (out : list Fused) (f : Fused) :
  _hybrid_rank_results (filter_types sel kw) (filter_types sel sem)
    (filter_types sel img) query limit = Ok out ->
  In f out -> type_allowed sel f.
Proof.
  intros Hok Hin types Hsel.
  destruct (fusion_entry_origin _ _ _ _ _ _ _ Hok Hin) as (m & Hm & _ & Hty).
  rewrite <- Hty. rewrite !in_app_iff in Hm.
  destruct Hm as [Hm|[Hm|Hm]]; eapply filter_types_selected; eauto.
Qed.

Lemma add_image_url_keeps (f : Fused) :
  fields (add_image_url f) = fields f
  /\ hybrid_score (add_image_url f) = hybrid_score f
  /\ match_types (add_image_url f) = match_types f.
Proof.
  unfold add_image_url.
  destruct (Mem.type (fields f)) as [t|]; [|auto].
  destruct (String.eqb_spec t "image") as [->|Hne].
  - destruct (Mem.metadata_filename (fields f)) as [fname|]; [|auto].
    destruct (PyStr.is_empty fname); auto.
  - repeat (match goal with
            | |- context [match ?x with _ => _ end] => destruct x; auto
            end).
Qed.

(** One text record behind a record of another type, under the filter
    [text]. *)
Lemma fusion_of_one (Y : Memory) (y : Z) (query : string) (limit : Z) :
  Mem.id Y = Some y -> (1 <= limit)%Z ->
  exists f,
    _hybrid_rank_results [Y] [] [] query limit = Ok [f]
    /\ Mem.id (fields f) = Some y
    /\ match_types f = [keyword]
    /\ hybrid_score f == 1 # 61.
Proof.
  intros Hid Hlimit.
  assert (Hids : Forall has_identifier ([Y] ++ [] ++ [])).
  { repeat constructor. unfold has_identifier. congruence. }
  destruct (fusion_dict query [Y] [] [] Hids) as (d & Hres & Hnd & Hlook & Hkeys).
  assert (Hsize : List.length (sorted_desc hybrid_score (values d)) = 1%nat).
  { rewrite (fused_dict_size [Y] [] [] d Hnd Hkeys).
    unfold distinct_ids. simpl. now rewrite Hid. }
  destruct (sorted_desc hybrid_score (values d)) as [|f [|g rest]] eqn:Hsorted;
    try discriminate.
  assert (Hout : _hybrid_rank_results [Y] [] [] query limit = Ok [f]).
  { rewrite Hres, slice_to_nonneg by lia.
    destruct (Z.to_nat limit) as [|n] eqn:Hn; [lia|]. simpl.
    now rewrite firstn_nil. }
  exists f. split; [exact Hout|].
  destruct (fusion_entry _ _ _ _ _ _ f Hout ltac:(now left)) as (k & Hk & Hacc).
  destruct (fusion_entry_origin _ _ _ _ _ _ f Hout ltac:(now left))
    as (m & [<-|[]] & Hm & _).
  assert (k = y) by congruence. subst k.
  assert (Hhas : has_id y Y = true).
  { unfold has_id. rewrite Hid. apply Z.eqb_refl. }
  split; [exact Hk|]. split.
  - rewrite (accumulator_types _ _ _ _ _ _ Hacc). unfold occurrences. simpl.
    now rewrite Hhas.
  - rewrite (accumulator_hybrid _ _ _ _ _ _ Hacc).
    unfold rrf_total, occurrence_ranks, keyword_ranked, similarity_ranked.
    simpl. rewrite Hhas. reflexivity.
Qed.

Lemma keyword_only_candidates (w : World) (user_id : Z) (found : list Memory) :
  advanced_search_memories w = Ok found ->
  search_keyword_results w "keyword" = found
  /\ search_semantic_results w user_id "keyword" = []
  /\ search_image_results w user_id "keyword" = [].
Proof.
  intros Hfound.
  unfold search_keyword_results, search_semantic_results, search_image_results,
    search_keyword_stage, search_semantic_stage, search_image_stage.
  change (PyStr.mem "keyword" ["hybrid"; "keyword"]) with true.
  change (PyStr.mem "keyword" ["hybrid"; "semantic"]) with false.
  change (PyStr.mem "keyword" ["hybrid"; "image"]) with false.
  cbv iota. now rewrite Hfound.
Qed.

(** C6. When a type filter is selected both handlers filter the three
    candidate lists before they call fusion: the results are the fusion of
    the filtered lists, every result has a selected type, and its
    [hybrid_score] sums the ranks of the filtered lists only.  A keyword list
    [X; Y] with [X] an image and [Y] a text, under the filter [text], yields
    [Y] alone, at keyword rank 1. *)
Theorem filter_before_fusion :
  (forall (w : World) (user_id : Z) (query : string) (limit : Z)
          (search_type : string) (memory_type memory_types : option string)
          (response : SearchResponse),
      snd (search_memories w user_id query limit search_type memory_type
             memory_types) = Ok response ->
      exists sel fused,
        search_select_types memory_type memory_types
        = Ok (resp_memory_type response, sel)
        /\ _hybrid_rank_results
             (filter_types sel (search_keyword_results w search_type))
             (filter_types sel (search_semantic_results w user_id search_type))
             (filter_types sel (search_image_results w user_id search_type))
             query limit = Ok fused
        /\ memories response = map add_image_url fused
        /\ forall f, In f (memories response) ->
             type_allowed sel f
             /\ exists mid,
                  Mem.id (fields f) = Some mid
                  /\ hybrid_score f
                     == rrf_total mid query
                          (filter_types sel (search_keyword_results w search_type))
                          (filter_types sel
                             (search_semantic_results w user_id search_type))
                          (filter_types sel
                             (search_image_results w user_id search_type)))
  /\ (forall (w : World) (user_id : Z) (request : AskRequest)
             (response : AskResponse),
         snd (ask_from_memories w user_id request) = Ok response ->
         exists sel fused,
           ask_select_types (req_memory_type request) (req_memory_types request)
           = Ok sel
           /\ _hybrid_rank_results
                (filter_types sel
                   (ask_keyword_results w (req_search_type request)))
                (filter_types sel
                   (ask_semantic_results w user_id (req_search_type request)))
                (filter_types sel
                   (ask_image_results w user_id (req_search_type request)))
                (PyStr.strip (req_question request)) (req_limit request)
              = Ok fused
           /\ ans_memory_ids response = ids_of fused
           /\ forall f, In f fused -> type_allowed sel f)
  /\ (forall (w : World) (user_id : Z) (query : string) (limit : Z)
             (X Y : Memory) (y : Z),
         advanced_search_memories w = Ok [X; Y] ->
         Mem.type X = Some "image" -> Mem.type Y = Some "text" ->
         Mem.id Y = Some y -> (1 <= limit)%Z ->
         exists response f,
           snd (search_memories w user_id query limit "keyword" (Some "text")
                  None) = Ok response
           /\ memories response = [f]
           /\ Mem.id (fields f) = Some y
           /\ match_types f = [keyword]
           /\ hybrid_score f == 1 # 61).
Proof.
  split; [|split].
  - intros w user_id query limit st mt mts response.
    rewrite search_memories_outcome.
    destruct (search_select_types mt mts) as [[mt' sel]|e]; [|discriminate].
    cbv zeta.
    destruct (_hybrid_rank_results _ _ _ query limit) as [fused|e] eqn:Hfused;
      [|discriminate].
    intros [= <-]. exists sel, fused. cbn [resp_memory_type memories].
    split; [reflexivity|]. split; [exact Hfused|]. split; [reflexivity|].
    intros f Hf. apply in_map_iff in Hf. destruct Hf as (g & <- & Hg).
    split.
    + intros types Hsel. destruct (add_image_url_keeps g) as (-> & _).
      exact (fused_types_allowed _ _ _ _ _ _ _ _ Hfused Hg types Hsel).
    + destruct (add_image_url_keeps g) as (-> & -> & _).
      destruct (fusion_entry _ _ _ _ _ _ _ Hfused Hg) as (k & Hk & Hacc).
      exists k. split; [exact Hk | now apply accumulator_hybrid].
  - intros w user_id request response.
    rewrite ask_from_memories_outcome. cbv zeta.
    destruct (PyStr.is_empty _); [discriminate|].
    destruct (ask_select_types _ _) as [sel|e]; [|discriminate].
    destruct (_hybrid_rank_results _ _ _ _ _) as [fused|e] eqn:Hfused;
      [|discriminate].
    cbn [snd]. destruct (groq_answer w _); [|discriminate].
    intros [= <-]. exists sel, fused. cbn [ans_memory_ids].
    split; [reflexivity|]. split; [exact Hfused|]. split; [reflexivity|].
    intros f Hf. exact (fused_types_allowed _ _ _ _ _ _ _ _ Hfused Hf).
  - intros w user_id query limit X Y y Hfound HX HY Hid Hlimit.
    destruct (keyword_only_candidates w user_id _ Hfound) as (Hkw & Hsem & Himg).
    destruct (fusion_of_one Y y query limit Hid Hlimit)
      as (f & Hout & Hfid & Htypes & Hscore).
    rewrite search_memories_outcome.
    change (search_select_types (Some "text") None)
      with (Ok (A := option string * option (list string))
              (Some "text", Some ["text"])).
    cbv zeta. rewrite Hkw, Hsem, Himg.
    assert (Hfilter : filter_types (Some ["text"]) [X; Y] = [Y]).
    { simpl. unfold type_selected. now rewrite HX, HY. }
    rewrite Hfilter. change (filter_types (Some ["text"]) []) with (@nil Memory).
    rewrite Hout. eexists. exists (add_image_url f).
    split; [reflexivity|]. cbn [memories map].
    destruct (add_image_url_keeps f) as (-> & -> & ->). auto.
Qed.

Lemma filter_before_fusion_witness :
  exists response f,
    snd (search_memories (keyword_world [X_image; M1]) 7 "apple" 10 "keyword"
           (Some "text") None) = Ok response
    /\ memories response = [f]
    /\ Mem.id (fields f) = Some 1%Z
    /\ match_types f = [keyword]
    /\ hybrid_score f == 1 # 61.
Proof.
  destruct filter_before_fusion as (_ & _ & Hexample).
  apply (Hexample (keyword_world [X_image; M1]) 7%Z "apple" 10%Z X_image M1 1%Z);
    try reflexivity.
  lia.
Defined.

(** ** Validation of the type filter and of the search type (C2) *)

Lemma parsed_types_invalid (ts : list string) (t : string) :
  In t ts -> PyStr.is_empty (PyStr.strip t) = false -> known_type t = false ->
  let parsed :=
    map (fun t => PyStr.lower (PyStr.strip t))
        (filter (fun t => negb (PyStr.is_empty (PyStr.strip t))) ts) in
  parsed <> []
  /\ existsb (fun t => negb (PyStr.mem t allowed_types)) parsed = true.
Proof.
  intros Hin Hblank Hunknown parsed.
  assert (Hp : In (normalise t) parsed).
  { unfold parsed, normalise.
    apply (in_map (fun t => PyStr.lower (PyStr.strip t))), filter_In.
    split; [exact Hin | now rewrite Hblank]. }
  split.
  - intros Hnil. rewrite Hnil in Hp. contradiction.
  - apply existsb_exists. exists (normalise t). split; [exact Hp|].
    unfold known_type in Hunknown. now rewrite Hunknown.
Qed.

Lemma ask_select_types_invalid (mt : option string) (mts : option (list string)) :
  ask_filter_invalid mt mts ->
  exists detail,
    ask_select_types mt mts = Raise (HTTPException 400 detail)
    /\ (detail = "Invalid memory_type" \/ detail = "Invalid memory_types").
Proof.
  unfold ask_filter_invalid, ask_select_types.
  destruct mt as [t|].
  - intros Hunknown. unfold known_type, normalise in Hunknown.
    rewrite Hunknown. simpl. eauto.
  - destruct mts as [ts|]; [|contradiction].
    intros (t & Hin & Hblank & Hunknown).
    destruct (parsed_types_invalid ts t Hin Hblank Hunknown) as [Hne Hex].
    cbv zeta in Hne, Hex.
    destruct (map _ (filter _ ts)) as [|p ps]; [congruence|].
    rewrite Hex. eauto.
Qed.

Lemma unknown_search_type (st : string) :
  known_search_type st = false ->
  PyStr.mem st ["hybrid"; "keyword"] = false
  /\ PyStr.mem st ["hybrid"; "semantic"] = false
  /\ PyStr.mem st ["hybrid"; "image"] = false.
Proof.
  unfold known_search_type, PyStr.mem. simpl.
  rewrite !orb_false_iff. intros (-> & -> & -> & -> & _). auto.
Qed.

Lemma filter_types_nil (sel : option (list string)) : filter_types sel [] = [].
Proof. now destruct sel. Qed.

(** C2 (amended). [ask_from_memories] rejects a type filter outside
    [text], [image], [voice] with status 400, before any call to a candidate
    source; the message names the parameter, unless the question is blank,
    when it is the message of the question check.  A search type outside
    [hybrid], [keyword], [semantic], [image] is not rejected by either
    handler: on a request that is otherwise accepted no candidate source is
    called and fusion runs on three empty lists. *)
Theorem type_filter_validation :
  (forall (w : World) (user_id : Z) (request : AskRequest),
      ask_filter_invalid (req_memory_type request) (req_memory_types request) ->
      exists detail,
        ask_from_memories w user_id request
        = ([], Raise (HTTPException 400 detail))
        /\ (PyStr.is_empty (PyStr.strip (req_question request)) = true ->
            detail = "question is required")
        /\ (PyStr.is_empty (PyStr.strip (req_question request)) = false ->
            detail = "Invalid memory_type" \/ detail = "Invalid memory_types"))
  /\ (forall (w : World) (user_id : Z) (query : string) (limit : Z)
             (search_type : string) (memory_type memory_types : option string)
             (mt : option string) (sel : option (list string)),
         known_search_type search_type = false ->
         search_select_types memory_type memory_types = Ok (mt, sel) ->
         search_memories w user_id query limit search_type memory_type
           memory_types
         = ([], Ok (mkSearchResponse query search_type mt memory_types [] 0
                      (mkBreakdown 0 0 0))))
  /\ (forall (w : World) (user_id : Z) (request : AskRequest)
             (sel : option (list string)),
         known_search_type (req_search_type request) = false ->
         PyStr.is_empty (PyStr.strip (req_question request)) = false ->
         ask_select_types (req_memory_type request) (req_memory_types request)
         = Ok sel ->
         retrievals (fst (ask_from_memories w user_id request)) = []
         /\ forall detail,
              snd (ask_from_memories w user_id request)
              <> Raise (HTTPException 400 detail)).
Proof.
  split; [|split].
  - intros w user_id request Hinvalid.
    rewrite ask_from_memories_outcome. cbv zeta.
    destruct (PyStr.is_empty (PyStr.strip (req_question request))) eqn:Hq.
    + exists "question is required"%string.
      split; [reflexivity|]. split; [reflexivity | discriminate].
    + destruct (ask_select_types_invalid _ _ Hinvalid) as (detail & Hsel & Hd).
      exists detail. rewrite Hsel.
      split; [reflexivity|]. split; [discriminate | intros _; exact Hd].
  - intros w user_id query limit st memory_type memory_types mt sel Hst Hsel.
    destruct (unknown_search_type st Hst) as (Hk & Hs & Hi).
    rewrite (surjective_pairing (search_memories _ _ _ _ _ _ _)).
    rewrite search_memories_trace, search_memories_outcome, Hsel.
    unfold search_keyword_results, search_semantic_results, search_image_results,
      search_keyword_stage, search_semantic_stage, search_image_stage.
    rewrite Hk, Hs, Hi. cbn [fst snd app]. cbv zeta.
    rewrite filter_types_nil, fusion_of_nothing. reflexivity.
  - intros w user_id request sel Hst Hq Hsel.
    destruct (unknown_search_type _ Hst) as (Hk & Hs & Hi).
    rewrite ask_from_memories_outcome. cbv zeta. rewrite Hq, Hsel.
    unfold ask_keyword_results, ask_semantic_results, ask_image_results,
      ask_keyword_stage, ask_semantic_stage, ask_image_stage.
    rewrite Hk, Hs, Hi. cbn [fst snd app].
    rewrite filter_types_nil, fusion_of_nothing. cbn [fst snd].
    split; [reflexivity|].
    intros detail. destruct (groq_answer w _); discriminate.
Qed.

Lemma type_filter_validation_witness :
  ask_from_memories (keyword_world [M1]) 7 ask_video
  = ([], Raise (HTTPException 400 "Invalid memory_type"))
  /\ ask_from_memories (keyword_world [M1]) 7 ask_blank
     = ([], Raise (HTTPException 400 "question is required"))
  /\ search_memories (keyword_world [M1]) 7 "apple" 10 "fuzzy" None None
     = ([], Ok (mkSearchResponse "apple" "fuzzy" None None [] 0
                  (mkBreakdown 0 0 0)))
  /\ retrievals
       (fst (ask_from_memories (keyword_world [M1]) 7
               (mkAskRequest "apple" 8 "fuzzy" None None))) = [].
Proof.
  destruct type_filter_validation as (Hask & Hsearch & Hfuzzy).
  split; [|split; [|split]].
  - destruct (Hask (keyword_world [M1]) 7%Z ask_video eq_refl)
      as (detail & Hres & _).
    rewrite Hres. vm_compute in Hres. now injection Hres as <-.
  - destruct (Hask (keyword_world [M1]) 7%Z ask_blank eq_refl)
      as (detail & Hres & Hblank & _).
    rewrite Hres, (Hblank eq_refl). reflexivity.
  - apply (Hsearch _ _ _ _ _ _ _ None None); reflexivity.
  - apply (Hfuzzy (keyword_world [M1]) 7%Z
             (mkAskRequest "apple" 8 "fuzzy" None None) None);
      reflexivity.
Defined.

(** The claim as first stated fails for the search type: a value outside
    [hybrid], [keyword], [semantic], [image] is not rejected but answered
    with an empty result. *)
Lemma type_filter_counterexample :
  search_memories (keyword_world [M1]) 7 "apple" 10 "fuzzy" None None
  = ([], Ok (mkSearchResponse "apple" "fuzzy" None None [] 0
               (mkBreakdown 0 0 0))).
Proof. vm_compute. reflexivity. Qed.

(** * Further properties of the fusion engine *)

(** ** One result per memory id *)

Lemma ids_of_values (d : list (Z * Fused)) :
  (forall k f, In (k, f) d -> Mem.id (fields f) = Some k) ->
  ids_of (values d) = keys d.
Proof.
  induction d as [|[k f] d IH]; intros H; [reflexivity|].
  simpl. rewrite (H k f) by now left.
  f_equal. apply IH. intros k' f' Hin. apply H. now right.
Qed.

Lemma ids_of_app (l1 l2 : list Fused) :
  ids_of (l1 ++ l2) = ids_of l1 ++ ids_of l2.
Proof.
  induction l1 as [|f l1 IH]; simpl; [reflexivity|].
  destruct (Mem.id (fields f)); simpl; now rewrite IH.
Qed.

Lemma ids_of_perm (l l' : list Fused) :
  Permutation l l' -> Permutation (ids_of l) (ids_of l').
Proof.
  induction 1; simpl.
  - constructor.
  - destruct (Mem.id (fields x)); [now constructor | assumption].
  - destruct (Mem.id (fields x)), (Mem.id (fields y));
      try reflexivity. apply perm_swap.
  - etransitivity; eassumption.
Qed.

Lemma ids_of_in (l : list Fused) (k : Z) :
  In k (ids_of l) <-> exists f, In f l /\ Mem.id (fields f) = Some k.
Proof.
  induction l as [|g l IH]; simpl.
  - split; [contradiction | intros (f & [] & _)].
  - destruct (Mem.id (fields g)) as [i|] eqn:Hi; simpl; rewrite IH; split.
    + intros [<-|(f & Hf & Hk)]; eauto.
    + intros (f & [<-|Hf] & Hk); [left; congruence | eauto].
    + intros (f & Hf & Hk); eauto.
    + intros (f & [<-|Hf] & Hk); [congruence | eauto].
Qed.

Lemma ids_of_length (l : list Fused) :
  (forall f, In f l -> Mem.id (fields f) <> None) ->
  List.length (ids_of l) = List.length l.
Proof.
  induction l as [|f l IH]; intros H; [reflexivity|]. simpl.
  destruct (Mem.id (fields f)) eqn:Hid.
  - simpl. f_equal. apply IH. intros g Hg. apply H. now right.
  - exfalso. apply (H f); [now left | exact Hid].
Qed.

(** The sorted values of the dict of one run, and what they hold. *)
Lemma fusion_ranking (query : string) (kw sem img : list Memory) :
  Forall has_identifier (kw ++ sem ++ img) ->
  exists d,
    (forall limit,
        _hybrid_rank_results kw sem img query limit
        = Ok (slice_to limit (sorted_desc hybrid_score (values d))))
    /\ NoDup (keys d)
    /\ (forall k, lookup k d = accumulator k query kw sem img)
    /\ (forall k, In k (keys d) <-> In k (memory_ids (kw ++ sem ++ img)))
    /\ ids_of (values d) = keys d.
Proof.
  intros H.
  destruct (fusion_dict query kw sem img H) as (d & Hres & Hnd & Hlook & Hkeys).
  exists d. repeat split; try assumption; try apply Hkeys.
  apply ids_of_values. intros k f Hin.
  apply (lookup_in _ _ _ Hnd) in Hin. rewrite Hlook in Hin.
  now apply accumulator_id in Hin.
Qed.

(** Fusion deduplicates by memory id: the returned records carry pairwise
    distinct ids, each the id of some candidate, and with a limit that does
    not truncate every candidate id is returned. *)
Theorem fused_ids_distinct (kw sem img : list Memory) (query : string)
    (limit : Z) (out : list Fused) :
  _hybrid_rank_results kw sem img query limit = Ok out ->
  NoDup (ids_of out)
  /\ List.length (ids_of out) = List.length out
  /\ (forall k, In k (ids_of out) -> In k (memory_ids (kw ++ sem ++ img)))
  /\ ((Z.of_nat (List.length (distinct_ids kw sem img)) <= limit)%Z ->
      forall k, In k (memory_ids (kw ++ sem ++ img)) -> In k (ids_of out)).
Proof.
  intros Hok.
  destruct (fusion_ranking query kw sem img (fusion_ok_ids _ _ _ _ _ _ Hok))
    as (d & Hres & Hnd & Hlook & Hkeys & Hids).
  pose proof (fused_dict_size kw sem img d Hnd Hkeys) as Hsize.
  rewrite Hres in Hok. injection Hok as <-.
  set (ranking := sorted_desc hybrid_score (values d)) in *.
  assert (Hperm : Permutation (ids_of ranking) (keys d)).
  { rewrite <- Hids. apply ids_of_perm, sorted_desc_perm. }
  destruct (slice_to_split limit ranking) as [rest Hsplit].
  assert (Hnd' : NoDup (ids_of (slice_to limit ranking) ++ ids_of rest)).
  { rewrite <- ids_of_app, <- Hsplit.
    eapply Permutation_NoDup; [symmetry; exact Hperm | exact Hnd]. }
  split; [|split; [|split]].
  - eapply NoDup_app_remove_r. exact Hnd'.
  - apply ids_of_length. intros f Hf Hnone.
    destruct (fusion_entry _ _ _ _ limit _ f (Hres limit) Hf) as (k & Hk & _).
    congruence.
  - intros k Hk. apply Hkeys. apply (Permutation_in _ Hperm).
    rewrite Hsplit, ids_of_app. apply in_or_app. now left.
  - intros Hbig k Hk.
    assert (Hall : slice_to limit ranking = ranking).
    { rewrite slice_to_nonneg by lia. apply firstn_all2. lia. }
    rewrite Hall. apply (Permutation_in _ (Permutation_sym Hperm)).
    now apply Hkeys.
Qed.

Lemma fused_ids_distinct_witness :
  exists out,
    _hybrid_rank_results [M1; M2] [M2_semantic; M3_semantic] [] "apple" 10
    = Ok out
    /\ ids_of out = [2; 1; 3]%Z
    /\ NoDup (ids_of out).
Proof.
  eexists. split; [vm_compute; reflexivity|]. split; [reflexivity|].
  eapply (fused_ids_distinct [M1; M2] [M2_semantic; M3_semantic] [] "apple" 10).
  vm_compute. reflexivity.
Defined.

(** ** Ties keep the order of first encounter *)

Lemma has_key_existsb {V : Type} (k : Z) (d : list (Z * V)) :
  has_key k d = existsb (Z.eqb k) (keys d).
Proof.
  induction d as [|[k' v] d IH]; simpl; [reflexivity | now rewrite IH].
Qed.

Lemma filter_filter {A : Type} (p q : A -> bool) (l : list A) :
  filter p (filter q l) = filter (fun x => q x && p x) l.
Proof.
  induction l as [|x l IH]; simpl; [reflexivity|].
  destruct (q x); simpl; [destruct (p x)|]; now rewrite IH.
Qed.

Lemma filter_all {A : Type} (p : A -> bool) (l : list A) :
  (forall x, In x l -> p x = true) -> filter p l = l.
Proof.
  induction l as [|x l IH]; intros H; simpl; [reflexivity|].
  rewrite (H x) by now left. f_equal. apply IH. intros y Hy. apply H. now right.
Qed.

(** The keys of the dict grow by the new ids, in the order of their first
    call. *)
Lemma run_calls_keys (calls : list Call) (d d' : list (Z * Fused)) :
  for_each add_call calls d = Ok d' ->
  keys d' =
  keys d ++ filter (fun j => negb (existsb (Z.eqb j) (keys d)))
              (encounter_order (memory_ids (map call_memory calls))).
Proof.
  revert d. induction calls as [|c calls IH]; intros d Hrun.
  - simpl in Hrun. injection Hrun as <-. simpl. now rewrite app_nil_r.
  - simpl in Hrun. rewrite add_call_eq in Hrun.
    destruct (Mem.id (call_memory c)) as [k|] eqn:Hid; [|discriminate].
    simpl in Hrun. apply IH in Hrun. rewrite Hrun, step_dict_keys.
    simpl. rewrite Hid. simpl. rewrite has_key_existsb, filter_filter.
    destruct (existsb (Z.eqb k) (keys d)) eqn:Hk; simpl.
    + f_equal. apply filter_ext_in. intros j _.
      destruct (Z.eqb_spec j k) as [->|Hne]; simpl; [now rewrite Hk | reflexivity].
    + rewrite <- app_assoc. simpl. do 2 f_equal. apply filter_ext_in. intros j _.
      rewrite existsb_app. simpl. rewrite orb_false_r, negb_orb.
      apply andb_comm.
Qed.

Lemma enumerate_map {A B : Type} (f : A -> B) (l : list A) (start : Z) :
  enumerate start (map f l)
  = map (fun entry => (fst entry, f (snd entry))) (enumerate start l).
Proof.
  revert start. induction l as [|x l IH]; intros start; simpl; [reflexivity|].
  now rewrite IH.
Qed.

Lemma memory_ids_calls (f : Z * Memory -> Call) (l : list Memory) (start : Z) :
  (forall r m, Mem.id (call_memory (f (r, m))) = Mem.id m) ->
  memory_ids (map call_memory (map f (enumerate start l))) = memory_ids l.
Proof.
  intros Hf. revert start. induction l as [|m l IH]; intros start; [reflexivity|].
  simpl. rewrite Hf, IH. reflexivity.
Qed.

Lemma memory_ids_app (l1 l2 : list Memory) :
  memory_ids (l1 ++ l2) = memory_ids l1 ++ memory_ids l2.
Proof.
  induction l1 as [|m l1 IH]; simpl; [reflexivity|].
  destruct (Mem.id m); simpl; now rewrite IH.
Qed.

Lemma fusion_calls_ids (query : string) (kw sem img : list Memory) :
  memory_ids (map call_memory (fusion_calls query kw sem img))
  = fusion_ids query kw sem img.
Proof.
  unfold fusion_calls, all_calls, fusion_ids, similarity_ranked.
  rewrite keyword_sorted_ranked, enumerate_map, !map_app, !memory_ids_app.
  rewrite (map_map _ keyword_call).
  rewrite (memory_ids_calls
             (fun e => keyword_call (fst e, (keyword_key query (snd e), snd e))))
    by reflexivity.
  rewrite (memory_ids_calls semantic_call) by reflexivity.
  rewrite (memory_ids_calls image_call) by reflexivity.
  reflexivity.
Qed.

Lemma precedes_app_l {A : Type} (x y : A) (l l' : list A) :
  precedes x y l -> precedes x y (l ++ l').
Proof.
  intros (l1 & l2 & l3 & ->). exists l1, l2, (l3 ++ l').
  now rewrite <- !app_assoc, <- !app_comm_cons, <- !app_assoc.
Qed.

Lemma precedes_filter {A : Type} (p : A -> bool) (x y : A) (l : list A) :
  precedes x y l -> p x = true -> p y = true -> precedes x y (filter p l).
Proof.
  intros (l1 & l2 & l3 & ->) Hx Hy.
  exists (filter p l1), (filter p l2), (filter p l3).
  rewrite filter_app. simpl. rewrite Hx, filter_app. simpl. now rewrite Hy.
Qed.

Lemma precedes_of_filter {A : Type} (p : A -> bool) (x y : A) (l : list A) :
  precedes x y (filter p l) -> precedes x y l.
Proof.
  intros (f1 & f2 & f3 & H). revert f1 H.
  induction l as [|z l IH]; intros f1 H.
  - destruct f1; discriminate.
  - simpl in H. destruct (p z).
    + destruct f1 as [|w f1]; simpl in H.
      * injection H as <- H.
        assert (Hy : In y l).
        { apply (proj1 (filter_In p y l)). rewrite H.
          apply in_or_app. right. now left. }
        apply in_split in Hy. destruct Hy as (m2 & m3 & ->).
        exists [], m2, m3. reflexivity.
      * injection H as <- H. destruct (IH f1 H) as (l1 & l2 & l3 & ->).
        exists (z :: l1), l2, l3. reflexivity.
    + destruct (IH f1 H) as (l1 & l2 & l3 & ->).
      exists (z :: l1), l2, l3. reflexivity.
Qed.

Lemma precedes_ids_of (a b : Fused) (ia ib : Z) (l : list Fused) :
  precedes a b l ->
  Mem.id (fields a) = Some ia -> Mem.id (fields b) = Some ib ->
  precedes ia ib (ids_of l).
Proof.
  intros (l1 & l2 & l3 & ->) Ha Hb.
  exists (ids_of l1), (ids_of l2), (ids_of l3).
  rewrite ids_of_app. simpl. rewrite Ha, ids_of_app. simpl. now rewrite Hb.
Qed.

(** Tie-breaking.  Of two returned records with the same [hybrid_score]
    the one listed first is the one whose id the loops met first (keyword
    list, then semantic list, then image list, each best first). *)
Theorem ties_keep_encounter_order (kw sem img : list Memory) (query : string)
    (limit : Z) (out : list Fused) (a b : Fused) (ia ib : Z) :
  _hybrid_rank_results kw sem img query limit = Ok out ->
  precedes a b out ->
  hybrid_score a == hybrid_score b ->
  Mem.id (fields a) = Some ia -> Mem.id (fields b) = Some ib ->
  precedes ia ib (encounter_order (fusion_ids query kw sem img)).
Proof.
  intros Hok Hprec Htie Ha Hb.
  pose proof (fusion_ok_ids _ _ _ _ _ _ Hok) as Hids.
  destruct (run_calls_ok (fusion_calls query kw sem img) []
              (fusion_calls_have_ids query kw sem img Hids))
    as (d & Hrun & Hlook & Hnd & _).
  pose proof (run_calls_keys _ _ _ Hrun) as Hkeys.
  simpl in Hkeys. rewrite filter_all, fusion_calls_ids in Hkeys by reflexivity.
  rewrite hybrid_rank_results_calls in Hok.
  fold (fusion_calls query kw sem img) in Hok. rewrite Hrun in Hok.
  injection Hok as <-.
  destruct (slice_to_split limit (sorted_desc hybrid_score (values d)))
    as [rest Hsplit].
  apply (precedes_app_l _ _ _ rest) in Hprec. rewrite <- Hsplit in Hprec.
  set (p := fun f : Fused => Qeq_bool (hybrid_score f) (hybrid_score a)).
  assert (Hpa : p a = true) by (apply Qeq_bool_iff; reflexivity).
  assert (Hpb : p b = true) by (apply Qeq_bool_iff; symmetry; exact Htie).
  apply (precedes_filter p) in Hprec; [|exact Hpa|exact Hpb].
  unfold p in Hprec. rewrite sorted_desc_stable in Hprec.
  apply precedes_of_filter in Hprec.
  rewrite <- Hkeys, <- (ids_of_values d).
  - now apply (precedes_ids_of a b).
  - intros k f Hin. apply (lookup_in _ _ _ (Hnd (NoDup_nil _))) in Hin.
    rewrite Hlook in Hin. now apply (accumulator_id k query kw sem img).
Qed.

(** [M1] (keyword rank 1) and memory 3 (semantic rank 1) tie at 1/61; the
    keyword loop runs first. *)
Lemma ties_keep_encounter_order_witness :
  exists f1 f3 f2,
    _hybrid_rank_results [M1; M2] [M3_semantic] [] "apple" 10 = Ok [f1; f3; f2]
    /\ hybrid_score f1 == hybrid_score f3
    /\ precedes 1%Z 3%Z
         (encounter_order (fusion_ids "apple" [M1; M2] [M3_semantic] [])).
Proof.
  do 3 eexists. split; [vm_compute; reflexivity|]. split; [reflexivity|].
  lazymatch goal with
  | |- precedes _ _ _ =>
      eapply (ties_keep_encounter_order [M1; M2] [M3_semantic] [] "apple" 10
                _ _ _ 1%Z 3%Z ltac:(vm_compute; reflexivity))
  end.
  - eexists [], [], [_]. reflexivity.
  - reflexivity.
  - reflexivity.
  - reflexivity.
Defined.

(** ** Range of the fused score *)

Lemma rrf_term_upper (r : Z) : (1 <= r)%Z -> 1 / (60 + inject_Z r) <= 1 # 61.
Proof.
  intros H. rewrite Zle_Qle in H. change (inject_Z 1) with 1 in H.
  apply Qle_shift_div_r; lra.
Qed.

Lemma rrf_sum_upper (ranks : list Z) :
  Forall (fun r => (1 <= r)%Z) ranks ->
  rrf_sum ranks <= Qnat (List.length ranks) * (1 # 61).
Proof.
  unfold rrf_sum, Qnat. induction 1 as [|r ranks Hr _ IH].
  - compute. discriminate.
  - cbn [fold_right List.length]. rewrite Nat2Z.inj_succ.
    unfold Z.succ. rewrite inject_Z_plus. change (inject_Z 1) with 1.
    pose proof (rrf_term_upper r Hr). lra.
Qed.

Lemma all_ranks_lower (mid : Z) (query : string) (kw sem img : list Memory) :
  Forall (fun r => (1 <= r)%Z) (all_ranks mid query kw sem img).
Proof.
  unfold all_ranks, occurrence_ranks. rewrite !Forall_app.
  repeat split; apply ranks_from_lower.
Qed.

Lemma all_ranks_length (mid : Z) (query : string) (kw sem img : list Memory) :
  List.length (all_ranks mid query kw sem img)
  = (List.length (occurrences mid kw) + List.length (occurrences mid sem)
     + List.length (occurrences mid img))%nat.
Proof.
  rewrite <- fusion_calls_ranks, length_map, <- (length_map call_source).
  rewrite fusion_calls_sources, !length_app, !repeat_length. lia.
Qed.

Lemma occurrences_unique (mid : Z) (l : list Memory) :
  NoDup (memory_ids l) -> (List.length (occurrences mid l) <= 1)%nat.
Proof.
  unfold occurrences. induction l as [|m l IH]; intros Hnd; simpl; [lia|].
  unfold has_id at 1. destruct (Mem.id m) as [i|] eqn:Hid.
  - simpl in Hnd. rewrite Hid in Hnd. inversion Hnd as [|? ? Hnotin Hnd']; subst.
    destruct (Z.eqb_spec i mid) as [->|Hne]; [|auto].
    simpl. assert (Hnone : filter (has_id mid) l = []).
    { clear -Hnotin. induction l as [|m' l IH]; [reflexivity|]. simpl.
      unfold has_id at 1. simpl in Hnotin.
      destruct (Mem.id m') as [j|].
      - destruct (Z.eqb_spec j mid) as [->|Hne].
        + exfalso. apply Hnotin. now left.
        + apply IH. intros H. apply Hnotin. now right.
      - now apply IH. }
    rewrite Hnone. simpl. lia.
  - simpl in Hnd. rewrite Hid in Hnd. auto.
Qed.

(** The fused score of a returned record is positive and at most 1/61 per
    occurrence of its id; when no source lists an id twice it is at most
    3/61. *)
Theorem hybrid_score_range (kw sem img : list Memory) (query : string)
    (limit : Z) (out : list Fused) (f : Fused) (mid : Z) :
  _hybrid_rank_results kw sem img query limit = Ok out ->
  In f out ->
  Mem.id (fields f) = Some mid ->
  0 < hybrid_score f
  /\ hybrid_score f
     <= Qnat (List.length (occurrences mid kw)
              + List.length (occurrences mid sem)
              + List.length (occurrences mid img)) * (1 # 61)
  /\ (NoDup (memory_ids kw) -> NoDup (memory_ids sem) ->
      NoDup (memory_ids img) -> hybrid_score f <= 3 # 61).
Proof.
  intros Hok Hin Hid.
  destruct (fusion_entry _ _ _ _ _ _ _ Hok Hin) as (k & Hid' & Hacc).
  assert (k = mid) by congruence. subst k.
  pose proof (accumulator_hybrid _ _ _ _ _ _ Hacc) as Hsum.
  rewrite rrf_total_all_ranks in Hsum.
  pose proof (rrf_sum_upper _ (all_ranks_lower mid query kw sem img)) as Hup.
  rewrite all_ranks_length in Hup.
  split; [|split].
  - rewrite Hsum. apply rrf_sum_pos; [apply all_ranks_pos|].
    now apply (accumulator_ranks _ _ _ _ _ f).
  - now rewrite Hsum.
  - intros Hk Hs Hi.
    pose proof (occurrences_unique mid kw Hk).
    pose proof (occurrences_unique mid sem Hs).
    pose proof (occurrences_unique mid img Hi).
    rewrite Hsum. eapply Qle_trans; [exact Hup|].
    assert (Hn : Qnat (List.length (occurrences mid kw)
                       + List.length (occurrences mid sem)
                       + List.length (occurrences mid img)) <= 3).
    { unfold Qnat. change 3 with (inject_Z 3). rewrite <- Zle_Qle. lia. }
    lra.
Qed.

Lemma hybrid_score_range_witness :
  exists f2 f1 f3,
    _hybrid_rank_results [M1; M2] [M2_semantic; M3_semantic] [] "apple" 10
    = Ok [f2; f1; f3]
    /\ 0 < hybrid_score f2 /\ hybrid_score f2 <= 3 # 61.
Proof.
  do 3 eexists. split; [vm_compute; reflexivity|].
  lazymatch goal with
  | |- 0 < hybrid_score ?f /\ _ =>
      destruct (hybrid_score_range [M1; M2] [M2_semantic; M3_semantic] []
                  "apple" 10 _ f 2%Z ltac:(vm_compute; reflexivity)
                  ltac:(simpl; tauto) eq_refl)
        as (Hpos & _ & Hmax)
  end.
  split; [exact Hpos|]. apply Hmax; vm_compute; repeat constructor; simpl; intuition discriminate.
Defined.

(** ** The copied keys of a result *)

Lemma acc_fold_filter (k : Z) (calls : list Call) (acc : option Fused) :
  fold_left (acc_step k) calls acc
  = fold_left (acc_step k) (calls_of k calls) acc.
Proof.
  revert acc. induction calls as [|c calls IH]; intros acc; [reflexivity|].
  simpl. destruct (has_id k (call_memory c)) eqn:Hk.
  - simpl. apply IH.
  - unfold acc_step at 2. rewrite Hk. apply IH.
Qed.

Lemma call_update_fields (c : Call) (f : Fused) :
  fields (call_update c f) = apply_extra (fields f) c.
Proof. reflexivity. Qed.

Lemma acc_fold_fields_some (k : Z) (cs : list Call) (f0 : Fused) :
  Forall (fun c => has_id k (call_memory c) = true) cs ->
  exists f, fold_left (acc_step k) cs (Some f0) = Some f
            /\ fields f = fold_left apply_extra cs (fields f0).
Proof.
  intros H. revert f0. induction H as [|c cs Hc _ IH]; intros f0.
  - exists f0. auto.
  - simpl. unfold acc_step at 2. rewrite Hc. simpl get_default.
    destruct (IH (call_update c f0)) as (f & Hf & Hflds).
    exists f. split; [exact Hf|]. now rewrite Hflds, call_update_fields.
Qed.

Lemma acc_fold_fields (k : Z) (c : Call) (cs : list Call) (f : Fused) :
  Forall (fun c => has_id k (call_memory c) = true) (c :: cs) ->
  fold_left (acc_step k) (c :: cs) None = Some f ->
  fields f
  = fold_left apply_extra (c :: cs) (Mem.drop_keyword_score (call_memory c)).
Proof.
  intros H Hf. inversion H as [|? ? Hc Hcs]; subst.
  simpl in Hf. unfold acc_step at 2 in Hf. rewrite Hc in Hf. simpl get_default in Hf.
  destruct (acc_fold_fields_some k cs (call_update c (new_fused (call_memory c))) Hcs)
    as (f' & Hf' & Hflds).
  rewrite Hf' in Hf. injection Hf as <-.
  rewrite Hflds, call_update_fields. reflexivity.
Qed.

Lemma calls_of_all (k : Z) (calls : list Call) :
  Forall (fun c => has_id k (call_memory c) = true) (calls_of k calls).
Proof.
  apply Forall_forall. intros c Hc. now apply filter_In in Hc.
Qed.

Lemma apply_extra_none (cs : list Call) (flds : Memory) :
  Forall (fun c => call_extra c = None) cs ->
  fold_left apply_extra cs flds = flds.
Proof.
  intros H. revert flds. induction H as [|c cs Hc _ IH]; intros flds;
    [reflexivity|].
  simpl. unfold apply_extra at 2. rewrite Hc. apply IH.
Qed.

Lemma keyword_calls_no_extra (query : string) (k : Z) (start : Z)
    (l : list Memory) :
  Forall (fun c => call_extra c = None)
    (calls_of k (map keyword_call
                   (enumerate start (map (fun m => (keyword_key query m, m)) l)))).
Proof.
  apply Forall_forall. intros c Hc. apply filter_In in Hc.
  destruct Hc as [Hc _]. apply in_map_iff in Hc.
  destruct Hc as ([r [s m]] & <- & _). reflexivity.
Qed.

Lemma semantic_calls_no_extra (k : Z) (start : Z) (l : list Memory) :
  Forall (fun c => call_extra c = None)
    (calls_of k (map semantic_call (enumerate start l))).
Proof.
  apply Forall_forall. intros c Hc. apply filter_In in Hc.
  destruct Hc as [Hc _]. apply in_map_iff in Hc.
  destruct Hc as ([r m] & <- & _). reflexivity.
Qed.

(** The image calls leave the path and the file name of the last
    occurrence. *)
Lemma image_calls_extra (k : Z) (start : Z) (l : list Memory) (flds : Memory) :
  fold_left apply_extra (calls_of k (map image_call (enumerate start l))) flds
  = match rev (occurrences k l) with
    | [] => flds
    | m :: _ => Mem.set_image_fields flds (Mem.image_path m) (Mem.filename m)
    end.
Proof.
  revert start flds. induction l as [|m l IH]; intros start flds; [reflexivity|].
  simpl. unfold occurrences in *. simpl.
  destruct (has_id k m) eqn:Hk.
  - simpl. rewrite IH.
    destruct (rev (filter (has_id k) l)) as [|m' ms]; reflexivity.
  - apply IH.
Qed.

(** The memories of the calls for [k] are the occurrences of [k], keyword
    score apart. *)
Lemma fusion_calls_memories (k : Z) (query : string) (kw sem img : list Memory) :
  map Mem.drop_keyword_score
    (map call_memory (calls_of k (fusion_calls query kw sem img)))
  = map Mem.drop_keyword_score
      (occurrences k (ranked_candidates query kw sem img)).
Proof.
  unfold fusion_calls, all_calls, ranked_candidates, occurrences,
    similarity_ranked.
  rewrite keyword_sorted_ranked, !calls_of_app, !filter_app, !map_app.
  f_equal; [|f_equal].
  - generalize 1%Z as start. generalize (keyword_ranked query kw) as l.
    induction l as [|m l IH]; intros start; [reflexivity|].
    simpl. change (has_id k (Mem.set_keyword_score m (keyword_key query m)))
      with (has_id k m).
    destruct (has_id k m); simpl; now rewrite IH.
  - generalize 1%Z as start. generalize (sorted_desc similarity_key sem) as l.
    induction l as [|m l IH]; intros start; [reflexivity|].
    simpl. destruct (has_id k m); simpl; now rewrite IH.
  - generalize 1%Z as start. generalize (sorted_desc similarity_key img) as l.
    induction l as [|m l IH]; intros start; [reflexivity|].
    simpl. destruct (has_id k m); simpl; now rewrite IH.
Qed.

Lemma fusion_calls_extra (k : Z) (query : string) (kw sem img : list Memory)
    (flds : Memory) :
  fold_left apply_extra (calls_of k (fusion_calls query kw sem img)) flds
  = match rev (occurrences k (similarity_ranked img)) with
    | [] => flds
    | m :: _ => Mem.set_image_fields flds (Mem.image_path m) (Mem.filename m)
    end.
Proof.
  unfold fusion_calls, all_calls.
  rewrite keyword_sorted_ranked, !calls_of_app, !fold_left_app.
  rewrite (apply_extra_none _ _ (keyword_calls_no_extra query k 1 _)).
  rewrite (apply_extra_none _ _ (semantic_calls_no_extra k 1 _)).
  apply image_calls_extra.
Qed.

(** A returned record is a copy of the first candidate met for its id,
    without that candidate's own [keyword_score] key; when the id has image
    matches, [image_path] and [filename] are those of the last, that is the
    lowest ranked, image match. *)
Theorem fused_fields_copy (kw sem img : list Memory) (query : string)
    (limit : Z) (out : list Fused) (f : Fused) (mid : Z) (m0 : Memory)
    (rest : list Memory) :
  _hybrid_rank_results kw sem img query limit = Ok out ->
  In f out ->
  Mem.id (fields f) = Some mid ->
  occurrences mid (ranked_candidates query kw sem img) = m0 :: rest ->
  (occurrences mid (similarity_ranked img) = [] ->
   fields f = Mem.drop_keyword_score m0)
  /\ (forall pre m,
         occurrences mid (similarity_ranked img) = pre ++ [m] ->
         fields f = Mem.set_image_fields (Mem.drop_keyword_score m0)
                      (Mem.image_path m) (Mem.filename m)).
Proof.
  intros Hok Hin Hid Hfirst.
  destruct (fusion_entry _ _ _ _ _ _ _ Hok Hin) as (k & Hid' & Hacc).
  assert (k = mid) by congruence. subst k.
  unfold accumulator in Hacc. rewrite acc_fold_filter in Hacc.
  pose proof (fusion_calls_memories mid query kw sem img) as Hmems.
  rewrite Hfirst in Hmems.
  pose proof (calls_of_all mid (fusion_calls query kw sem img)) as Hall.
  pose proof (fusion_calls_extra mid query kw sem img) as Hextra.
  destruct (calls_of mid (fusion_calls query kw sem img)) as [|c cs];
    [discriminate|].
  cbn [map] in Hmems.
  pose proof (f_equal (hd (Mem.drop_keyword_score m0)) Hmems) as Hm0.
  cbn [hd] in Hm0.
  rewrite (acc_fold_fields mid c cs f Hall Hacc), Hextra, Hm0.
  split.
  - intros ->. reflexivity.
  - intros pre m ->. rewrite rev_app_distr. reflexivity.
Qed.

(** Memory 1 as keyword candidate and as image candidate with a stored
    file. *)
Lemma fused_fields_copy_witness :
  exists f,
    _hybrid_rank_results [M1] [] [M1_image] "apple" 10 = Ok [f]
    /\ Mem.filename (fields f) = Some "pie.jpg"
    /\ Mem.type (fields f) = Some "text".
Proof.
  eexists. split; [vm_compute; reflexivity|].
  lazymatch goal with
  | |- Mem.filename (fields ?f) = _ /\ _ =>
      destruct (fused_fields_copy [M1] [] [M1_image] "apple" 10 [f] f 1%Z
                  M1 [M1_image] ltac:(vm_compute; reflexivity)
                  ltac:(simpl; tauto) eq_refl ltac:(vm_compute; reflexivity))
        as [_ Himage]
  end.
  rewrite (Himage [] M1_image eq_refl). split; reflexivity.
Defined.

(** * Further properties of the keyword scorer *)

(** ** Substrings *)

Lemma string_app_assoc (a b c : string) :
  ((a ++ b) ++ c)%string = (a ++ (b ++ c))%string.
Proof.
  induction a as [|x a IH]; simpl; [reflexivity | now rewrite IH].
Qed.

Lemma string_app_nil_r (a : string) : (a ++ "")%string = a.
Proof.
  induction a as [|x a IH]; simpl; [reflexivity | now rewrite IH].
Qed.

Lemma string_of_list_app (l l' : list ascii) :
  string_of_list_ascii (l ++ l')
  = (string_of_list_ascii l ++ string_of_list_ascii l')%string.
Proof.
  induction l as [|x l IH]; simpl; [reflexivity | now rewrite IH].
Qed.

Lemma prefix_app (t s : string) :
  prefix t s = true <-> exists post, s = (t ++ post)%string.
Proof.
  revert s. induction t as [|x t IH]; intros s; simpl.
  - split; [intros _; now exists s | now destruct s].
  - destruct s as [|y s]; simpl.
    + split; [discriminate | intros (post & H); discriminate].
    + destruct (ascii_dec x y) as [->|Hne].
      * rewrite IH. split; intros (post & H); exists post; congruence.
      * split; [discriminate | intros (post & H); congruence].
Qed.

Lemma find_eq (t s : string) :
  PyStr.find t s =
  if prefix t s then Some 0%nat
  else match s with
       | EmptyString => None
       | String _ s' => option_map S (PyStr.find t s')
       end.
Proof. destruct s; reflexivity. Qed.

Lemma find_some_iff (t s : string) :
  (exists i, PyStr.find t s = Some i)
  <-> exists pre post, s = (pre ++ t ++ post)%string.
Proof.
  split.
  - induction s as [|c s IH]; rewrite find_eq.
    + destruct (prefix t "") eqn:Hp; [|intros (i & H); discriminate].
      intros _. apply prefix_app in Hp. destruct Hp as (post & Hp).
      now exists ""%string, post.
    + destruct (prefix t (String c s)) eqn:Hp.
      * intros _. apply prefix_app in Hp. destruct Hp as (post & Hp).
        now exists ""%string, post.
      * intros (i & H). destruct (PyStr.find t s) as [j|]; [|discriminate].
        destruct IH as (pre & post & ->); [eauto|].
        now exists (String c pre), post.
  - intros (pre & post & ->). induction pre as [|c pre IH]; rewrite find_eq.
    + assert (Hp : prefix t ("" ++ t ++ post) = true).
      { apply prefix_app. exists post. reflexivity. }
      rewrite Hp. eauto.
    + destruct (prefix t (String c pre ++ t ++ post)); [eauto|].
      destruct IH as (i & Hi). simpl. rewrite Hi. simpl. eauto.
Qed.

Lemma contains_iff (t s : string) :
  PyStr.contains t s = true
  <-> exists pre post, s = (pre ++ t ++ post)%string.
Proof.
  rewrite <- find_some_iff. unfold PyStr.contains.
  destruct (PyStr.find t s); split; eauto; try discriminate.
  intros (i & H). discriminate.
Qed.

(** Every word of [split] is a piece of the text. *)
Lemma split_aux_substring (cur : list ascii) (s w : string) :
  In w (PyStr.split_aux cur s) ->
  exists pre post,
    (PyStr.rev_string cur ++ s)%string = (pre ++ w ++ post)%string.
Proof.
  revert cur. induction s as [|c s IH]; intros cur; simpl.
  - destruct cur as [|x cur]; [contradiction|].
    intros [<-|[]]. exists ""%string, ""%string.
    simpl. now rewrite !string_app_nil_r.
  - assert (Hshift : forall l,
               (PyStr.rev_string (c :: l) ++ s)%string
               = (PyStr.rev_string l ++ String c s)%string).
    { intros l. unfold PyStr.rev_string. simpl.
      now rewrite string_of_list_app, string_app_assoc. }
    destruct (PyStr.is_space c).
    + destruct cur as [|x cur].
      * intros Hw. destruct (IH [] Hw) as (pre & post & H).
        simpl in H. exists (String c pre), post. simpl. now rewrite H.
      * intros [<-|Hw].
        -- exists ""%string, (String c s). reflexivity.
        -- destruct (IH [] Hw) as (pre & post & H). simpl in H.
           exists (PyStr.rev_string (x :: cur) ++ String c pre)%string, post.
           rewrite string_app_assoc. simpl. now rewrite H.
    + intros Hw. destruct (IH (c :: cur) Hw) as (pre & post & H).
      exists pre, post. now rewrite <- Hshift.
Qed.

Lemma word_contains (t w s : string) :
  In w (PyStr.split s) -> PyStr.contains t w = true ->
  PyStr.contains t s = true.
Proof.
  intros Hw Ht. apply split_aux_substring in Hw. simpl in Hw.
  destruct Hw as (pre & post & ->).
  apply contains_iff in Ht. destruct Ht as (pre' & post' & ->).
  apply contains_iff. exists (pre ++ pre')%string, (post' ++ post)%string.
  now rewrite !string_app_assoc.
Qed.

Lemma find_none_count (t s : string) (skip : nat) :
  PyStr.find t s = None -> PyStr.count_skip t skip s = 0%nat.
Proof.
  revert skip. induction s as [|c s IH]; intros skip; rewrite find_eq.
  - destruct t; [discriminate | reflexivity].
  - destruct (prefix t (String c s)) eqn:Hp; [discriminate|].
    intros H. assert (Hs : PyStr.find t s = None)
      by (destruct (PyStr.find t s); [discriminate | reflexivity]).
    cbn [PyStr.count_skip]. rewrite Hp. destruct skip; now apply IH.
Qed.

Lemma find_some_count (t s : string) (i : nat) :
  PyStr.find t s = Some i -> (1 <= PyStr.count t s)%nat.
Proof.
  unfold PyStr.count. revert i.
  induction s as [|c s IH]; intros i; rewrite find_eq.
  - destruct t; [intros _; simpl; lia | discriminate].
  - cbn [PyStr.count_skip]. destruct (prefix t (String c s)) eqn:Hp.
    + intros _. lia.
    + destruct (PyStr.find t s) as [j|] eqn:Hf; [|discriminate].
      intros _. now apply (IH j).
Qed.

(** ** Scores of matching and of non-matching texts *)

Lemma term_contribution_absent (blob term : string) :
  PyStr.contains term blob = false -> term_contribution blob term == 0.
Proof.
  intros Habs. unfold term_contribution, position_bonus, partial_words.
  assert (Hfind : PyStr.find term blob = None).
  { unfold PyStr.contains in Habs.
    destruct (PyStr.find term blob); [discriminate | reflexivity]. }
  unfold PyStr.count. rewrite (find_none_count _ _ 0 Hfind), Hfind.
  assert (Hwords : filter (fun word => PyStr.contains term word
                                       && negb (String.eqb word term))
                     (PyStr.split blob) = []).
  { destruct (filter _ (PyStr.split blob)) as [|w ws] eqn:Hf; [reflexivity|].
    assert (Hin : In w (filter (fun word => PyStr.contains term word
                                            && negb (String.eqb word term))
                          (PyStr.split blob)))
      by (rewrite Hf; now left).
    apply filter_In in Hin. destruct Hin as [Hw Hc].
    apply andb_prop in Hc. destruct Hc as [Hc _].
    rewrite (word_contains _ _ _ Hw Hc) in Habs. discriminate. }
  rewrite Hwords. reflexivity.
Qed.

Lemma term_contribution_present (blob term : string) :
  PyStr.contains term blob = true -> 2 <= term_contribution blob term.
Proof.
  intros Hpre. unfold term_contribution.
  unfold PyStr.contains in Hpre.
  destruct (PyStr.find term blob) as [i|] eqn:Hfind; [|discriminate].
  pose proof (find_some_count _ _ _ Hfind) as Hcount.
  assert (Hq : 1 <= Qnat (PyStr.count term blob)).
  { unfold Qnat. change 1 with (inject_Z 1). rewrite <- Zle_Qle. lia. }
  pose proof (Qnat_nonneg (partial_words term (PyStr.split blob))).
  pose proof (position_bonus_nonneg term blob).
  lra.
Qed.

Lemma contribution_sum_zero (blob : string) (terms : list string) :
  (forall t, In t terms -> PyStr.contains t blob = false) ->
  contribution_sum blob terms == 0.
Proof.
  induction terms as [|t ts IH]; intros H; simpl; [reflexivity|].
  rewrite (term_contribution_absent blob t) by (apply H; now left).
  rewrite IH by (intros t' Ht'; apply H; now right). reflexivity.
Qed.

Lemma contribution_sum_present (blob : string) (terms : list string) (t : string) :
  In t terms -> PyStr.contains t blob = true ->
  2 <= contribution_sum blob terms.
Proof.
  induction terms as [|t' ts IH]; intros Hin Hpre; [contradiction|].
  simpl. destruct Hin as [->|Hin].
  - pose proof (term_contribution_present blob t Hpre).
    pose proof (contribution_sum_nonneg blob ts). lra.
  - pose proof (term_contribution_nonneg blob t').
    specialize (IH Hin Hpre). lra.
Qed.

(** For a non-empty text and a non-empty term set the score is 0 exactly
    when no term occurs in the lower-cased text, and positive otherwise. *)
Theorem keyword_score_zero_iff (text : string) (terms : list string) :
  text <> EmptyString -> terms <> [] ->
  (_calculate_keyword_score text terms == 0
   <-> forall t, In t terms -> PyStr.contains t (PyStr.lower text) = false)
  /\ (forall t, In t terms -> PyStr.contains t (PyStr.lower text) = true ->
      0 < _calculate_keyword_score text terms).
Proof.
  intros Ht Hq.
  pose proof (keyword_score_nonempty text terms Ht Hq) as Hscore.
  unfold keyword_score_formula in Hscore. cbv zeta in Hscore.
  set (blob := PyStr.lower text) in *.
  set (d := Qmax (Qnat (List.length (PyStr.split blob)) / 100) 1) in *.
  assert (Hd : 0 < d) by apply normaliser_pos.
  assert (Hpos : forall t, In t terms -> PyStr.contains t blob = true ->
                           0 < _calculate_keyword_score text terms).
  { intros t Hin Hpre. rewrite Hscore.
    pose proof (contribution_sum_present blob terms t Hin Hpre) as Hsum.
    apply Q.min_glb_lt; [|reflexivity].
    apply Qlt_shift_div_l; [exact Hd | lra]. }
  split; [|exact Hpos]. split.
  - intros Hzero t Hin.
    destruct (PyStr.contains t blob) eqn:Hpre; [|reflexivity].
    specialize (Hpos t Hin Hpre). rewrite Hzero in Hpos.
    exfalso. apply (Qlt_irrefl 0 Hpos).
  - intros Habs. rewrite Hscore, (contribution_sum_zero blob terms Habs).
    setoid_replace (0 / d) with 0 by (unfold Qdiv; ring).
    reflexivity.
Qed.

(** The boundary example of the specification: ["x x x"] scores above
    ["y y y"], which scores 0, for the term [x]. *)
Lemma keyword_score_zero_iff_witness :
  _calculate_keyword_score "y y y" ["x"] == 0
  /\ 0 < _calculate_keyword_score "x x x" ["x"].
Proof.
  destruct (keyword_score_zero_iff "y y y" ["x"]) as [Hzero _];
    [discriminate | discriminate |].
  destruct (keyword_score_zero_iff "x x x" ["x"]) as [_ Hpos];
    [discriminate | discriminate |].
  split.
  - apply Hzero. intros t [<-|[]]. reflexivity.
  - apply (Hpos "x"); [now left | reflexivity].
Defined.

(** ** Blank queries *)

Lemma lower_char_space (c : ascii) :
  PyStr.is_space c = true -> PyStr.lower_char c = c.
Proof.
  destruct c as [[] [] [] [] [] [] [] []]; vm_compute;
    first [reflexivity | discriminate].
Qed.

Lemma lower_blank (s : string) : blank s -> PyStr.lower s = s.
Proof.
  induction s as [|c s IH]; simpl; [reflexivity|].
  intros [Hc Hs]. now rewrite (lower_char_space c Hc), IH.
Qed.

Lemma split_blank (s : string) : blank s -> PyStr.split s = [].
Proof.
  unfold PyStr.split. induction s as [|c s IH]; simpl; [reflexivity|].
  intros [Hc Hs]. rewrite Hc. now apply IH.
Qed.

Lemma strip_blank (s : string) : blank s -> PyStr.strip s = EmptyString.
Proof.
  unfold PyStr.strip. induction s as [|c s IH]; simpl; [reflexivity|].
  intros [Hc Hs]. rewrite Hc. now apply IH.
Qed.

Lemma sorted_desc_constant {A : Type} (key : A -> Q) (l : list A) :
  (forall x, key x = 0) -> sorted_desc key l = l.
Proof.
  intros Hkey. induction l as [|x l IH]; simpl; [reflexivity|].
  rewrite IH. destruct l as [|y l]; simpl; [reflexivity|].
  now rewrite !Hkey.
Qed.

(** A query that is empty or made of whitespace has no terms: every
    keyword score is 0 and the keyword list keeps the order in which the
    keyword source returned it. *)
Theorem blank_query_keeps_source_order (query : string) (kw : list Memory) :
  blank query ->
  query_terms_of query = []
  /\ _keyword_sorted (query_terms_of query) kw = map (fun m => (0, m)) kw
  /\ keyword_ranked query kw = kw.
Proof.
  intros Hblank.
  assert (Hterms : query_terms_of query = []).
  { unfold query_terms_of. now rewrite (lower_blank _ Hblank), (split_blank _ Hblank). }
  assert (Hkey : forall m, keyword_key query m = 0).
  { intros m. unfold keyword_key, _calculate_keyword_score.
    now rewrite Hterms, orb_true_r. }
  assert (Hranked : keyword_ranked query kw = kw).
  { unfold keyword_ranked. now apply sorted_desc_constant. }
  split; [exact Hterms|]. split; [|exact Hranked].
  rewrite keyword_sorted_ranked, Hranked.
  apply map_ext. intros m. now rewrite Hkey.
Qed.

Lemma blank_query_keeps_source_order_witness :
  keyword_ranked "  " [M2; M1] = [M2; M1].
Proof.
  apply (blank_query_keeps_source_order "  " [M2; M1]).
  simpl. auto.
Defined.

(** * Further properties of the handlers *)

(** ** Where the keys of a result come from *)

Lemma fusion_calls_origin (query : string) (kw sem img : list Memory) (c : Call) :
  In c (fusion_calls query kw sem img) ->
  exists m, In m (kw ++ sem ++ img)
            /\ (call_memory c = m
                \/ exists s, call_memory c = Mem.set_keyword_score m s).
Proof.
  unfold fusion_calls, all_calls. rewrite keyword_sorted_ranked.
  rewrite !in_app_iff, !in_map_iff.
  intros [([r [s m]] & <- & Hin)|[([r m] & <- & Hin)|([r m] & <- & Hin)]];
    exists m; rewrite !in_app_iff.
  - split; [|right; now exists s]. left.
    assert (H : In (s, m) (map (fun m => (keyword_key query m, m))
                             (keyword_ranked query kw))).
    { eapply in_enumerate. eauto. }
    apply in_map_iff in H. destruct H as (m' & [= _ ->] & H).
    now apply sorted_desc_in in H.
  - split; [|now left]. right; left. eapply sorted_desc_in, in_enumerate. eauto.
  - split; [|now left]. right; right. eapply sorted_desc_in, in_enumerate. eauto.
Qed.

Lemma apply_extra_projection {X : Type} (proj : Memory -> X) (cs : list Call)
    (flds : Memory) :
  (forall m p f, proj (Mem.set_image_fields m p f) = proj m) ->
  proj (fold_left apply_extra cs flds) = proj flds.
Proof.
  intros Hproj. revert flds. induction cs as [|c cs IH]; intros flds;
    [reflexivity|].
  simpl. rewrite IH. unfold apply_extra. destruct (call_extra c); auto.
Qed.

(** A key that neither the score bookkeeping nor the image fields touch
    has, in a result, the value it has in a candidate with the same id. *)
Lemma fused_projection {X : Type} (proj : Memory -> X) (query : string)
    (kw sem img : list Memory) (limit : Z) (out : list Fused) (f : Fused) :
  (forall m p f, proj (Mem.set_image_fields m p f) = proj m) ->
  (forall m, proj (Mem.drop_keyword_score m) = proj m) ->
  (forall m s, proj (Mem.set_keyword_score m s) = proj m) ->
  _hybrid_rank_results kw sem img query limit = Ok out ->
  In f out ->
  exists m, In m (kw ++ sem ++ img)
            /\ Mem.id m = Mem.id (fields f)
            /\ proj m = proj (fields f).
Proof.
  intros Himage Hdrop Hset Hok Hin.
  destruct (fusion_entry _ _ _ _ _ _ _ Hok Hin) as (k & Hid & Hacc).
  unfold accumulator in Hacc. rewrite acc_fold_filter in Hacc.
  pose proof (calls_of_all k (fusion_calls query kw sem img)) as Hall.
  assert (Hsub : forall c, In c (calls_of k (fusion_calls query kw sem img)) ->
                           In c (fusion_calls query kw sem img)).
  { intros c Hc. now apply filter_In in Hc. }
  destruct (calls_of k (fusion_calls query kw sem img)) as [|c cs];
    [discriminate|].
  pose proof (acc_fold_fields k c cs f Hall Hacc) as Hflds.
  destruct (fusion_calls_origin query kw sem img c (Hsub c ltac:(now left)))
    as (m & Hm & Hcm).
  exists m. split; [exact Hm|].
  assert (Hc : has_id k (call_memory c) = true).
  { inversion Hall; assumption. }
  split.
  - rewrite Hid. unfold has_id in Hc.
    destruct Hcm as [Hcm|[s Hcm]]; rewrite Hcm in Hc; simpl in Hc;
      destruct (Mem.id m); try discriminate;
      apply Z.eqb_eq in Hc; now subst.
  - rewrite Hflds, (apply_extra_projection proj _ _ Himage), Hdrop.
    destruct Hcm as [->|[s ->]]; [reflexivity | now rewrite Hset].
Qed.

(** ** Screening of the semantic and image candidates *)

Lemma search_semantic_loop_in (w : World) (user_id : Z)
    (matches : list SemanticMatch) (m : Memory) :
  In m (snd (search_semantic_loop w user_id matches)) <->
  exists mt row,
    In mt matches
    /\ get_memory_by_id w (sm_memory_id mt) = Ok (Some row)
    /\ owned_by user_id row = true
    /\ 1 # 2 <= sm_similarity mt
    /\ m = Mem.set_similarity row (sm_similarity mt) "semantic".
Proof.
  induction matches as [|mt matches IH]; simpl.
  - split; [contradiction | intros (mt & row & [] & _)].
  - destruct (search_semantic_loop w user_id matches) as [tr results].
    simpl in *. rewrite in_app_iff, IH. split.
    + intros [Hhere|(mt' & row & Hin & Hrest)].
      * destruct (get_memory_by_id w (sm_memory_id mt)) as [[row|]|e] eqn:Hget;
          try contradiction.
        destruct (owned_by user_id row) eqn:Hown; [|contradiction].
        destruct (Qle_bool (1 # 2) (sm_similarity mt)) eqn:Hsim; [|contradiction].
        destruct Hhere as [<-|[]]. exists mt, row.
        apply Qle_bool_iff in Hsim. auto.
      * exists mt', row. tauto.
    + intros (mt' & row & [<-|Hin] & Hget & Hown & Hsim & ->).
      * left. rewrite Hget, Hown. apply Qle_bool_iff in Hsim. rewrite Hsim.
        now left.
      * right. exists mt', row. auto.
Qed.

Lemma search_image_loop_in (w : World) (user_id : Z)
    (matches : list ImageMatch) (m : Memory) :
  In m (snd (search_image_loop w user_id matches)) <->
  exists mt row,
    In mt matches
    /\ 35 # 100 <= 1 - im_distance mt
    /\ get_memory_by_id w (im_memory_id mt) = Ok (Some row)
    /\ owned_by user_id row = true
    /\ m = image_memory row (1 - im_distance mt) mt.
Proof.
  induction matches as [|mt matches IH]; simpl.
  - split; [contradiction | intros (mt & row & [] & _)].
  - destruct (search_image_loop w user_id matches) as [tr results].
    simpl in *.
    destruct (Qle_bool (35 # 100) (1 - im_distance mt)) eqn:Hsim; simpl.
    + rewrite in_app_iff, IH. split.
      * intros [Hhere|(mt' & row & Hin & Hrest)].
        -- destruct (get_memory_by_id w (im_memory_id mt)) as [[row|]|e] eqn:Hget;
             try contradiction.
           destruct (owned_by user_id row) eqn:Hown; [|contradiction].
           destruct Hhere as [<-|[]]. exists mt, row.
           apply Qle_bool_iff in Hsim. auto.
        -- exists mt', row. tauto.
      * intros (mt' & row & [<-|Hin] & Hs & Hget & Hown & ->).
        -- left. rewrite Hget, Hown. now left.
        -- right. exists mt', row. auto.
    + rewrite IH. split.
      * intros (mt' & row & Hin & Hrest). exists mt', row. tauto.
      * intros (mt' & row & [<-|Hin] & Hs & Hrest).
        -- apply Qle_bool_iff in Hs. congruence.
        -- exists mt', row. auto.
Qed.

Lemma owned_by_iff (user_id : Z) (m : Memory) :
  owned_by user_id m = true <-> owner_is user_id m.
Proof.
  unfold owned_by, owner_is. destruct (Mem.user_id m) as [u|].
  - rewrite Z.eqb_eq. split; congruence.
  - split; discriminate.
Qed.

Lemma search_semantic_results_in (w : World) (user_id : Z) (st : string)
    (m : Memory) :
  In m (search_semantic_results w user_id st) ->
  exists matches mt row,
    search_similar_memories w = Ok matches
    /\ In mt matches
    /\ get_memory_by_id w (sm_memory_id mt) = Ok (Some row)
    /\ owned_by user_id row = true
    /\ 1 # 2 <= sm_similarity mt
    /\ m = Mem.set_similarity row (sm_similarity mt) "semantic".
Proof.
  unfold search_semantic_results, search_semantic_stage.
  destruct (PyStr.mem st ["hybrid"; "semantic"]); [|contradiction].
  destruct (search_similar_memories w) as [matches|e]; [|contradiction].
  pose proof (search_semantic_loop_in w user_id matches m) as Hloop.
  destruct (search_semantic_loop w user_id matches) as [tr results].
  simpl in *. intros Hin. apply Hloop in Hin.
  destruct Hin as (mt & row & Hrest). exists matches, mt, row. tauto.
Qed.

Lemma search_image_results_in (w : World) (user_id : Z) (st : string)
    (m : Memory) :
  In m (search_image_results w user_id st) ->
  exists matches mt row,
    image_collection_query w = Ok matches
    /\ In mt matches
    /\ 35 # 100 <= 1 - im_distance mt
    /\ get_memory_by_id w (im_memory_id mt) = Ok (Some row)
    /\ owned_by user_id row = true
    /\ m = image_memory row (1 - im_distance mt) mt.
Proof.
  unfold search_image_results, search_image_stage.
  destruct (PyStr.mem st ["hybrid"; "image"]); [|contradiction].
  destruct (image_collection w); [|contradiction].
  destruct (encode_text w); [|contradiction].
  destruct (image_collection_query w) as [matches|e]; [|contradiction].
  pose proof (search_image_loop_in w user_id matches m) as Hloop.
  destruct (search_image_loop w user_id matches) as [tr results].
  simpl in *. intros Hin. apply Hloop in Hin.
  destruct Hin as (mt & row & Hrest). exists matches, mt, row. tauto.
Qed.

Lemma search_candidates_owned (w : World) (user_id : Z) (st : string)
    (m : Memory) :
  In m (search_semantic_results w user_id st)
  \/ In m (search_image_results w user_id st) ->
  owner_is user_id m.
Proof.
  intros [Hin|Hin].
  - apply search_semantic_results_in in Hin.
    destruct Hin as (matches & mt & row & _ & _ & _ & Hown & _ & ->).
    now apply owned_by_iff in Hown.
  - apply search_image_results_in in Hin.
    destruct Hin as (matches & mt & row & _ & _ & _ & _ & Hown & ->).
    now apply owned_by_iff in Hown.
Qed.

(** In [search_memories] every semantic candidate is a stored row of the
    requesting user with similarity at least 0.5, and every image candidate
    a stored row of the requesting user with similarity at least 0.35; the
    candidate carries that similarity and the source tag. *)
Theorem search_candidates_screened (w : World) (user_id : Z) (st : string)
    (m : Memory) :
  (In m (search_semantic_results w user_id st) ->
   owner_is user_id m
   /\ Mem.search_type m = Some "semantic"
   /\ exists s, Mem.similarity_score m = Some s /\ 1 # 2 <= s)
  /\ (In m (search_image_results w user_id st) ->
      owner_is user_id m
      /\ Mem.search_type m = Some "image"
      /\ exists s, Mem.similarity_score m = Some s /\ 35 # 100 <= s).
Proof.
  split.
  - intros Hin. apply search_semantic_results_in in Hin.
    destruct Hin as (matches & mt & row & _ & _ & _ & Hown & Hsim & ->).
    apply owned_by_iff in Hown. split; [exact Hown|]. split; [reflexivity|].
    exists (sm_similarity mt). auto.
  - intros Hin. apply search_image_results_in in Hin.
    destruct Hin as (matches & mt & row & _ & _ & Hsim & _ & Hown & ->).
    apply owned_by_iff in Hown. split; [exact Hown|]. split; [reflexivity|].
    exists (1 - im_distance mt). auto.
Qed.

Lemma search_candidates_screened_witness :
  search_semantic_results mixed_world 7 "hybrid"
  = [Mem.set_similarity M1 (8 # 10) "semantic"]
  /\ owner_is 7 (Mem.set_similarity M1 (8 # 10) "semantic").
Proof.
  split; [vm_compute; reflexivity|].
  destruct (search_candidates_screened mixed_world 7 "hybrid"
              (Mem.set_similarity M1 (8 # 10) "semantic")) as [Hsem _].
  apply Hsem. vm_compute. left. reflexivity.
Defined.

(** User isolation.  When the keyword source returns only rows of the
    requesting user, every result of [search_memories] belongs to that
    user. *)
Theorem search_results_owned (w : World) (user_id : Z) (query : string)
    (limit : Z) (search_type : string) (memory_type memory_types : option string)
    (response : SearchResponse) :
  snd (search_memories w user_id query limit search_type memory_type memory_types)
  = Ok response ->
  Forall (owner_is user_id) (search_keyword_results w search_type) ->
  forall f, In f (memories response) -> owner_is user_id (fields f).
Proof.
  rewrite search_memories_outcome.
  destruct (search_select_types memory_type memory_types) as [[mt sel]|e];
    [|discriminate].
  cbv zeta.
  destruct (_hybrid_rank_results _ _ _ query limit) as [fused|e] eqn:Hfused;
    [|discriminate].
  intros [= <-] Hkw f Hf. cbn [memories] in Hf.
  apply in_map_iff in Hf. destruct Hf as (g & <- & Hg).
  destruct (add_image_url_keeps g) as (Hflds & _). unfold owner_is.
  rewrite Hflds.
  destruct (fused_projection Mem.user_id _ _ _ _ _ _ g
              ltac:(reflexivity) ltac:(reflexivity) ltac:(reflexivity) Hfused Hg)
    as (m & Hm & _ & Hu).
  rewrite <- Hu.
  assert (Hsub : forall l, In m (filter_types sel l) -> In m l).
  { intros l. destruct sel; simpl; [|auto]. intros H. now apply filter_In in H. }
  rewrite !in_app_iff in Hm. destruct Hm as [Hm|[Hm|Hm]]; apply Hsub in Hm.
  - rewrite Forall_forall in Hkw. now apply Hkw.
  - apply (search_candidates_owned w user_id search_type m). now left.
  - apply (search_candidates_owned w user_id search_type m). now right.
Qed.

Lemma search_results_owned_witness :
  exists response,
    snd (search_memories mixed_world 7 "apple" 10 "hybrid" None None)
    = Ok response
    /\ List.length (memories response) = 2%nat
    /\ forall f, In f (memories response) -> owner_is 7 (fields f).
Proof.
  eexists. split; [vm_compute; reflexivity|]. split; [reflexivity|].
  eapply (search_results_owned mixed_world 7 "apple" 10 "hybrid" None None).
  - vm_compute. reflexivity.
  - vm_compute. repeat constructor.
Defined.

(** ** Failing sources *)

Lemma search_keyword_results_failed (w : World) (st : string) (e : exn) :
  advanced_search_memories w = Raise e -> search_keyword_results w st = [].
Proof.
  intros H. unfold search_keyword_results, search_keyword_stage. rewrite H.
  now destruct (PyStr.mem st ["hybrid"; "keyword"]).
Qed.

Lemma search_semantic_results_failed (w : World) (user_id : Z) (st : string)
    (e : exn) :
  search_similar_memories w = Raise e ->
  search_semantic_results w user_id st = [].
Proof.
  intros H. unfold search_semantic_results, search_semantic_stage. rewrite H.
  now destruct (PyStr.mem st ["hybrid"; "semantic"]).
Qed.

Lemma search_image_results_failed (w : World) (user_id : Z) (st : string) :
  image_source_fails w -> search_image_results w user_id st = [].
Proof.
  unfold search_image_results, search_image_stage.
  destruct (PyStr.mem st ["hybrid"; "image"]); [|reflexivity].
  intros [H|[[e H]|[e H]]].
  - now rewrite H.
  - rewrite H. now destruct (image_collection w).
  - rewrite H. destruct (image_collection w); [|reflexivity].
    now destruct (encode_text w).
Qed.

(** Degradation.  A failing source counts as an empty list: when all
    three sources fail, [search_memories] still answers, with no results and
    a breakdown of zeros; and no outcome of the sources makes it fail when
    the type filter is valid and the candidates carry ids. *)
Theorem search_survives_source_failures (w : World) (user_id : Z)
    (query : string) (limit : Z) (search_type : string)
    (memory_type memory_types mt : option string) (sel : option (list string)) :
  search_select_types memory_type memory_types = Ok (mt, sel) ->
  ((exists e, advanced_search_memories w = Raise e) ->
   (exists e, search_similar_memories w = Raise e) ->
   image_source_fails w ->
   snd (search_memories w user_id query limit search_type memory_type
          memory_types)
   = Ok (mkSearchResponse query search_type mt memory_types [] 0
           (mkBreakdown 0 0 0)))
  /\ (Forall has_identifier
        (filter_types sel (search_keyword_results w search_type)
         ++ filter_types sel (search_semantic_results w user_id search_type)
         ++ filter_types sel (search_image_results w user_id search_type)) ->
      exists response,
        snd (search_memories w user_id query limit search_type memory_type
               memory_types) = Ok response).
Proof.
  intros Hsel. split.
  - intros [e1 Hkw] [e2 Hsem] Himg.
    rewrite search_memories_outcome, Hsel. cbv zeta.
    rewrite (search_keyword_results_failed _ _ _ Hkw),
      (search_semantic_results_failed _ _ _ _ Hsem),
      (search_image_results_failed _ user_id search_type Himg).
    now rewrite filter_types_nil, fusion_of_nothing.
  - intros Hids. rewrite search_memories_outcome, Hsel. cbv zeta.
    destruct (fusion_dict query _ _ _ Hids) as (d & Hres & _).
    rewrite Hres. eauto.
Qed.

Lemma search_survives_source_failures_witness :
  snd (search_memories broken_world 7 "apple" 10 "hybrid" None None)
  = Ok (mkSearchResponse "apple" "hybrid" None None [] 0 (mkBreakdown 0 0 0)).
Proof.
  apply (search_survives_source_failures broken_world 7 "apple" 10 "hybrid"
           None None None None eq_refl).
  - eexists. reflexivity.
  - eexists. reflexivity.
  - right. left. eexists. reflexivity.
Defined.

(** ** Failing lookups *)

Lemma ask_semantic_loop_raise (w : World) (user_id : Z)
    (matches : list SemanticMatch) :
  (exists mt e, In mt matches
                /\ get_memory_by_id w (sm_memory_id mt) = Raise e) ->
  exists e, snd (ask_semantic_loop w user_id matches) = Raise e.
Proof.
  induction matches as [|mt matches IH]; intros (mt' & e & Hin & Hget).
  - contradiction.
  - simpl. destruct (get_memory_by_id w (sm_memory_id mt)) as [found|e'] eqn:Hmt.
    + destruct Hin as [<-|Hin]; [congruence|].
      destruct IH as [e'' He]; [eauto|].
      destruct (ask_semantic_loop w user_id matches) as [tr r].
      simpl in *. rewrite He. simpl. eauto.
    + simpl. eauto.
Qed.

(** A lookup that raises costs [search_memories] only the match it was
    made for, and costs [ask_from_memories] the whole semantic list. *)
Theorem failing_lookup (w : World) (user_id : Z) (st : string)
    (matches : list SemanticMatch) :
  search_similar_memories w = Ok matches ->
  PyStr.mem st ["hybrid"; "semantic"] = true ->
  (forall mt row,
      In mt matches ->
      get_memory_by_id w (sm_memory_id mt) = Ok (Some row) ->
      owned_by user_id row = true -> 1 # 2 <= sm_similarity mt ->
      In (Mem.set_similarity row (sm_similarity mt) "semantic")
         (search_semantic_results w user_id st))
  /\ ((exists mt e, In mt matches
                    /\ get_memory_by_id w (sm_memory_id mt) = Raise e) ->
      ask_semantic_results w user_id st = []).
Proof.
  intros Hsem Hst. split.
  - intros mt row Hin Hget Hown Hsim.
    unfold search_semantic_results, search_semantic_stage. rewrite Hst, Hsem.
    pose proof (search_semantic_loop_in w user_id matches
                  (Mem.set_similarity row (sm_similarity mt) "semantic")) as Hloop.
    destruct (search_semantic_loop w user_id matches) as [tr results].
    simpl in *. apply Hloop. exists mt, row. auto.
  - intros Hfail. unfold ask_semantic_results, ask_semantic_stage.
    rewrite Hst, Hsem.
    destruct (ask_semantic_loop_raise w user_id matches Hfail) as [e He].
    destruct (ask_semantic_loop w user_id matches) as [tr r].
    simpl in *. now rewrite He.
Qed.

Lemma failing_lookup_witness :
  In (Mem.set_similarity M1 (8 # 10) "semantic")
     (search_semantic_results mixed_world 7 "hybrid")
  /\ ask_semantic_results mixed_world 7 "hybrid" = [].
Proof.
  destruct (failing_lookup mixed_world 7 "hybrid"
              [mkSemanticMatch 6 (9 # 10); mkSemanticMatch 5 (9 # 10);
               mkSemanticMatch 1 (8 # 10)] eq_refl eq_refl) as [Hsearch Hask].
  split.
  - apply (Hsearch (mkSemanticMatch 1 (8 # 10)) M1);
      [simpl; tauto | reflexivity | reflexivity | discriminate].
  - apply Hask. exists (mkSemanticMatch 6 (9 # 10)), (OtherError "connection lost").
    split; [now left | reflexivity].
Defined.

(** ** Counts of the response *)

Lemma slice_to_length {A : Type} (limit : Z) (l : list A) :
  (List.length (slice_to limit l) <= List.length l)%nat
  /\ ((0 <= limit)%Z -> (Z.of_nat (List.length (slice_to limit l)) <= limit)%Z).
Proof.
  unfold slice_to. destruct (0 <=? limit)%Z eqn:Hl.
  - rewrite length_firstn. split; lia.
  - rewrite length_firstn. apply Z.leb_gt in Hl. split; lia.
Qed.

Lemma nodup_length {A : Type} (dec : forall x y : A, {x = y} + {x <> y})
    (l : list A) :
  (List.length (nodup dec l) <= List.length l)%nat.
Proof.
  induction l as [|x l IH]; simpl; [lia|].
  destruct (in_dec dec x l); simpl; lia.
Qed.

Lemma memory_ids_length (l : list Memory) :
  (List.length (memory_ids l) <= List.length l)%nat.
Proof.
  induction l as [|m l IH]; simpl; [lia|].
  destruct (Mem.id m); simpl; lia.
Qed.

Lemma fusion_output_length (kw sem img : list Memory) (query : string)
    (limit : Z) (out : list Fused) :
  _hybrid_rank_results kw sem img query limit = Ok out ->
  (List.length out
   <= List.length kw + List.length sem + List.length img)%nat
  /\ ((0 <= limit)%Z -> (Z.of_nat (List.length out) <= limit)%Z).
Proof.
  intros Hok.
  destruct (fusion_dict query kw sem img (fusion_ok_ids _ _ _ _ _ _ Hok))
    as (d & Hres & Hnd & _ & Hkeys).
  pose proof (fused_dict_size kw sem img d Hnd Hkeys) as Hsize.
  rewrite Hres in Hok. injection Hok as <-.
  destruct (slice_to_length limit (sorted_desc hybrid_score (values d)))
    as [Hlen Hlim].
  split; [|exact Hlim].
  rewrite Hsize in Hlen. unfold distinct_ids in Hlen.
  pose proof (nodup_length Z.eq_dec (memory_ids (kw ++ sem ++ img))).
  pose proof (memory_ids_length (kw ++ sem ++ img)) as Hm.
  rewrite !length_app in Hm. lia.
Qed.

(** [total_found] is the number of returned memories; it is at most the
    sum of the three breakdown counts, and at most the limit when the limit
    is not negative. *)
Theorem search_total_found (w : World) (user_id : Z) (query : string)
    (limit : Z) (search_type : string) (memory_type memory_types : option string)
    (response : SearchResponse) :
  snd (search_memories w user_id query limit search_type memory_type memory_types)
  = Ok response ->
  total_found response = List.length (memories response)
  /\ (total_found response
      <= keyword_matches (breakdown response)
         + semantic_matches (breakdown response)
         + image_matches (breakdown response))%nat
  /\ ((0 <= limit)%Z -> (Z.of_nat (total_found response) <= limit)%Z).
Proof.
  rewrite search_memories_outcome.
  destruct (search_select_types memory_type memory_types) as [[mt sel]|e];
    [|discriminate].
  cbv zeta.
  destruct (_hybrid_rank_results _ _ _ query limit) as [fused|e] eqn:Hfused;
    [|discriminate].
  intros [= <-].
  cbn [total_found memories breakdown keyword_matches semantic_matches
         image_matches].
  destruct (fusion_output_length _ _ _ _ _ _ Hfused) as [Hsum Hlim].
  rewrite length_map. auto.
Qed.

Lemma search_total_found_witness :
  exists response,
    snd (search_memories mixed_world 7 "apple" 1 "hybrid" None None)
    = Ok response
    /\ total_found response = 1%nat
    /\ (total_found response
        <= keyword_matches (breakdown response)
           + semantic_matches (breakdown response)
           + image_matches (breakdown response))%nat.
Proof.
  eexists. split; [vm_compute; reflexivity|]. split; [reflexivity|].
  eapply (search_total_found mixed_world 7 "apple" 1 "hybrid" None None).
  vm_compute. reflexivity.
Defined.

(** ** Image URLs *)

Lemma acc_fold_no_image_url (k : Z) (calls : list Call) (acc : option Fused) :
  no_image_url acc -> no_image_url (fold_left (acc_step k) calls acc).
Proof.
  revert acc. induction calls as [|c calls IH]; intros acc Hacc; [exact Hacc|].
  simpl. apply IH. unfold acc_step.
  destruct (has_id k (call_memory c)); [|exact Hacc].
  destruct acc as [f|]; simpl in *; [exact Hacc | reflexivity].
Qed.

Lemma fusion_no_image_url (kw sem img : list Memory) (query : string)
    (limit : Z) (out : list Fused) (f : Fused) :
  _hybrid_rank_results kw sem img query limit = Ok out ->
  In f out -> image_url f = None.
Proof.
  intros Hok Hin.
  destruct (fusion_entry _ _ _ _ _ _ _ Hok Hin) as (k & _ & Hacc).
  pose proof (acc_fold_no_image_url k (fusion_calls query kw sem img) None I)
    as H.
  unfold accumulator in Hacc. now rewrite Hacc in H.
Qed.

Lemma add_image_url_expected (g : Fused) :
  image_url g = None ->
  image_url (add_image_url g) = expected_image_url (fields g).
Proof.
  intros Hnone. unfold add_image_url, expected_image_url.
  destruct (Mem.type (fields g)) as [t|]; [|exact Hnone].
  destruct (String.eqb_spec t "image") as [->|Hne].
  - destruct (Mem.metadata_filename (fields g)) as [fname|]; [|exact Hnone].
    simpl. destruct (PyStr.is_empty fname); [exact Hnone | reflexivity].
  - simpl.
    assert (Hend : forall (o : option string),
               match o with Some _ => @None string | None => None end = None)
      by (now intros []).
    rewrite Hend.
    repeat (match goal with
            | |- context [match ?x with _ => _ end] => destruct x; try exact Hnone
            end); try exact Hnone; exfalso; apply Hne; reflexivity.
Qed.

(** A result of [search_memories] carries an image URL exactly when its
    type is [image] and its metadata has a non-empty file name, and the URL
    is [/api/v1/images/] followed by that name; the keys copied into the
    result are those fusion returned. *)
Theorem search_image_urls (w : World) (user_id : Z) (query : string)
    (limit : Z) (search_type : string) (memory_type memory_types : option string)
    (response : SearchResponse) (f : Fused) :
  snd (search_memories w user_id query limit search_type memory_type memory_types)
  = Ok response ->
  In f (memories response) ->
  image_url f = expected_image_url (fields f).
Proof.
  rewrite search_memories_outcome.
  destruct (search_select_types memory_type memory_types) as [[mt sel]|e];
    [|discriminate].
  cbv zeta.
  destruct (_hybrid_rank_results _ _ _ query limit) as [fused|e] eqn:Hfused;
    [|discriminate].
  intros [= <-] Hf. cbn [memories] in Hf.
  apply in_map_iff in Hf. destruct Hf as (g & <- & Hg).
  destruct (add_image_url_keeps g) as (-> & _).
  apply add_image_url_expected.
  exact (fusion_no_image_url _ _ _ _ _ _ _ Hfused Hg).
Qed.

Lemma search_image_urls_witness :
  exists response f,
    snd (search_memories (keyword_world [stored_photo]) 7 "apple" 10 "keyword"
           None None) = Ok response
    /\ memories response = [f]
    /\ image_url f = Some "/api/v1/images/tree.jpg".
Proof.
  do 2 eexists. split; [vm_compute; reflexivity|]. split; [reflexivity|].
  lazymatch goal with
  | |- image_url ?f = _ =>
      rewrite (search_image_urls (keyword_world [stored_photo]) 7 "apple" 10
                 "keyword" None None _ f ltac:(vm_compute; reflexivity)
                 ltac:(simpl; tauto))
  end.
  reflexivity.
Defined.

(** ** The selected types *)

Lemma mem_allowed (t : string) (l : list string) :
  PyStr.mem t l = true <-> In t l.
Proof.
  unfold PyStr.mem. rewrite existsb_exists. split.
  - intros (x & Hx & Heq). apply String.eqb_eq in Heq. now subst.
  - intros H. exists t. split; [exact H | apply String.eqb_refl].
Qed.

(** When [search_memories] accepts a type filter, the selected types are
    a non-empty list without duplicates of names among [text], [image],
    [voice]; [memory_type], when given, is the only selected type and
    [memory_types] is not read; no type is selected exactly when both
    parameters are absent. *)
Theorem search_select_types_accepts (memory_type memory_types mt : option string)
    (sel : option (list string)) :
  search_select_types memory_type memory_types = Ok (mt, sel) ->
  (forall types, sel = Some types ->
     types <> [] /\ NoDup types /\ forall t, In t types -> In t allowed_types)
  /\ (forall t, memory_type = Some t ->
        mt = Some (normalise t) /\ sel = Some [normalise t])
  /\ (sel = None <-> memory_type = None /\ memory_types = None).
Proof.
  unfold search_select_types.
  destruct memory_type as [t|].
  - fold (normalise t).
    destruct (PyStr.mem (normalise t) allowed_types) eqn:Hmem; [|discriminate].
    simpl. intros [= <- <-]. split; [|split].
    + intros types [= <-]. split; [discriminate|].
      split; [repeat constructor; simpl; tauto|].
      intros t' [<-|[]]. exact (proj1 (mem_allowed _ allowed_types) Hmem).
    + intros t' [= <-]. auto.
    + split; [discriminate | intros [H _]; discriminate].
  - destruct memory_types as [s|].
    + set (parsed := map _ _).
      destruct parsed as [|p ps] eqn:Hparsed; [discriminate|].
      destruct (existsb _ (p :: ps)) eqn:Hex; [discriminate|].
      pose proof (NoDup_nodup string_dec (p :: ps)) as Hnd.
      pose proof (nodup_In string_dec (p :: ps)) as Hin.
      set (selected := nodup string_dec (p :: ps)) in *. clearbody selected.
      intros [= <- <-]. split; [|split].
      * intros types [= <-]. split; [|split].
        -- intros Hnil. apply (in_nil (a := p)). rewrite <- Hnil.
           apply Hin. now left.
        -- exact Hnd.
        -- intros t Ht. apply Hin in Ht.
           apply (proj1 (mem_allowed t allowed_types)).
           destruct (PyStr.mem t allowed_types) eqn:Hmem; [reflexivity|].
           assert (Hex' : existsb (fun t => negb (PyStr.mem t allowed_types))
                            (p :: ps) = true).
           { apply existsb_exists. exists t. now rewrite Hmem. }
           congruence.
      * intros t [=].
      * split; [discriminate | intros [_ H]; discriminate].
    + intros [= <- <-]. split; [|split].
      * intros types [=].
      * intros t [=].
      * tauto.
Qed.

Lemma search_select_types_accepts_witness :
  search_select_types None (Some " Text, image ,,TEXT")
  = Ok (None, Some ["image"; "text"])
  /\ forall t, In t ["image"; "text"] -> In t allowed_types.
Proof.
  split; [vm_compute; reflexivity|].
  apply (search_select_types_accepts None (Some " Text, image ,,TEXT") None
           (Some ["image"; "text"]) ltac:(vm_compute; reflexivity)).
  reflexivity.
Defined.

(** ** The question of [/ask] *)

(** A question that is empty or made of whitespace is rejected with
    status 400 before the type filter is looked at and before any source is
    called. *)
Theorem ask_rejects_blank_question (w : World) (user_id : Z)
    (request : AskRequest) :
  blank (req_question request) ->
  ask_from_memories w user_id request
  = ([], Raise (HTTPException 400 "question is required")).
Proof.
  intros Hblank. unfold ask_from_memories.
  now rewrite (strip_blank _ Hblank).
Qed.

Lemma ask_rejects_blank_question_witness :
  ask_from_memories mixed_world 7 ask_blank
  = ([], Raise (HTTPException 400 "question is required")).
Proof.
  apply ask_rejects_blank_question. simpl. auto.
Defined.

Lemma fusion_ids_nodup (kw sem img : list Memory) (query : string)
    (limit : Z) (out : list Fused) :
  _hybrid_rank_results kw sem img query limit = Ok out -> NoDup (ids_of out).
Proof.
  intros Hok.
  destruct (fusion_ranking query kw sem img (fusion_ok_ids _ _ _ _ _ _ Hok))
    as (d & Hres & Hnd & _ & _ & Hids).
  rewrite Hres in Hok. injection Hok as <-.
  destruct (slice_to_split limit (sorted_desc hybrid_score (values d)))
    as [rest Hsplit].
  apply (NoDup_app_remove_r _ (ids_of rest)).
  rewrite <- ids_of_app, <- Hsplit.
  eapply Permutation_NoDup; [|exact Hnd].
  rewrite <- Hids. symmetry. apply ids_of_perm, sorted_desc_perm.
Qed.

(** An answer of [ask_from_memories] repeats the stripped question and
    lists pairwise distinct memory ids, at most [limit] of them when the
    limit is not negative; the answering model is called once, after all
    retrieval. *)
Theorem ask_response_ids (w : World) (user_id : Z) (request : AskRequest)
    (response : AskResponse) :
  snd (ask_from_memories w user_id request) = Ok response ->
  ans_question response = PyStr.strip (req_question request)
  /\ NoDup (ans_memory_ids response)
  /\ ((0 <= req_limit request)%Z ->
      (Z.of_nat (List.length (ans_memory_ids response)) <= req_limit request)%Z)
  /\ exists tr, fst (ask_from_memories w user_id request) = tr ++ [CallGroq]
                /\ retrievals tr = tr.
Proof.
  rewrite ask_from_memories_outcome. cbv zeta.
  destruct (PyStr.is_empty _); [discriminate|].
  destruct (ask_select_types _ _) as [sel|e]; [|discriminate].
  destruct (_hybrid_rank_results _ _ _ _ _) as [fused|e] eqn:Hfused;
    [|discriminate].
  cbn [fst snd]. destruct (groq_answer w _); [|discriminate].
  intros [= <-]. cbn [ans_question ans_memory_ids].
  split; [reflexivity|]. split; [exact (fusion_ids_nodup _ _ _ _ _ _ Hfused)|].
  split.
  - intros Hlimit.
    destruct (fusion_output_length _ _ _ _ _ _ Hfused) as [_ Hlim].
    specialize (Hlim Hlimit).
    assert (Hle : (List.length (ids_of fused) <= List.length fused)%nat).
    { clear. induction fused as [|f l IH]; simpl; [lia|].
      destruct (Mem.id (fields f)); simpl; lia. }
    lia.
  - eexists. split; [reflexivity|].
    unfold retrievals. rewrite !filter_app. f_equal; [|f_equal].
    + unfold ask_keyword_stage.
      destruct (PyStr.mem _ _); [|reflexivity].
      destruct (advanced_search_memories w) as [[|m l]|e]; reflexivity.
    + unfold ask_semantic_stage.
      destruct (PyStr.mem _ _); [|reflexivity].
      destruct (search_similar_memories w) as [matches|e]; [|reflexivity].
      assert (H : forall ms, filter is_retrieval
                               (fst (ask_semantic_loop w user_id ms))
                             = fst (ask_semantic_loop w user_id ms)).
      { induction ms as [|mt ms IH]; [reflexivity|]. simpl.
        destruct (get_memory_by_id w (sm_memory_id mt)); [|reflexivity].
        destruct (ask_semantic_loop w user_id ms) as [tr r].
        simpl in *. now rewrite IH. }
      specialize (H matches).
      destruct (ask_semantic_loop w user_id matches) as [tr r].
      simpl in *. now rewrite H.
    + unfold ask_image_stage.
      destruct (PyStr.mem _ _); [|reflexivity].
      destruct (image_collection w); [|reflexivity].
      destruct (encode_text w); [|reflexivity].
      destruct (image_collection_query w) as [matches|e]; [|reflexivity].
      assert (H : forall ms, filter is_retrieval
                               (fst (ask_image_loop w user_id ms))
                             = fst (ask_image_loop w user_id ms)).
      { induction ms as [|mt ms IH]; [reflexivity|]. simpl.
        destruct (get_memory_by_id w (im_memory_id mt)); [|reflexivity].
        destruct (ask_image_loop w user_id ms) as [tr r].
        simpl in *. now rewrite IH. }
      specialize (H matches).
      destruct (ask_image_loop w user_id matches) as [tr r].
      simpl in *. now rewrite H.
Qed.

Lemma ask_response_ids_witness :
  exists response,
    snd (ask_from_memories (keyword_world [M1; M2]) 7 ask_apple) = Ok response
    /\ ans_memory_ids response = [1; 2]%Z
    /\ NoDup (ans_memory_ids response).
Proof.
  eexists. split; [vm_compute; reflexivity|]. split; [reflexivity|].
  eapply (ask_response_ids (keyword_world [M1; M2]) 7 ask_apple).
  vm_compute. reflexivity.
Defined.

(** ** Which sources a search type calls *)

Lemma search_semantic_loop_events (w : World) (user_id : Z)
    (matches : list SemanticMatch) :
  Forall (fun e => exists i, e = CallGetMemory i)
    (fst (search_semantic_loop w user_id matches)).
Proof.
  induction matches as [|mt matches IH]; simpl; [constructor|].
  destruct (search_semantic_loop w user_id matches) as [tr results].
  simpl in *. constructor; [eauto | exact IH].
Qed.

Lemma search_image_loop_events (w : World) (user_id : Z)
    (matches : list ImageMatch) :
  Forall (fun e => exists i, e = CallGetMemory i)
    (fst (search_image_loop w user_id matches)).
Proof.
  induction matches as [|mt matches IH]; simpl; [constructor|].
  destruct (search_image_loop w user_id matches) as [tr results].
  simpl in *. destruct (Qle_bool _ _); simpl; [|exact IH].
  constructor; [eauto | exact IH].
Qed.

Lemma search_semantic_stage_events (w : World) (user_id : Z) (st : string) :
  Forall (fun e => semantic_event e = true)
    (fst (search_semantic_stage w user_id st)).
Proof.
  unfold search_semantic_stage.
  destruct (PyStr.mem st ["hybrid"; "semantic"]); [|constructor].
  destruct (search_similar_memories w) as [matches|e];
    [|repeat constructor].
  pose proof (search_semantic_loop_events w user_id matches) as H.
  destruct (search_semantic_loop w user_id matches) as [tr results].
  simpl in *. constructor; [reflexivity|].
  eapply Forall_impl; [|exact H]. intros e [i ->]. reflexivity.
Qed.

Lemma search_image_stage_events (w : World) (user_id : Z) (st : string) :
  Forall (fun e => image_event e = true)
    (fst (search_image_stage w user_id st)).
Proof.
  unfold search_image_stage.
  destruct (PyStr.mem st ["hybrid"; "image"]); [|constructor].
  destruct (image_collection w); [|constructor].
  destruct (encode_text w); [|repeat constructor].
  destruct (image_collection_query w) as [matches|e]; [|repeat constructor].
  pose proof (search_image_loop_events w user_id matches) as H.
  destruct (search_image_loop w user_id matches) as [tr results].
  simpl in *. do 2 (constructor; [reflexivity|]).
  eapply Forall_impl; [|exact H]. intros e [i ->]. reflexivity.
Qed.

(** The search type decides which sources [search_memories] calls, and
    the type filter has no part in it: [keyword] calls the keyword search
    once and nothing else, [semantic] only the semantic search and the row
    lookups of its matches, [image] only the text encoder, the image query
    and the row lookups; no search type calls the fallback keyword search
    or the answering model. *)
Theorem search_type_selects_sources (w : World) (user_id : Z) (query : string)
    (limit : Z) (memory_type memory_types : option string) :
  fst (search_memories w user_id query limit "keyword" memory_type memory_types)
  = [CallAdvancedSearch]
  /\ Forall (fun e => semantic_event e = true)
       (fst (search_memories w user_id query limit "semantic" memory_type
               memory_types))
  /\ Forall (fun e => image_event e = true)
       (fst (search_memories w user_id query limit "image" memory_type
               memory_types))
  /\ forall search_type,
       Forall (fun e => search_event e = true)
         (fst (search_memories w user_id query limit search_type memory_type
                 memory_types)).
Proof.
  split; [|split; [|split]].
  - rewrite search_memories_trace.
    unfold search_keyword_stage, search_semantic_stage, search_image_stage.
    reflexivity.
  - rewrite search_memories_trace.
    unfold search_keyword_stage at 1, search_image_stage at 1.
    change (PyStr.mem "semantic" ["hybrid"; "keyword"]) with false.
    change (PyStr.mem "semantic" ["hybrid"; "image"]) with false.
    cbn [fst app]. rewrite app_nil_r. apply search_semantic_stage_events.
  - rewrite search_memories_trace.
    unfold search_keyword_stage at 1, search_semantic_stage at 1.
    change (PyStr.mem "image" ["hybrid"; "keyword"]) with false.
    change (PyStr.mem "image" ["hybrid"; "semantic"]) with false.
    cbn [fst app]. apply search_image_stage_events.
  - intros st. rewrite search_memories_trace, !Forall_app. split; [|split].
    + unfold search_keyword_stage.
      destruct (PyStr.mem st ["hybrid"; "keyword"]); repeat constructor.
    + eapply Forall_impl; [|apply search_semantic_stage_events].
      intros e He. now destruct e.
    + eapply Forall_impl; [|apply search_image_stage_events].
      intros e He. now destruct e.
Qed.

(** * Properties of [timeline_summary] *)

Section TimelineFacts.

Context {cal : Calendar}.
Variable timeframe : string.

Implicit Types (groups : list (string * TimelineGroup))
  (rows : list (TimelineRow cal)).

Let key_of (row : TimelineRow cal) : string :=
  period_key cal timeframe (tl_timestamp row).

(** What the invariant of the loop says about the dict: its keys are
    pairwise distinct and every group sits under its own period. *)
Let well_keyed groups : Prop :=
  NoDup (map fst groups)
  /\ forall k g, In (k, g) groups -> tg_period g = k.

Lemma group_known_in (k : string) groups :
  group_known k groups = true <-> In k (map fst groups).
Proof.
  induction groups as [|[k' g] groups IH]; simpl.
  - split; [discriminate | contradiction].
  - rewrite orb_true_iff, IH, String.eqb_eq. intuition.
Qed.

Lemma group_append_keys (k : string) (e : TimelineEntry) groups :
  map fst (group_append k e groups) = map fst groups.
Proof.
  induction groups as [|[k' g] groups IH]; simpl; [reflexivity|].
  destruct (String.eqb k k'); simpl; [reflexivity | now rewrite IH].
Qed.

Lemma group_append_in (k : string) (e : TimelineEntry) groups (k' : string)
    (g' : TimelineGroup) :
  NoDup (map fst groups) ->
  In (k', g') (group_append k e groups) ->
  exists g, In (k', g) groups
            /\ tg_period g' = tg_period g
            /\ tg_start g' = tg_start g
            /\ tg_end g' = tg_end g
            /\ tg_memories g'
               = if String.eqb k' k then tg_memories g ++ [e] else tg_memories g.
Proof.
  induction groups as [|[k0 g0] groups IH]; simpl; [contradiction|].
  intros Hnd Hin. inversion Hnd as [|? ? Hnotin Hnd']; subst.
  destruct (String.eqb_spec k k0) as [->|Hne].
  - destruct Hin as [[= <- <-]|Hin].
    + exists g0. simpl. rewrite String.eqb_refl. auto.
    + exists g'. split; [now right|].
      destruct (String.eqb_spec k' k0) as [->|]; [|auto].
      exfalso. apply Hnotin. change k0 with (fst (k0, g')). now apply in_map.
  - destruct Hin as [[= <- <-]|Hin].
    + exists g0. split; [now left|].
      destruct (String.eqb_spec k0 k) as [->|]; [congruence | auto].
    + destruct (IH Hnd' Hin) as (g & Hg & Hrest). exists g.
      split; [now right | exact Hrest].
Qed.

Lemma group_row_keys groups (row : TimelineRow cal) :
  map fst (group_row timeframe groups row)
  = if group_known (key_of row) groups then map fst groups
    else map fst groups ++ [key_of row].
Proof.
  unfold group_row. cbv zeta. rewrite group_append_keys.
  fold (key_of row). destruct (group_known (key_of row) groups); [reflexivity|].
  now rewrite map_app.
Qed.

(** The memories filed under [k], none when the period is unknown. *)
Let filed (k : string) groups : list TimelineEntry :=
  match group_lookup k groups with
  | Some g => tg_memories g
  | None => []
  end.

Lemma group_lookup_in (k : string) (g : TimelineGroup) groups :
  NoDup (map fst groups) -> In (k, g) groups -> group_lookup k groups = Some g.
Proof.
  unfold group_lookup.
  induction groups as [|[k0 g0] groups IH]; simpl; [contradiction|].
  intros Hnd Hin. inversion Hnd as [|? ? Hnotin Hnd']; subst.
  destruct Hin as [[= <- <-]|Hin].
  - now rewrite String.eqb_refl.
  - destruct (String.eqb_spec k k0) as [->|Hne]; [|now apply IH].
    exfalso. apply Hnotin. change k0 with (fst (k0, g)). now apply in_map.
Qed.

Lemma group_lookup_some (k : string) (g : TimelineGroup) groups :
  group_lookup k groups = Some g -> In (k, g) groups.
Proof.
  unfold group_lookup.
  destruct (find _ groups) as [[k' g']|] eqn:Hfind; [|discriminate].
  intros [= <-]. apply find_some in Hfind. destruct Hfind as [Hin Heq].
  simpl in Heq. apply String.eqb_eq in Heq. now subst.
Qed.

Lemma group_lookup_none (k : string) groups :
  group_lookup k groups = None <-> ~ In k (map fst groups).
Proof.
  unfold group_lookup. split.
  - destruct (find _ groups) as [kg|] eqn:Hfind; [discriminate|].
    intros _ Hin. apply in_map_iff in Hin. destruct Hin as ([k' g] & <- & Hin).
    apply (find_none _ _ Hfind) in Hin. simpl in Hin.
    now rewrite String.eqb_refl in Hin.
  - intros Hnot. destruct (find _ groups) as [[k' g]|] eqn:Hfind; [|reflexivity].
    apply find_some in Hfind. destruct Hfind as [Hin Heq].
    simpl in Heq. apply String.eqb_eq in Heq. subst.
    exfalso. apply Hnot. change k' with (fst (k', g)). now apply in_map.
Qed.

(** One round of the loop keeps the invariant and files the entry of the
    row under the period of the row. *)
Lemma group_row_step groups (row : TimelineRow cal) :
  well_keyed groups ->
  well_keyed (group_row timeframe groups row)
  /\ (forall k, filed k (group_row timeframe groups row)
                = if String.eqb k (key_of row)
                  then filed k groups ++ [mem_entry row]
                  else filed k groups)
  /\ (forall k g', In (k, g') (group_row timeframe groups row) ->
        (exists g, In (k, g) groups /\ tg_start g' = tg_start g)
        \/ (k = key_of row
            /\ tg_start g' = period_start cal timeframe (tl_timestamp row))).
Proof.
  intros [Hnd Hper].
  set (groups1 :=
         if group_known (key_of row) groups then groups
         else groups ++ [(key_of row,
                          mkTimelineGroup (key_of row)
                            (period_start cal timeframe (tl_timestamp row))
                            (period_end cal timeframe (tl_timestamp row)) [])]).
  assert (Hnd1 : NoDup (map fst groups1)).
  { unfold groups1. destruct (group_known (key_of row) groups) eqn:Hk; [exact Hnd|].
    rewrite map_app. apply NoDup_app; [exact Hnd | repeat constructor; simpl; tauto|].
    simpl. intros x Hx [<-|[]]. apply group_known_in in Hx. congruence. }
  assert (Hper1 : forall k g, In (k, g) groups1 -> tg_period g = k).
  { unfold groups1. destruct (group_known (key_of row) groups); [exact Hper|].
    intros k g Hin. apply in_app_or in Hin.
    destruct Hin as [Hin|[[= <- <-]|[]]]; [now apply Hper | reflexivity]. }
  assert (Hfiled1 : forall k, filed k groups1 = filed k groups).
  { intros k. unfold groups1.
    destruct (group_known (key_of row) groups) eqn:Hk; [reflexivity|].
    unfold filed. destruct (group_lookup k groups) as [g|] eqn:Hl.
    - apply group_lookup_some in Hl.
      rewrite (group_lookup_in k g); [reflexivity | |].
      + rewrite map_app. apply NoDup_app;
          [exact Hnd | repeat constructor; simpl; tauto|].
        simpl. intros x Hx [<-|[]]. apply group_known_in in Hx. congruence.
      + apply in_or_app. now left.
    - destruct (group_lookup k (groups ++ _)) as [g|] eqn:Hl'; [|reflexivity].
      apply group_lookup_some in Hl'. apply in_app_or in Hl'.
      destruct Hl' as [Hin|[[= <- <-]|[]]]; [|reflexivity].
      apply group_lookup_none in Hl. exfalso. apply Hl.
      change k with (fst (k, g)). now apply in_map. }
  assert (Hknown1 : In (key_of row) (map fst groups1)).
  { unfold groups1. destruct (group_known (key_of row) groups) eqn:Hk.
    - now apply group_known_in.
    - rewrite map_app. apply in_or_app. right. now left. }
  change (group_row timeframe groups row)
    with (group_append (key_of row) (mem_entry row) groups1).
  split; [|split].
  - split.
    + now rewrite group_append_keys.
    + intros k g' Hin.
      destruct (group_append_in _ _ _ _ _ Hnd1 Hin) as (g & Hg & Hp & _).
      rewrite Hp. now apply Hper1.
  - intros k. rewrite <- Hfiled1. unfold filed.
    destruct (group_lookup k (group_append _ _ groups1)) as [g'|] eqn:Hl.
    + apply group_lookup_some in Hl.
      destruct (group_append_in _ _ _ _ _ Hnd1 Hl) as (g & Hg & _ & _ & _ & Hm).
      rewrite (group_lookup_in k g groups1 Hnd1 Hg). exact Hm.
    + apply group_lookup_none in Hl. rewrite group_append_keys in Hl.
      apply group_lookup_none in Hl. rewrite Hl.
      destruct (String.eqb_spec k (key_of row)) as [->|]; [|reflexivity].
      apply group_lookup_none in Hl. contradiction.
  - intros k g' Hin.
    destruct (group_append_in _ _ _ _ _ Hnd1 Hin) as (g & Hg & _ & Hs & _).
    unfold groups1 in Hg.
    destruct (group_known (key_of row) groups); [left; eauto|].
    apply in_app_or in Hg. destruct Hg as [Hg|[[= <- <-]|[]]]; [left; eauto|].
    right. split; [reflexivity | exact Hs].
Qed.

(** After the loop: distinct periods, each group under its period and
    holding, in the order of the query, the entries of the rows of that
    period and of no other. *)
Lemma timeline_groups_spec rows :
  let groups := timeline_groups timeframe rows in
  NoDup (map fst groups)
  /\ (forall k g, In (k, g) groups ->
        tg_period g = k
        /\ tg_memories g = map mem_entry (rows_of_period timeframe k rows)
        /\ exists row, In row rows /\ key_of row = k
                       /\ tg_start g
                          = period_start cal timeframe (tl_timestamp row)).
Proof.
  cbv zeta. unfold timeline_groups.
  assert (Hgen : forall rows groups,
             well_keyed groups ->
             let groups' := fold_left (group_row timeframe) rows groups in
             well_keyed groups'
             /\ (forall k, filed k groups'
                           = filed k groups
                             ++ map mem_entry (rows_of_period timeframe k rows))
             /\ (forall k g', In (k, g') groups' ->
                   (exists g, In (k, g) groups /\ tg_start g' = tg_start g)
                   \/ exists row, In row rows /\ key_of row = k
                                  /\ tg_start g'
                                     = period_start cal timeframe
                                         (tl_timestamp row))).
  { clear rows. induction rows as [|row rows IH]; intros groups Hwk; cbv zeta.
    - simpl. split; [exact Hwk|]. split; [intros; now rewrite app_nil_r|].
      intros k g' Hin. left. eauto.
    - simpl fold_left.
      destruct (group_row_step groups row Hwk) as (Hwk1 & Hfiled1 & Hstart1).
      destruct (IH _ Hwk1) as (Hwk' & Hfiled' & Hstart').
      split; [exact Hwk'|]. split.
      + intros k. rewrite Hfiled', Hfiled1. unfold rows_of_period. simpl.
        fold (key_of row). rewrite (String.eqb_sym (key_of row) k).
        destruct (String.eqb k (key_of row)); simpl;
          now rewrite <- ?app_assoc.
      + intros k g' Hin. destruct (Hstart' k g' Hin) as [(g1 & Hg1 & Hs)|Hrow].
        * destruct (Hstart1 k g1 Hg1) as [(g & Hg & Hs')|[-> Hs']].
          -- left. exists g. split; [exact Hg | congruence].
          -- right. exists row. split; [now left|]. split; [reflexivity|].
             congruence.
        * right. destruct Hrow as (r & Hr & Hrest). exists r.
          split; [now right | exact Hrest]. }
  destruct (Hgen rows [] (conj (NoDup_nil _) (fun k g (H : In (k, g) []) =>
                                                match H with end)))
    as ((Hnd & Hper) & Hfiled & Hstart).
  split; [exact Hnd|]. intros k g Hin. split; [now apply Hper|]. split.
  - specialize (Hfiled k). unfold filed in Hfiled.
    rewrite (group_lookup_in k g _ Hnd Hin) in Hfiled. exact Hfiled.
  - destruct (Hstart k g Hin) as [(g0 & [] & _)|Hrow]. exact Hrow.
Qed.

End TimelineFacts.

(** ** Order of strings *)

Lemma string_leb_trans (s1 s2 s3 : string) :
  String.leb s1 s2 = true -> String.leb s2 s3 = true ->
  String.leb s1 s3 = true.
Proof.
  unfold String.leb. revert s2 s3.
  induction s1 as [|c1 s1 IH]; intros [|c2 s2] [|c3 s3]; simpl;
    try (intros; reflexivity); try (intros; discriminate).
  unfold Ascii.compare.
  destruct (N.compare_spec (N_of_ascii c1) (N_of_ascii c2)) as [H12|H12|H12];
    destruct (N.compare_spec (N_of_ascii c2) (N_of_ascii c3)) as [H23|H23|H23];
    destruct (N.compare_spec (N_of_ascii c1) (N_of_ascii c3)) as [H13|H13|H13];
    try lia; try (intros; reflexivity); try (intros; discriminate).
  apply IH.
Qed.

Section SortedStrFacts.

Context {A : Type} (key : A -> string).

Lemma insert_desc_str_perm (x : A) (l : list A) :
  Permutation (insert_desc_str key x l) (x :: l).
Proof.
  induction l as [|y l IH]; simpl; [reflexivity|].
  destruct (String.leb (key y) (key x)); [reflexivity|].
  rewrite IH. apply perm_swap.
Qed.

Lemma sorted_desc_str_perm (l : list A) : Permutation (sorted_desc_str key l) l.
Proof.
  induction l as [|x l IH]; simpl; [constructor|].
  rewrite insert_desc_str_perm. now constructor.
Qed.

Lemma insert_desc_str_sorted (x : A) (l : list A) :
  StronglySorted (fun a b => String.leb (key b) (key a) = true) l ->
  StronglySorted (fun a b => String.leb (key b) (key a) = true)
    (insert_desc_str key x l).
Proof.
  induction 1 as [|y l Hl IH Hy]; simpl.
  - repeat constructor.
  - destruct (String.leb (key y) (key x)) eqn:E.
    + constructor; [now constructor|].
      constructor; [exact E|].
      rewrite Forall_forall in *. intros z Hz.
      apply string_leb_trans with (key y); auto.
    + constructor; [exact IH|].
      assert (Hxy : String.leb (key x) (key y) = true).
      { destruct (String.leb_total (key x) (key y)) as [H|H];
          [exact H | congruence]. }
      rewrite Forall_forall in *. intros z Hz.
      apply (Permutation_in _ (insert_desc_str_perm x l)) in Hz.
      destruct Hz as [<-|Hz]; auto.
Qed.

Lemma sorted_desc_str_sorted (l : list A) :
  StronglySorted (fun a b => String.leb (key b) (key a) = true)
    (sorted_desc_str key l).
Proof.
  induction l as [|x l IH]; simpl; [constructor|].
  now apply insert_desc_str_sorted.
Qed.

End SortedStrFacts.

(** ** Highlights *)

Lemma max_by_spec {A : Type} (key : A -> Q) (best : A) (l : list A) :
  In (max_by key best l) (best :: l)
  /\ forall x, In x (best :: l) -> key x <= key (max_by key best l).
Proof.
  revert best. induction l as [|y l IH]; intros best; simpl.
  - split; [now left|]. intros x [<-|[]]. apply Qle_refl.
  - destruct (Qle_bool (key y) (key best)) eqn:E.
    + destruct (IH best) as [Hin Hmax]. split.
      * destruct Hin as [Hin|Hin]; [now left | right; now right].
      * intros x [<-|[<-|Hx]].
        -- apply Hmax. now left.
        -- apply Qle_bool_iff in E. eapply Qle_trans; [exact E|].
           apply Hmax. now left.
        -- apply Hmax. now right.
    + destruct (IH y) as [Hin Hmax]. split.
      * right. exact Hin.
      * assert (Hlt : key best <= key y).
        { destruct (Qlt_le_dec (key best) (key y)) as [H|H];
            [now apply Qlt_le_weak|].
          apply Qle_bool_iff in H. congruence. }
        intros x [<-|[<-|Hx]].
        -- eapply Qle_trans; [exact Hlt|]. apply Hmax. now left.
        -- apply Hmax. now left.
        -- apply Hmax. now right.
Qed.

Lemma min_by_spec {A : Type} (key : A -> Q) (best : A) (l : list A) :
  In (min_by key best l) (best :: l)
  /\ forall x, In x (best :: l) -> key (min_by key best l) <= key x.
Proof.
  revert best. induction l as [|y l IH]; intros best; simpl.
  - split; [now left|]. intros x [<-|[]]. apply Qle_refl.
  - destruct (Qle_bool (key best) (key y)) eqn:E.
    + destruct (IH best) as [Hin Hmin]. split.
      * destruct Hin as [Hin|Hin]; [now left | right; now right].
      * intros x [<-|[<-|Hx]].
        -- apply Hmin. now left.
        -- apply Qle_bool_iff in E. eapply Qle_trans; [|exact E].
           apply Hmin. now left.
        -- apply Hmin. now right.
    + destruct (IH y) as [Hin Hmin]. split.
      * right. exact Hin.
      * assert (Hlt : key y <= key best).
        { destruct (Qlt_le_dec (key y) (key best)) as [H|H];
            [now apply Qlt_le_weak|].
          apply Qle_bool_iff in H. congruence. }
        intros x [<-|[<-|Hx]].
        -- eapply Qle_trans; [|exact Hlt]. apply Hmin. now left.
        -- apply Hmin. now left.
        -- apply Hmin. now right.
Qed.

(** ** The response *)

Lemma rows_of_period_in {cal : Calendar} (timeframe k : string)
    (rows : list (TimelineRow cal)) (row : TimelineRow cal) :
  In row rows -> period_key cal timeframe (tl_timestamp row) = k ->
  In row (rows_of_period timeframe k rows).
Proof.
  intros Hin Hk. apply filter_In. split; [exact Hin|].
  rewrite Hk. apply String.eqb_refl.
Qed.

(** The summaries before the sort: one per group, with the memories of
    the group. *)
Lemma summaries_spec {cal : Calendar} (timeframe : string)
    (rows : list (TimelineRow cal)) :
  let summaries :=
    flat_map (fun kg => summarise (snd kg)) (timeline_groups timeframe rows) in
  map ts_period summaries = map fst (timeline_groups timeframe rows)
  /\ forall s, In s summaries ->
       holds_period_rows timeframe rows s
       /\ highlights_extremal s
       /\ exists row, In row rows
                      /\ period_key cal timeframe (tl_timestamp row) = ts_period s
                      /\ ts_start s
                         = period_start cal timeframe (tl_timestamp row).
Proof.
  cbv zeta.
  destruct (timeline_groups_spec timeframe rows) as [_ Hgroups].
  cbv zeta in Hgroups.
  set (groups := timeline_groups timeframe rows) in *. clearbody groups.
  induction groups as [|[k g] groups IH]; [split; [reflexivity | contradiction]|].
  destruct IH as [IHp IHs].
  { intros k' g' Hin. apply Hgroups. now right. }
  destruct (Hgroups k g ltac:(now left)) as (Hper & Hmems & row & Hrow & Hkey & Hstart).
  assert (Hne : tg_memories g <> []).
  { rewrite Hmems. intros Hnil.
    pose proof (rows_of_period_in timeframe k rows row Hrow Hkey) as Hin.
    apply (in_map mem_entry) in Hin. rewrite Hnil in Hin. contradiction. }
  simpl. unfold summarise at 1 3.
  destruct (tg_memories g) as [|m rest] eqn:Hm; [congruence|].
  simpl. split; [now rewrite Hper, IHp|].
  intros s [<-|Hs]; [|now apply IHs].
  split; [|split].
  - unfold holds_period_rows. simpl. rewrite Hper.
    split; [exact Hmems|]. split; [reflexivity | discriminate].
  - unfold highlights_extremal. simpl.
    destruct (max_by_spec te_sentiment_score m rest) as [Hmaxin Hmax].
    destruct (min_by_spec te_sentiment_score m rest) as [Hminin Hmin].
    split; [exact Hmaxin|]. split; [exact Hminin|].
    intros e He. split; [now apply Hmin | now apply Hmax].
  - exists row. simpl. rewrite Hper. auto.
Qed.

Lemma timeline_groups_cover {cal : Calendar} (timeframe : string)
    (rows : list (TimelineRow cal)) (row : TimelineRow cal) :
  In row rows ->
  In (period_key cal timeframe (tl_timestamp row))
     (map fst (timeline_groups timeframe rows)).
Proof.
  unfold timeline_groups.
  assert (Hgen : forall (rows : list (TimelineRow cal)) groups k,
             In k (map fst groups)
             \/ In k (map (fun r => period_key cal timeframe (tl_timestamp r)) rows) ->
             In k (map fst (fold_left (group_row timeframe) rows groups))).
  { clear. induction rows as [|r rows IH]; intros groups k; simpl.
    - intros [H|[]]. exact H.
    - intros H. apply IH.
      pose proof (group_row_keys timeframe groups r) as Hkeys.
      cbv zeta in Hkeys. rewrite Hkeys.
      destruct (group_known _ groups) eqn:Hk.
      + destruct H as [H|[<-|H]]; [now left | | now right].
        left. now apply group_known_in.
      + rewrite in_app_iff. simpl. tauto. }
  intros Hin. apply Hgen. right.
  apply (in_map (fun r => period_key cal timeframe (tl_timestamp r))) in Hin.
  exact Hin.
Qed.

Lemma list_sum_map_add {A : Type} (f g : A -> nat) (l : list A) :
  list_sum (map (fun x => (f x + g x)%nat) l)
  = (list_sum (map f l) + list_sum (map g l))%nat.
Proof. induction l as [|x l IH]; simpl; lia. Qed.

Lemma list_sum_indicator (k0 : string) (ks : list string) :
  NoDup ks ->
  list_sum (map (fun k => if String.eqb k0 k then 1%nat else 0%nat) ks)
  = if in_dec string_dec k0 ks then 1%nat else 0%nat.
Proof.
  induction 1 as [|k ks Hnotin Hnd IH]; [reflexivity|].
  rewrite map_cons.
  change (list_sum ((if String.eqb k0 k then 1%nat else 0%nat)
                      :: map (fun k => if String.eqb k0 k then 1%nat else 0%nat) ks))
    with ((if String.eqb k0 k then 1 else 0)
          + list_sum (map (fun k => if String.eqb k0 k then 1%nat else 0%nat) ks))%nat.
  rewrite IH.
  destruct (String.eqb_spec k0 k) as [->|Hne].
  - destruct (in_dec string_dec k ks) as [Hin|_]; [contradiction|].
    destruct (in_dec string_dec k (k :: ks)) as [_|Hno]; [reflexivity|].
    exfalso. apply Hno. now left.
  - destruct (in_dec string_dec k0 ks) as [Hin|Hno];
      destruct (in_dec string_dec k0 (k :: ks)) as [Hin'|Hno']; try reflexivity.
    + exfalso. apply Hno'. now right.
    + destruct Hin' as [->|Hin']; [congruence | contradiction].
Qed.

(** Distinct periods that cover the rows split them. *)
Lemma rows_partition {cal : Calendar} (timeframe : string) (ks : list string)
    (rows : list (TimelineRow cal)) :
  NoDup ks ->
  (forall row, In row rows ->
     In (period_key cal timeframe (tl_timestamp row)) ks) ->
  list_sum (map (fun k => List.length (rows_of_period timeframe k rows)) ks)
  = List.length rows.
Proof.
  intros Hnd. induction rows as [|row rows IH]; intros Hcover.
  - clear Hnd Hcover. unfold rows_of_period. simpl.
    induction ks as [|k ks IHk]; [reflexivity | exact IHk].
  - transitivity
      (list_sum
         (map (fun k =>
                 ((if String.eqb (period_key cal timeframe (tl_timestamp row)) k
                   then 1 else 0)
                  + List.length (rows_of_period timeframe k rows))%nat) ks)).
    { f_equal. apply map_ext. intros k. unfold rows_of_period. simpl.
      now destruct (String.eqb _ k). }
    rewrite list_sum_map_add, (list_sum_indicator _ ks Hnd), IH.
    + destruct (in_dec string_dec _ ks) as [_|Hno]; [reflexivity|].
      exfalso. apply Hno, Hcover. now left.
    + intros r Hr. apply Hcover. now right.
Qed.

Lemma total_count_sum (l : list TimelineSummary) :
  total_count l = list_sum (map ts_count l).
Proof. induction l as [|g l IH]; simpl; [reflexivity | now rewrite IH]. Qed.

Lemma total_count_perm (l l' : list TimelineSummary) :
  Permutation l l' -> total_count l = total_count l'.
Proof. induction 1; simpl; lia. Qed.

(** The groups before the sort: distinct periods, each with the rows of
    its period, and together all the rows. *)
Lemma summary_groups_spec {cal : Calendar} (timeframe : string)
    (rows : list (TimelineRow cal)) :
  NoDup (map ts_period (summary_groups timeframe rows))
  /\ total_count (summary_groups timeframe rows) = List.length rows
  /\ (forall row, In row rows ->
        In (period_key cal timeframe (tl_timestamp row))
           (map ts_period (summary_groups timeframe rows)))
  /\ (forall g, In g (summary_groups timeframe rows) ->
        holds_period_rows timeframe rows g
        /\ highlights_extremal g
        /\ starts_with_row timeframe rows g).
Proof.
  destruct (summaries_spec timeframe rows) as [Hkeys Hall]. cbv zeta in *.
  fold (summary_groups timeframe rows) in *.
  destruct (timeline_groups_spec timeframe rows) as [Hnd _]. cbv zeta in Hnd.
  assert (Hcover : forall row, In row rows ->
            In (period_key cal timeframe (tl_timestamp row))
               (map ts_period (summary_groups timeframe rows))).
  { intros row Hrow. rewrite Hkeys. now apply timeline_groups_cover. }
  split; [now rewrite Hkeys|]. split; [|split; [exact Hcover | exact Hall]].
  rewrite <- (rows_partition timeframe
                (map ts_period (summary_groups timeframe rows)) rows);
    [|now rewrite Hkeys | exact Hcover].
  rewrite total_count_sum, map_map. f_equal.
  apply map_ext_in. intros g Hg.
  destruct (Hall g Hg) as [(Hmems & Hcount & _) _].
  now rewrite Hcount, Hmems, length_map.
Qed.

Lemma timeline_summary_outcome {cal : Calendar} (timeframe : string)
    (rows : list (TimelineRow cal)) (resp : TimelineResponse) :
  snd (timeline_summary timeframe (Ok rows)) = Ok resp ->
  resp = mkTimelineResponse timeframe (List.length rows)
           (sorted_desc_str ts_start (summary_groups timeframe rows)).
Proof.
  unfold timeline_summary.
  destruct (negb (PyStr.mem timeframe ["weekly"; "monthly"])); simpl;
    [discriminate|].
  now intros [= <-].
Qed.

(** The response counts every row of the query once: its groups have
    pairwise distinct periods, each group holds, in the order of the query,
    the entries of exactly the rows of its period, no group is empty, and
    the counts of the groups add up to [total_memories], the number of
    rows. *)
Theorem timeline_partitions_rows {cal : Calendar} (timeframe : string)
    (rows : list (TimelineRow cal)) (resp : TimelineResponse) :
  snd (timeline_summary timeframe (Ok rows)) = Ok resp ->
  tr_total_memories resp = List.length rows
  /\ total_count (tr_groups resp) = tr_total_memories resp
  /\ NoDup (map ts_period (tr_groups resp))
  /\ (forall g, In g (tr_groups resp) -> holds_period_rows timeframe rows g)
  /\ (forall row, In row rows ->
        exists g, In g (tr_groups resp)
                  /\ ts_period g = period_key cal timeframe (tl_timestamp row)
                  /\ In (mem_entry row) (ts_memories g)).
Proof.
  intros Hresp. apply timeline_summary_outcome in Hresp. subst resp.
  cbn [tr_total_memories tr_groups].
  destruct (summary_groups_spec timeframe rows) as (Hnd & Hcount & Hcover & Hall).
  pose proof (sorted_desc_str_perm ts_start (summary_groups timeframe rows))
    as Hperm.
  split; [reflexivity|]. split; [|split; [|split]].
  - now rewrite (total_count_perm _ _ Hperm).
  - apply (Permutation_NoDup (l := map ts_period (summary_groups timeframe rows)));
      [|exact Hnd].
    apply Permutation_map. now symmetry.
  - intros g Hg. apply (Permutation_in _ Hperm) in Hg. now apply Hall.
  - intros row Hrow. specialize (Hcover row Hrow).
    apply in_map_iff in Hcover. destruct Hcover as (g & Hper & Hg).
    exists g. split; [|split; [exact Hper|]].
    + apply (Permutation_in _ (Permutation_sym Hperm)). exact Hg.
    + destruct (Hall g Hg) as [(Hmems & _) _]. rewrite Hmems.
      apply in_map. apply rows_of_period_in; [exact Hrow | now symmetry].
Qed.

Lemma timeline_partitions_rows_witness :
  exists resp,
    snd (timeline_summary (cal := month_calendar) "monthly" (Ok diary_rows))
    = Ok resp
    /\ tr_total_memories resp = 3%nat
    /\ total_count (tr_groups resp) = tr_total_memories resp
    /\ NoDup (map ts_period (tr_groups resp)).
Proof.
  eexists. split; [vm_compute; reflexivity|]. split; [reflexivity|].
  lazymatch goal with
  | |- total_count (tr_groups ?r) = _ /\ _ =>
      destruct (timeline_partitions_rows (cal := month_calendar)
                  "monthly" diary_rows r)
        as (_ & Hcount & Hnd & _); [vm_compute; reflexivity|]
  end.
  split; [exact Hcount | exact Hnd].
Defined.

(** In every group of the response [top_positive] and [top_negative] are
    memories of the group, and no memory of the group has a sentiment score
    above that of [top_positive] or below that of [top_negative]. *)
Theorem timeline_highlights {cal : Calendar} (timeframe : string)
    (rows : list (TimelineRow cal)) (resp : TimelineResponse)
    (g : TimelineSummary) :
  snd (timeline_summary timeframe (Ok rows)) = Ok resp ->
  In g (tr_groups resp) ->
  highlights_extremal g.
Proof.
  intros Hresp Hg. apply timeline_summary_outcome in Hresp. subst resp.
  cbn [tr_groups] in Hg.
  apply (Permutation_in _ (sorted_desc_str_perm ts_start _)) in Hg.
  destruct (summary_groups_spec timeframe rows) as (_ & _ & _ & Hall).
  now destruct (Hall g Hg) as (_ & H & _).
Qed.

Lemma timeline_highlights_witness :
  exists resp g,
    snd (timeline_summary (cal := month_calendar) "monthly" (Ok diary_rows))
    = Ok resp
    /\ In g (tr_groups resp)
    /\ ts_period g = "2024-03"
    /\ te_id (ts_top_positive g) = Mem.id stored_photo
    /\ te_id (ts_top_negative g) = Mem.id M1
    /\ highlights_extremal g.
Proof.
  eexists. eexists. split; [vm_compute; reflexivity|].
  split; [right; left; reflexivity|].
  split; [reflexivity|]. split; [reflexivity|]. split; [reflexivity|].
  lazymatch goal with
  | |- highlights_extremal ?g =>
      eapply (timeline_highlights (cal := month_calendar) "monthly" diary_rows _ g);
        [vm_compute; reflexivity | right; left; reflexivity]
  end.
Defined.

(** The groups of the response come newest first: the [start] dates never
    increase along the list, and the [start] of a group is the first day of
    the period of one of its rows. *)
Theorem timeline_newest_first {cal : Calendar} (timeframe : string)
    (rows : list (TimelineRow cal)) (resp : TimelineResponse) :
  snd (timeline_summary timeframe (Ok rows)) = Ok resp ->
  newest_first (tr_groups resp)
  /\ forall g, In g (tr_groups resp) -> starts_with_row timeframe rows g.
Proof.
  intros Hresp. apply timeline_summary_outcome in Hresp. subst resp.
  cbn [tr_groups]. split; [apply sorted_desc_str_sorted|].
  intros g Hg.
  apply (Permutation_in _ (sorted_desc_str_perm ts_start _)) in Hg.
  destruct (summary_groups_spec timeframe rows) as (_ & _ & _ & Hall).
  now destruct (Hall g Hg) as (_ & _ & H).
Qed.

Lemma timeline_newest_first_witness :
  exists resp,
    snd (timeline_summary (cal := month_calendar) "monthly" (Ok diary_rows))
    = Ok resp
    /\ map ts_start (tr_groups resp) = ["2024-04-01"; "2024-03-01"]
    /\ newest_first (tr_groups resp).
Proof.
  eexists. split; [vm_compute; reflexivity|]. split; [reflexivity|].
  lazymatch goal with
  | |- newest_first (tr_groups ?r) =>
      destruct (timeline_newest_first (cal := month_calendar)
                  "monthly" diary_rows r) as [Hsorted _];
        [vm_compute; reflexivity | exact Hsorted]
  end.
Defined.

(** * Properties of [advanced_search_memories] *)

Lemma string_of_Z_parse (z : Z) :
  DecimalString.NilZero.int_of_string (string_of_Z z) = Some (Z.to_int z).
Proof.
  unfold string_of_Z. apply DecimalString.NilZero.isi.
  - destruct z; simpl; try discriminate.
    intros [= H]. now apply (DecimalPos.Unsigned.to_uint_nonnil p).
  - destruct z; simpl; try discriminate.
    intros [= H]. now apply (DecimalPos.Unsigned.to_uint_nonnil p).
Qed.

Lemma string_of_Z_inj (a b : Z) : string_of_Z a = string_of_Z b -> a = b.
Proof.
  intros H. apply DecimalZ.to_int_inj.
  pose proof (string_of_Z_parse a) as Ha. rewrite H, string_of_Z_parse in Ha.
  now injection Ha.
Qed.

Lemma placeholder_inj (a b : Z) :
  PostgreSQLConnector.placeholder a = PostgreSQLConnector.placeholder b -> a = b.
Proof.
  unfold PostgreSQLConnector.placeholder. simpl. intros [= H].
  now apply string_of_Z_inj.
Qed.

(** The loop over the terms: one pattern and one condition per term, the
    conditions numbered from the counter on. *)
Lemma add_terms_spec (terms : list string) (b : PostgreSQLConnector.Builder)
    (first : nat) :
  PostgreSQLConnector.b_param_count b = Z.of_nat first ->
  let b' := fold_left PostgreSQLConnector.add_term terms b in
  PostgreSQLConnector.b_params b'
  = PostgreSQLConnector.b_params b ++ map term_pattern terms
  /\ PostgreSQLConnector.b_param_count b'
     = Z.of_nat (first + List.length terms)
  /\ PostgreSQLConnector.b_search_conditions b'
     = PostgreSQLConnector.b_search_conditions b
       ++ numbered_conditions first (List.length terms).
Proof.
  revert b first. induction terms as [|term terms IH]; intros b first Hcount.
  - cbv zeta. simpl. rewrite !app_nil_r, Nat.add_0_r. auto.
  - cbv zeta. simpl fold_left.
    destruct (IH (PostgreSQLConnector.add_term b term) (S first))
      as (Hp & Hc & Hs).
    { simpl. rewrite Hcount. lia. }
    cbv zeta in Hp, Hc, Hs. rewrite Hp, Hc, Hs. simpl.
    rewrite <- !app_assoc, Hcount. simpl.
    repeat split; f_equal; lia.
Qed.

Lemma where_clause_scoped (conditions : list string) :
  PostgreSQLConnector.where_clause_of
    ("m.user_id = " ++ PostgreSQLConnector.placeholder 1)%string conditions
  = expected_where true conditions.
Proof. destruct conditions; reflexivity. Qed.

Lemma where_clause_unscoped (conditions : list string) :
  PostgreSQLConnector.where_clause_of ""%string conditions
  = expected_where false conditions.
Proof. destruct conditions; reflexivity. Qed.

(** The statement in closed form. *)
Lemma search_statement_spec (query : string) (limit : Z) (user_id : option Z) :
  PostgreSQLConnector.search_statement query limit user_id
  = (statement_text (given user_id) (List.length (search_terms query)),
     statement_params query limit user_id).
Proof.
  unfold PostgreSQLConnector.search_statement, statement_text, statement_params.
  fold (search_terms query).
  destruct user_id as [uid|]; cbv zeta; cbn [given user_params app].
  - destruct (add_terms_spec (search_terms query)
                (PostgreSQLConnector.mkBuilder [PInt uid] (1 + 1) []) 2
                eq_refl) as (Hp & Hc & Hs).
    cbv zeta in Hp, Hc, Hs. cbn [Z.add Pos.add] in *.
    rewrite Hp, Hc, Hs. cbn [PostgreSQLConnector.b_params
      PostgreSQLConnector.b_search_conditions app].
    rewrite where_clause_scoped.
    replace (1 + List.length (search_terms query) + 1)%nat
      with (2 + List.length (search_terms query))%nat by lia.
    reflexivity.
  - destruct (add_terms_spec (search_terms query)
                (PostgreSQLConnector.mkBuilder [] 1 []) 1 eq_refl)
      as (Hp & Hc & Hs).
    cbv zeta in Hp, Hc, Hs.
    rewrite Hp, Hc, Hs. cbn [PostgreSQLConnector.b_params
      PostgreSQLConnector.b_search_conditions app].
    rewrite where_clause_unscoped.
    replace (0 + List.length (search_terms query) + 1)%nat
      with (1 + List.length (search_terms query))%nat by lia.
    reflexivity.
Qed.

(** Placeholders and parameters line up.  [advanced_search_memories]
    fetches the statement for the number of terms of the query, with the
    user id (when given), one pattern per term and the limit as
    parameters, in this order.  The condition of the [i]-th term names the
    parameter that holds the pattern of that term, different numbers
    give different placeholders, and [LIMIT] names the last parameter, the
    limit. *)
Theorem advanced_search_parameters
    (fetch : string -> list SqlParam -> result (list Memory))
    (query : string) (limit : Z) (user_id : option Z) :
  let terms := search_terms query in
  let offset := List.length (user_params user_id) in
  let params := statement_params query limit user_id in
  PostgreSQLConnector.advanced_search_memories fetch query limit user_id
  = fetch (statement_text (given user_id) (List.length terms)) params
  /\ (forall uid, user_id = Some uid -> nth_error params 0 = Some (PInt uid))
  /\ (forall i term, nth_error terms i = Some term ->
        nth_error params (offset + i) = Some (term_pattern term)
        /\ nth_error (numbered_conditions (offset + 1) (List.length terms)) i
           = Some (PostgreSQLConnector.search_condition
                     (Z.of_nat (offset + i + 1))))
  /\ (forall i j,
        PostgreSQLConnector.placeholder (Z.of_nat i)
        = PostgreSQLConnector.placeholder (Z.of_nat j) -> i = j)
  /\ nth_error params (offset + List.length terms) = Some (PInt limit)
  /\ List.length params = (offset + List.length terms + 1)%nat.
Proof.
  cbv zeta. split; [|split; [|split; [|split; [|split]]]].
  - unfold PostgreSQLConnector.advanced_search_memories.
    now rewrite search_statement_spec.
  - intros uid ->. reflexivity.
  - intros i term Hterm. unfold statement_params.
    assert (Hi : (i < List.length (search_terms query))%nat).
    { apply nth_error_Some. congruence. }
    split.
    + rewrite nth_error_app2 by lia.
      replace (List.length (user_params user_id) + i
               - List.length (user_params user_id))%nat with i by lia.
      rewrite nth_error_app1 by (rewrite length_map; exact Hi).
      now apply map_nth_error.
    + unfold numbered_conditions. rewrite nth_error_map, nth_error_seq.
      apply Nat.ltb_lt in Hi. rewrite Hi. simpl. do 3 f_equal. lia.
  - intros i j H. apply placeholder_inj in H. lia.
  - unfold statement_params. rewrite app_assoc, nth_error_app2;
      rewrite length_app, length_map; [|lia].
    now rewrite Nat.sub_diag.
  - unfold statement_params. rewrite !length_app, length_map. simpl. lia.
Qed.

Lemma advanced_search_parameters_witness :
  nth_error (search_terms "Apple PIE") 1 = Some "pie"%string
  /\ nth_error (statement_params "Apple PIE" 10 (Some 7%Z)) 2
     = Some (PText "%pie%")
  /\ nth_error (numbered_conditions 2 2) 1
     = Some (PostgreSQLConnector.search_condition 3).
Proof.
  split; [reflexivity|].
  destruct (advanced_search_parameters (fun _ _ => Ok []) "Apple PIE" 10
              (Some 7%Z)) as (_ & _ & Hterm & _).
  exact (Hterm 1%nat "pie"%string eq_refl).
Defined.

(** The text of the statement depends on the query only through the
    number of its terms: what the user typed reaches the database in the
    parameters and never in the statement. *)
Theorem advanced_search_text_fixed (query query' : string) (limit limit' : Z)
    (user_id user_id' : option Z) :
  List.length (search_terms query) = List.length (search_terms query') ->
  given user_id = given user_id' ->
  fst (PostgreSQLConnector.search_statement query limit user_id)
  = fst (PostgreSQLConnector.search_statement query' limit' user_id').
Proof.
  intros Hterms Huser. rewrite !search_statement_spec. simpl.
  now rewrite Hterms, Huser.
Qed.

Lemma advanced_search_text_fixed_witness :
  fst (PostgreSQLConnector.search_statement "apple pie" 10 (Some 7%Z))
  = fst (PostgreSQLConnector.search_statement "%';-- x" 50 (Some 8%Z)).
Proof.
  apply advanced_search_text_fixed; reflexivity.
Defined.

(** * Properties of the semantic search *)

(** ** Embedding ids *)

Lemma numeric_char (c : ascii) :
  numeric c = true ->
  int_space c = false
  /\ Ascii.eqb c "_"%char = false
  /\ c <> "+"%char.
Proof.
  destruct c as [[] [] [] [] [] [] [] []]; vm_compute;
    first [discriminate | intros _; repeat split; discriminate].
Qed.

Lemma string_of_uint_numeric (d : Decimal.uint) :
  all_chars numeric (DecimalString.NilEmpty.string_of_uint d) = true.
Proof. induction d; simpl; auto. Qed.

Lemma string_of_Z_numeric (z : Z) : all_chars numeric (string_of_Z z) = true.
Proof.
  unfold string_of_Z.
  destruct (Z.to_int z) as [d|d]; simpl;
    (destruct d; [reflexivity | apply (string_of_uint_numeric (_ d)) ..]).
Qed.

Lemma lstrip_numeric (s : string) :
  all_chars numeric s = true -> int_lstrip s = s.
Proof.
  destruct s as [|c s]; simpl; [reflexivity|].
  intros H. apply andb_true_iff in H. destruct H as [Hc _].
  now destruct (numeric_char c Hc) as (-> & _).
Qed.

Lemma rstrip_numeric (s : string) :
  all_chars numeric s = true -> int_rstrip s = s.
Proof.
  induction s as [|c s IH]; simpl; [reflexivity|].
  intros H. apply andb_true_iff in H. destruct H as [Hc Hs].
  rewrite (IH Hs). destruct (numeric_char c Hc) as (-> & _).
  now destruct s.
Qed.

Lemma strip_numeric (s : string) :
  all_chars numeric s = true -> int_rstrip (int_lstrip s) = s.
Proof.
  intros H. rewrite (lstrip_numeric s H). now apply rstrip_numeric.
Qed.

Lemma py_int_unsigned (s : string) :
  int_rstrip (int_lstrip s) = s -> (forall rest, s <> String "+"%char rest) ->
  py_int s = option_map Z.of_int (DecimalString.NilZero.int_of_string s).
Proof.
  intros Hstrip Hplus. unfold py_int. rewrite Hstrip.
  destruct s as [|c rest]; [reflexivity|].
  destruct c as [[] [] [] [] [] [] [] []]; try reflexivity.
  exfalso. now apply (Hplus rest).
Qed.

(** [int(str(n))] is [n]. *)
Lemma py_int_string_of_Z (z : Z) : py_int (string_of_Z z) = Some z.
Proof.
  pose proof (string_of_Z_numeric z) as Hnum.
  rewrite py_int_unsigned.
  - rewrite string_of_Z_parse. simpl. now rewrite DecimalZ.of_to.
  - now apply strip_numeric.
  - intros rest E. rewrite E in Hnum. discriminate.
Qed.

Lemma split_on_aux_field (sep : ascii) (cur : list ascii) (s1 s2 : string) :
  all_chars (fun c => negb (Ascii.eqb c sep)) s1 = true ->
  PyStr.split_on_aux sep cur (s1 ++ String sep s2)
  = PyStr.rev_string (List.rev (list_ascii_of_string s1) ++ cur)
    :: PyStr.split_on_aux sep [] s2.
Proof.
  revert cur. induction s1 as [|c s1 IH]; intros cur; simpl.
  - intros _. now rewrite Ascii.eqb_refl.
  - intros H. apply andb_true_iff in H. destruct H as [Hc Hs].
    apply negb_true_iff in Hc. rewrite Hc, (IH _ Hs).
    now rewrite <- app_assoc.
Qed.

Lemma split_on_field (sep : ascii) (s1 s2 : string) :
  all_chars (fun c => negb (Ascii.eqb c sep)) s1 = true ->
  PyStr.split_on sep (s1 ++ String sep s2) = s1 :: PyStr.split_on sep s2.
Proof.
  intros H. unfold PyStr.split_on. rewrite (split_on_aux_field _ _ _ _ H).
  unfold PyStr.rev_string.
  now rewrite app_nil_r, rev_involutive, string_of_list_ascii_of_string.
Qed.

Lemma all_chars_impl (P Q' : ascii -> bool) (s : string) :
  (forall c, P c = true -> Q' c = true) ->
  all_chars P s = true -> all_chars Q' s = true.
Proof.
  intros HPQ. induction s as [|c s IH]; simpl; [reflexivity|].
  intros H. apply andb_true_iff in H. destruct H as [Hc Hs].
  now rewrite (HPQ c Hc), (IH Hs).
Qed.

(** The second field of a generated embedding id is the memory id. *)
Lemma embedding_id_fields (memory_id : Z) (suffix : string) :
  nth_error
    (PyStr.split_on "_" (EmbeddingProcessor.embedding_id_of memory_id suffix)) 1
  = Some (string_of_Z memory_id).
Proof.
  unfold EmbeddingProcessor.embedding_id_of.
  change ("memory_" ++ string_of_Z memory_id ++ "_" ++ suffix)%string
    with ("memory" ++ String "_" (string_of_Z memory_id ++ String "_" suffix))%string.
  rewrite split_on_field by reflexivity.
  rewrite split_on_field; [reflexivity|].
  apply (all_chars_impl numeric); [|apply string_of_Z_numeric].
  intros c Hc. now destruct (numeric_char c Hc) as (_ & -> & _).
Qed.

(** Round trip of the embedding id.  For an id generated by
    [store_memory_embedding], whatever its random part, the search finds
    the memory id again: it takes the memory id of the metadata when that
    is present and not 0, and otherwise the memory id the embedding id was
    generated from. *)
Theorem embedding_id_round_trip (metadata : EmbeddingProcessor.Metadata)
    (memory_id : Z) (suffix : string) :
  EmbeddingProcessor.resolve_memory_id metadata
    (EmbeddingProcessor.embedding_id_of memory_id suffix)
  = Some (if EmbeddingProcessor.truthy (EmbeddingProcessor.md_memory_id metadata)
          then EmbeddingProcessor.md_memory_id metadata
          else Some memory_id).
Proof.
  unfold EmbeddingProcessor.resolve_memory_id. cbv zeta.
  destruct (EmbeddingProcessor.truthy _); [reflexivity|].
  rewrite embedding_id_fields, py_int_string_of_Z. reflexivity.
Qed.

(** ** The search *)

Lemma collect_hit_in (round4 : Q -> Q) (threshold : Q)
    (hit : EmbeddingProcessor.Hit) (item : EmbeddingProcessor.SimilarMemory) :
  In item (EmbeddingProcessor.collect_hit round4 threshold hit)
  <-> qualifies threshold hit
      /\ exists memory_id,
           EmbeddingProcessor.resolve_memory_id
             (EmbeddingProcessor.hit_metadata hit)
             (EmbeddingProcessor.hit_embedding_id hit) = Some memory_id
           /\ item
              = EmbeddingProcessor.mkSimilarMemory memory_id
                  (EmbeddingProcessor.hit_embedding_id hit)
                  (round4 (1 - EmbeddingProcessor.hit_distance hit))
                  (round4 (EmbeddingProcessor.hit_distance hit))
                  (EmbeddingProcessor.preview
                     (EmbeddingProcessor.hit_document hit))
                  (EmbeddingProcessor.hit_metadata hit).
Proof.
  unfold EmbeddingProcessor.collect_hit, qualifies. cbv zeta.
  destruct (Qle_bool threshold _) eqn:Hle.
  - apply Qle_bool_iff in Hle.
    destruct (EmbeddingProcessor.resolve_memory_id _ _) as [memory_id|].
    + split.
      * intros [<-|[]]. split; [exact Hle|]. now exists memory_id.
      * intros (_ & m & [= <-] & ->). now left.
    + split; [contradiction|]. intros (_ & m & Hm & _). discriminate.
  - split; [contradiction|]. intros (Hq & _).
    apply Qle_bool_iff in Hq. congruence.
Qed.

Lemma collect_length (round4 : Q -> Q) (threshold : Q)
    (hits : list EmbeddingProcessor.Hit) :
  (List.length (flat_map (EmbeddingProcessor.collect_hit round4 threshold) hits)
   <= List.length hits)%nat.
Proof.
  induction hits as [|hit hits IH]; simpl; [lia|].
  rewrite length_app. unfold EmbeddingProcessor.collect_hit at 1. cbv zeta.
  destruct (Qle_bool _ _); [|simpl; lia].
  destruct (EmbeddingProcessor.resolve_memory_id _ _); simpl; lia.
Qed.

(** What a successful call returns. *)
Lemma search_similar_outcome (round4 : Q -> Q) (initialize : result unit)
    (create_embedding : string -> result (list Q))
    (collection_query : list Q -> Z -> result (list EmbeddingProcessor.Hit))
    (query : string) (limit : Z) (threshold : Q)
    (items : list EmbeddingProcessor.SimilarMemory) :
  EmbeddingProcessor.search_similar_memories round4 initialize create_embedding
    collection_query query limit threshold = Ok items ->
  items = []
  \/ exists query_embedding hits,
       create_embedding query = Ok query_embedding
       /\ query_embedding <> []
       /\ collection_query query_embedding (Z.min (limit * 3) 100) = Ok hits
       /\ items
          = slice_to limit
              (sorted_desc EmbeddingProcessor.similarity
                 (flat_map (EmbeddingProcessor.collect_hit round4 threshold)
                    hits)).
Proof.
  unfold EmbeddingProcessor.search_similar_memories.
  destruct initialize as [u|e]; simpl; [|discriminate].
  destruct (create_embedding query) as [query_embedding|e] eqn:Hemb;
    [|intros [= <-]; now left].
  destruct query_embedding as [|x query_embedding]; simpl;
    [intros [= <-]; now left|].
  destruct (collection_query _ _) as [hits|e] eqn:Hquery;
    [|intros [= <-]; now left].
  intros [= <-]. right. exists (x :: query_embedding), hits.
  repeat split; [discriminate | exact Hquery].
Qed.

(** Order, size and origin of the records of a successful call. *)
Lemma search_similar_spec (round4 : Q -> Q) (initialize : result unit)
    (create_embedding : string -> result (list Q))
    (collection_query : list Q -> Z -> result (list EmbeddingProcessor.Hit))
    (query : string) (limit : Z) (threshold : Q)
    (items : list EmbeddingProcessor.SimilarMemory) :
  EmbeddingProcessor.search_similar_memories round4 initialize create_embedding
    collection_query query limit threshold = Ok items ->
  desc_by EmbeddingProcessor.similarity items
  /\ ((0 <= limit)%Z -> (Z.of_nat (List.length items) <= limit)%Z)
  /\ forall item, In item items ->
       exists query_embedding hits hit,
         create_embedding query = Ok query_embedding
         /\ collection_query query_embedding (Z.min (limit * 3) 100) = Ok hits
         /\ In hit hits
         /\ qualifies threshold hit
         /\ item_of_hit round4 hit item.
Proof.
  intros Hsearch. apply search_similar_outcome in Hsearch.
  destruct Hsearch as [->|(query_embedding & hits & Hemb & _ & Hquery & ->)].
  - split; [constructor|]. split; [simpl; lia | contradiction].
  - split; [apply slice_to_sorted, sorted_desc_sorted|].
    split; [apply slice_to_length|].
    intros item Hitem. apply slice_to_incl, sorted_desc_in in Hitem.
    apply in_flat_map in Hitem. destruct Hitem as (hit & Hhit & Hitem).
    apply collect_hit_in in Hitem. destruct Hitem as (Hq & m & Hm & ->).
    exists query_embedding, hits, hit. unfold item_of_hit. simpl.
    repeat split; assumption.
Qed.

(** Every record the semantic search returns stems from a hit of the
    collection whose similarity, 1 minus its distance, is at least the
    threshold, and carries the memory id found for that hit and the
    rounded similarity and distance.  The records come best first, and for
    a limit that is not negative there are at most [limit] of them. *)
Theorem similar_memories_sound (round4 : Q -> Q) (initialize : result unit)
    (create_embedding : string -> result (list Q))
    (collection_query : list Q -> Z -> result (list EmbeddingProcessor.Hit))
    (query : string) (limit : Z) (threshold : Q)
    (items : list EmbeddingProcessor.SimilarMemory) :
  EmbeddingProcessor.search_similar_memories round4 initialize create_embedding
    collection_query query limit threshold = Ok items ->
  desc_by EmbeddingProcessor.similarity items
  /\ ((0 <= limit)%Z -> (Z.of_nat (List.length items) <= limit)%Z)
  /\ forall item, In item items ->
       exists query_embedding hits hit,
         create_embedding query = Ok query_embedding
         /\ collection_query query_embedding (Z.min (limit * 3) 100) = Ok hits
         /\ In hit hits
         /\ qualifies threshold hit
         /\ item_of_hit round4 hit item.
Proof. apply search_similar_spec. Qed.

Lemma similar_memories_sound_witness :
  exists items,
    example_search 5 = Ok items
    /\ map EmbeddingProcessor.memory_id items = [Some 14%Z; Some 12%Z]
    /\ desc_by EmbeddingProcessor.similarity items.
Proof.
  eexists. split; [vm_compute; reflexivity|]. split; [reflexivity|].
  lazymatch goal with
  | |- desc_by _ ?items =>
      destruct (similar_memories_sound round4_half_up (Ok tt)
                  (fun _ => Ok [1; 0]) (fun _ _ => Ok example_hits)
                  "apple"%string 5 (45 # 100) items) as [Hsorted _];
        [vm_compute; reflexivity | exact Hsorted]
  end.
Defined.

(** The semantic search returns the best hits.  When the collection
    answers, a hit that passes the threshold and has a memory id is either
    returned, or no returned record has a smaller rounded similarity than
    it; and when the limit is at least the number of hits, it is
    returned. *)
Theorem similar_memories_best (round4 : Q -> Q) (initialize : result unit)
    (create_embedding : string -> result (list Q))
    (collection_query : list Q -> Z -> result (list EmbeddingProcessor.Hit))
    (query : string) (limit : Z) (threshold : Q)
    (query_embedding : list Q) (hits : list EmbeddingProcessor.Hit) :
  initialize = Ok tt ->
  create_embedding query = Ok query_embedding ->
  query_embedding <> [] ->
  collection_query query_embedding (Z.min (limit * 3) 100) = Ok hits ->
  exists items,
    EmbeddingProcessor.search_similar_memories round4 initialize
      create_embedding collection_query query limit threshold = Ok items
    /\ forall hit memory_id,
         In hit hits -> qualifies threshold hit ->
         EmbeddingProcessor.resolve_memory_id
           (EmbeddingProcessor.hit_metadata hit)
           (EmbeddingProcessor.hit_embedding_id hit) = Some memory_id ->
         ((exists item, In item items /\ item_of_hit round4 hit item)
          \/ forall item, In item items ->
               round4 (1 - EmbeddingProcessor.hit_distance hit)
               <= EmbeddingProcessor.similarity item)
         /\ ((Z.of_nat (List.length hits) <= limit)%Z ->
             exists item, In item items /\ item_of_hit round4 hit item).
Proof.
  intros -> Hemb Hne Hquery.
  unfold EmbeddingProcessor.search_similar_memories. simpl.
  rewrite Hemb. destruct query_embedding as [|x query_embedding];
    [congruence|].
  cbn [is_nil]. cbv zeta. rewrite Hquery.
  set (collected :=
         flat_map (EmbeddingProcessor.collect_hit round4 threshold) hits).
  set (ranked := sorted_desc EmbeddingProcessor.similarity collected).
  exists (slice_to limit ranked). split; [reflexivity|].
  intros hit memory_id Hhit Hq Hm.
  set (item := EmbeddingProcessor.mkSimilarMemory memory_id
                 (EmbeddingProcessor.hit_embedding_id hit)
                 (round4 (1 - EmbeddingProcessor.hit_distance hit))
                 (round4 (EmbeddingProcessor.hit_distance hit))
                 (EmbeddingProcessor.preview
                    (EmbeddingProcessor.hit_document hit))
                 (EmbeddingProcessor.hit_metadata hit)).
  assert (Hitem : item_of_hit round4 hit item).
  { unfold item_of_hit. simpl. repeat split. exact Hm. }
  assert (Hranked : In item ranked).
  { apply sorted_desc_in, in_flat_map. exists hit. split; [exact Hhit|].
    apply collect_hit_in. split; [exact Hq|]. now exists memory_id. }
  split.
  - destruct (slice_to_split limit ranked) as [rest Hsplit].
    pose proof (sorted_desc_sorted EmbeddingProcessor.similarity collected)
      as Hsorted.
    fold ranked in Hsorted. rewrite Hsplit in Hsorted, Hranked.
    apply in_app_or in Hranked. destruct Hranked as [Hin|Hin].
    + left. now exists item.
    + right. intros item' Hitem'.
      exact (desc_by_split _ _ _ Hsorted item' item Hitem' Hin).
  - intros Hlimit. exists item. split; [|exact Hitem].
    assert (Hlen : (List.length ranked <= List.length hits)%nat).
    { unfold ranked. rewrite sorted_desc_length. apply collect_length. }
    rewrite slice_to_nonneg by lia.
    rewrite firstn_all2 by lia. exact Hranked.
Qed.

Lemma similar_memories_best_witness :
  exists items item,
    example_search 5 = Ok items
    /\ In item items
    /\ EmbeddingProcessor.memory_id item = Some 12%Z
    /\ EmbeddingProcessor.similarity item == 3 # 5.
Proof.
  destruct (similar_memories_best round4_half_up (Ok tt)
              (fun _ => Ok [1; 0]) (fun _ _ => Ok example_hits)
              "apple"%string 5 (45 # 100) [1; 0] example_hits
              eq_refl eq_refl ltac:(discriminate) eq_refl)
    as (items & Hsearch & Hbest).
  destruct (Hbest (hd (EmbeddingProcessor.mkHit ""%string 0
                         (EmbeddingProcessor.mkMetadata None) None)
                      example_hits) (Some 12%Z))
    as [_ Hfull].
  - left. reflexivity.
  - unfold qualifies. vm_compute. discriminate.
  - vm_compute. reflexivity.
  - destruct Hfull as (item & Hin & Hid & _ & Hsim & _);
      [vm_compute; discriminate|].
    exists items, item. split; [exact Hsearch|]. split; [exact Hin|].
    split; [|rewrite Hsim; vm_compute; reflexivity].
    change (Some (Some 12%Z) = Some (EmbeddingProcessor.memory_id item)) in Hid.
    congruence.
Defined.

(** ** Related memories *)


